(** * FocusTasks 9889: the closure store and the summary of [src/app.js]

    A shallow embedding of [createStore] (with its private [init] and
    [persist] and its public [add], [toggle], [remove], [list]) and of
    [summarize], followed by the properties of the specification.

    Modelling decisions, all visible in the definitions below:
    - a JavaScript string is the list of its UTF-16 code units;
    - tasks and arrays are objects in a heap, addressed by location, so that
      "fresh object" and "same reference" can be told apart; the store never
      updates an object in place, it allocates;
    - [localStorage] is a finite map from keys to strings, with a quota and an
      access switch that make [setItem] and [getItem] fail the way the
      [try]/[catch] blocks of the source expect;
    - numbers that hold counts are integers ([Z]); the percentage is computed
      on IEEE-754 binary64 values (Rocq's primitive floats), as in JavaScript. *)

From Stdlib Require Import ZArith NArith List Ascii String Floats Uint63 Lia.
From stdpp Require Import base option list strings gmap.

Open Scope Z_scope.

(** ** JavaScript strings *)

(** A string value: its sequence of UTF-16 code units. *)
Abbreviation jsstring := (list N).

(** Code units of a literal written in the ASCII range. *)
Definition js (s : string) : jsstring :=
  List.map N_of_ascii (list_ascii_of_string s).

(** ECMAScript WhiteSpace and LineTerminator code points, the ones
    [String.prototype.trim] strips. All of them are single code units. *)
Definition is_white_space (c : N) : bool :=
  ((c =? 0x09) || (c =? 0x0A) || (c =? 0x0B) || (c =? 0x0C) || (c =? 0x0D)
   || (c =? 0x20) || (c =? 0xA0) || (c =? 0x1680)
   || ((0x2000 <=? c) && (c <=? 0x200A))
   || (c =? 0x2028) || (c =? 0x2029) || (c =? 0x202F) || (c =? 0x205F)
   || (c =? 0x3000) || (c =? 0xFEFF))%N.

Fixpoint trimStart (s : jsstring) : jsstring :=
  match s with
  | c :: rest => if is_white_space c then trimStart rest else s
  | [] => []
  end.

Definition trimEnd (s : jsstring) : jsstring := rev (trimStart (rev s)).

(** [String.prototype.trim]. *)
Definition trim (s : jsstring) : jsstring := trimEnd (trimStart s).

(** ** Data model *)

(** A stored task: [{ id, title, done }]. *)
Record task : Type := Task { id : jsstring; title : jsstring; done : bool }.

(** The argument of [add]: [title] and [done] may be absent ([undefined]). *)
Record candidate : Type :=
  Candidate { arg_id : jsstring; arg_title : option jsstring; arg_done : option bool }.

Global Instance task_eq_dec : EqDecision task.
Proof. solve_decision. Defined.

(** Exceptions that the modelled code throws or catches. *)
Inductive exn : Type :=
  | SyntaxError          (* JSON.parse on malformed text *)
  | SecurityError        (* storage access denied *)
  | QuotaExceededError   (* setItem over quota *)
  | TypeError            (* a method applied to a value of the wrong kind *)
  | Error (message : string).

(** How a call completes. *)
Inductive completion (A : Type) : Type :=
  | Normal (a : A)
  | Throw (e : exn).
Arguments Normal {A} a.
Arguments Throw {A} e.

(** ** Heap *)

Abbreviation loc := nat.

Inductive obj : Type :=
  | ObjTask (t : task)
  | ObjArray (elems : list loc).

(** ** The storage backend: [window.localStorage] *)

Record Storage : Type := MkStorage {
  items : gmap (list N) (list N);
  quota : option nat;      (* code units the backend accepts, if bounded *)
  denied : bool            (* every access throws SecurityError *)
}.

Definition used (m : gmap (list N) (list N)) : nat :=
  map_fold (λ k v acc, (length k + length v + acc)%nat) 0%nat m.

Definition getItem (key : jsstring) (st : Storage) : completion (option jsstring) :=
  if denied st then Throw SecurityError else Normal (items st !! key).

Definition setItem (key value : jsstring) (st : Storage) : completion Storage :=
  if denied st then Throw SecurityError
  else
    let items' := <[key := value]> (items st) in
    match quota st with
    | Some q =>
        if (used items' <=? q)%nat
        then Normal (MkStorage items' (quota st) (denied st))
        else Throw QuotaExceededError
    | None => Normal (MkStorage items' (quota st) (denied st))
    end.

(** ** The world outside a store's closure *)

Record world : Type := World {
  heap : list obj;
  localStorage : Storage;
  console : list (string * exn)      (* console.error(label, e), oldest first *)
}.

Definition with_heap (h : list obj) (w : world) : world :=
  World h (localStorage w) (console w).

Definition with_storage (st : Storage) (w : world) : world :=
  World (heap w) st (console w).

Definition console_error (label : string) (e : exn) (w : world) : world :=
  World (heap w) (localStorage w) (console w ++ [(label, e)]).

(** Allocation: a new object gets the next location. *)
Definition alloc (o : obj) (h : list obj) : loc * list obj :=
  (length h, h ++ [o]).

Definition read_task (h : list obj) (l : loc) : option task :=
  match h !! l with
  | Some (ObjTask t) => Some t
  | _ => None
  end.

Definition read_array (h : list obj) (a : loc) : option (list loc) :=
  match h !! a with
  | Some (ObjArray els) => Some els
  | _ => None
  end.

(** The task list an array reference denotes: the fields of its elements,
    in order. [None] when the reference is not an array of task objects. *)
Definition read_tasks (h : list obj) (a : loc) : option (list task) :=
  match read_array h a with
  | Some els => mapM (read_task h) els
  | None => None
  end.

(** [array.map(callback)] where the callback may allocate: the elements are
    visited in order, each call sees the heap the previous ones left. *)
Fixpoint array_map (f : loc → task → list obj → loc * list obj)
    (els : list loc) (h : list obj) : option (list loc * list obj) :=
  match els with
  | [] => Some ([], h)
  | l :: rest =>
      match read_task h l with
      | Some t =>
          let '(l', h1) := f l t h in
          match array_map f rest h1 with
          | Some (ls, h2) => Some (l' :: ls, h2)
          | None => None
          end
      | None => None
      end
  end.

(** [array.filter(predicate)]: the kept elements are the same references. *)
Fixpoint array_filter (p : task → bool) (els : list loc) (h : list obj)
    : option (list loc) :=
  match els with
  | [] => Some []
  | l :: rest =>
      match read_task h l with
      | Some t =>
          match array_filter p rest h with
          | Some ls => Some (if p t then l :: ls else ls)
          | None => None
          end
      | None => None
      end
  end.

Set Warnings "-register-all".

(** ** JSON text

    [JSON.stringify] and [JSON.parse] (ECMA-262, 25.5) on the values the
    store handles. The characters of the grammar are written as code units:
    34 is the double quote, 92 the backslash. *)

Inductive json : Type :=
  | JNull
  | JBool (b : bool)
  | JNumber (lexeme : jsstring)
  | JString (s : jsstring)
  | JArray (elems : list json)
  | JObject (members : list (jsstring * json)).

(** *** Serialisation *)

Definition hex_digit (d : N) : N :=
  (if d <? 10 then 48 + d else 87 + d)%N.

(** [\uXXXX], four lowercase hexadecimal digits. *)
Definition unicode_escape (c : N) : jsstring :=
  [92; 117; hex_digit (c / 4096 mod 16); hex_digit (c / 256 mod 16);
   hex_digit (c / 16 mod 16); hex_digit (c mod 16)]%N.

Definition is_leading_surrogate (c : N) : bool := ((0xD800 <=? c) && (c <=? 0xDBFF))%N.
Definition is_trailing_surrogate (c : N) : bool := ((0xDC00 <=? c) && (c <=? 0xDFFF))%N.

(** One code unit that is not a surrogate, as QuoteJSONString writes it. *)
Definition quote_unit (c : N) : jsstring :=
  (if c =? 8 then [92; 98]            (* \b *)
   else if c =? 9 then [92; 116]      (* \t *)
   else if c =? 10 then [92; 110]     (* \n *)
   else if c =? 12 then [92; 102]     (* \f *)
   else if c =? 13 then [92; 114]     (* \r *)
   else if c =? 34 then [92; 34]
   else if c =? 92 then [92; 92]
   else if c <? 32 then unicode_escape c
   else [c])%N.

(** The body of a quoted string: surrogate pairs stay as they are, lone
    surrogates are escaped. *)
Fixpoint quote_units (s : jsstring) : jsstring :=
  match s with
  | [] => []
  | c :: rest =>
      if is_leading_surrogate c then
        match rest with
        | c2 :: rest2 =>
            if is_trailing_surrogate c2 then c :: c2 :: quote_units rest2
            else unicode_escape c ++ quote_units rest
        | [] => unicode_escape c
        end
      else if is_trailing_surrogate c then unicode_escape c ++ quote_units rest
      else quote_unit c ++ quote_units rest
  end.

Definition QuoteJSONString (s : jsstring) : jsstring :=
  34%N :: quote_units s ++ [34%N].

Fixpoint join (sep : jsstring) (parts : list jsstring) : jsstring :=
  match parts with
  | [] => []
  | [p] => p
  | p :: rest => p ++ sep ++ join sep rest
  end.

(** SerializeJSONProperty without indentation. *)
Fixpoint serialize (j : json) : jsstring :=
  match j with
  | JNull => js "null"
  | JBool true => js "true"
  | JBool false => js "false"
  | JNumber lexeme => lexeme
  | JString s => QuoteJSONString s
  | JArray elems => js "[" ++ join (js ",") (List.map serialize elems) ++ js "]"
  | JObject members =>
      js "{" ++
      join (js ",")
        (List.map (λ m, QuoteJSONString (fst m) ++ js ":" ++ serialize (snd m)) members)
      ++ js "}"
  end.

(** A task object has its properties in creation order: id, title, done. *)
Definition task_to_json (t : task) : json :=
  JObject [(js "id", JString (id t)); (js "title", JString (title t));
           (js "done", JBool (done t))].

Definition tasks_to_json (ts : list task) : json := JArray (List.map task_to_json ts).

(** *** Parsing *)

Definition is_json_space (c : N) : bool :=
  ((c =? 0x20) || (c =? 0x09) || (c =? 0x0A) || (c =? 0x0D))%N.

Fixpoint skip_ws (s : jsstring) : jsstring :=
  match s with
  | c :: rest => if is_json_space c then skip_ws rest else s
  | [] => []
  end.

Definition hex_value (c : N) : option N :=
  (if (48 <=? c) && (c <=? 57) then Some (c - 48)
   else if (97 <=? c) && (c <=? 102) then Some (c - 87)
   else if (65 <=? c) && (c <=? 70) then Some (c - 55)
   else None)%N.

(** The character a one-letter escape stands for. *)
Definition unescape (e : N) : option N :=
  (if e =? 34 then Some 34
   else if e =? 92 then Some 92
   else if e =? 47 then Some 47
   else if e =? 98 then Some 8
   else if e =? 102 then Some 12
   else if e =? 110 then Some 10
   else if e =? 114 then Some 13
   else if e =? 116 then Some 9
   else None)%N.

(** The characters of a string literal after its opening quote, up to and
    including the closing quote. *)
Fixpoint parse_chars (s : jsstring) : option (jsstring * jsstring) :=
  match s with
  | [] => None
  | c :: rest =>
      if (c =? 34)%N then Some ([], rest)
      else if (c =? 92)%N then
        match rest with
        | e :: rest1 =>
            if (e =? 117)%N then
              match rest1 with
              | h1 :: h2 :: h3 :: h4 :: rest2 =>
                  match hex_value h1, hex_value h2, hex_value h3, hex_value h4 with
                  | Some a, Some b, Some c', Some d =>
                      match parse_chars rest2 with
                      | Some (str, r) =>
                          Some ((a * 4096 + b * 256 + c' * 16 + d)%N :: str, r)
                      | None => None
                      end
                  | _, _, _, _ => None
                  end
              | _ => None
              end
            else
              match unescape e with
              | Some u =>
                  match parse_chars rest1 with
                  | Some (str, r) => Some (u :: str, r)
                  | None => None
                  end
              | None => None
              end
        | [] => None
        end
      else if (c <? 32)%N then None
      else
        match parse_chars rest with
        | Some (str, r) => Some (c :: str, r)
        | None => None
        end
  end.

Definition is_digit (c : N) : bool := ((48 <=? c) && (c <=? 57))%N.

Fixpoint span_digits (s : jsstring) : jsstring * jsstring :=
  match s with
  | c :: rest =>
      if is_digit c then let '(ds, r) := span_digits rest in (c :: ds, r)
      else ([], s)
  | [] => ([], [])
  end.

(** [int]: a single zero, or a non-zero digit followed by digits. *)
Definition parse_int (s : jsstring) : option (jsstring * jsstring) :=
  match s with
  | c :: rest =>
      if (c =? 48)%N then Some ([c], rest)
      else if is_digit c then let '(ds, r) := span_digits rest in Some (c :: ds, r)
      else None
  | [] => None
  end.

Definition parse_frac (s : jsstring) : option (jsstring * jsstring) :=
  match s with
  | c :: rest =>
      if (c =? 46)%N then
        match span_digits rest with
        | ([], _) => None
        | (ds, r) => Some (c :: ds, r)
        end
      else Some ([], s)
  | [] => Some ([], [])
  end.

Definition parse_exp (s : jsstring) : option (jsstring * jsstring) :=
  match s with
  | c :: rest =>
      if ((c =? 101) || (c =? 69))%N then
        let '(sign, rest1) :=
          match rest with
          | g :: rest' => if ((g =? 43) || (g =? 45))%N then ([g], rest') else ([], rest)
          | [] => ([], rest)
          end in
        match span_digits rest1 with
        | ([], _) => None
        | (ds, r) => Some (c :: sign ++ ds, r)
        end
      else Some ([], s)
  | [] => Some ([], [])
  end.

(** [number]: an optional minus, [int], optional fraction and exponent. The
    lexeme is kept; its numeric value is not needed here. *)
Definition parse_number (s : jsstring) : option (jsstring * jsstring) :=
  let '(sign, s1) :=
    match s with
    | c :: rest => if (c =? 45)%N then ([c], rest) else ([], s)
    | [] => ([], s)
    end in
  match parse_int s1 with
  | Some (i, s2) =>
      match parse_frac s2 with
      | Some (f, s3) =>
          match parse_exp s3 with
          | Some (e, s4) => Some (sign ++ i ++ f ++ e, s4)
          | None => None
          end
      | None => None
      end
  | None => None
  end.

(** [strip_prefix p s]: what follows [p] at the start of [s]. *)
Fixpoint strip_prefix (p s : jsstring) : option jsstring :=
  match p, s with
  | [], _ => Some s
  | a :: p', b :: s' => if (a =? b)%N then strip_prefix p' s' else None
  | _ :: _, [] => None
  end.

(** Recursive descent over the JSON grammar. The fuel bounds the depth of
    the calls; [JSON_parse] supplies enough of it for any text. *)
Fixpoint parse_value (fuel : nat) (s : jsstring) : option (json * jsstring) :=
  match fuel with
  | O => None
  | S fuel' =>
      match skip_ws s with
      | [] => None
      | c :: rest =>
          if (c =? 34)%N then
            match parse_chars rest with
            | Some (str, r) => Some (JString str, r)
            | None => None
            end
          else if (c =? 91)%N then
            match skip_ws rest with
            | c2 :: rest2 =>
                if (c2 =? 93)%N then Some (JArray [], rest2)
                else
                  match parse_elements fuel' rest with
                  | Some (els, r) => Some (JArray els, r)
                  | None => None
                  end
            | [] => None
            end
          else if (c =? 123)%N then
            match skip_ws rest with
            | c2 :: rest2 =>
                if (c2 =? 125)%N then Some (JObject [], rest2)
                else
                  match parse_members fuel' rest with
                  | Some (ms, r) => Some (JObject ms, r)
                  | None => None
                  end
            | [] => None
            end
          else if (c =? 116)%N then
            match strip_prefix (js "true") (c :: rest) with
            | Some r => Some (JBool true, r)
            | None => None
            end
          else if (c =? 102)%N then
            match strip_prefix (js "false") (c :: rest) with
            | Some r => Some (JBool false, r)
            | None => None
            end
          else if (c =? 110)%N then
            match strip_prefix (js "null") (c :: rest) with
            | Some r => Some (JNull, r)
            | None => None
            end
          else
            match parse_number (c :: rest) with
            | Some (lexeme, r) => Some (JNumber lexeme, r)
            | None => None
            end
      end
  end
with parse_elements (fuel : nat) (s : jsstring) : option (list json * jsstring) :=
  match fuel with
  | O => None
  | S fuel' =>
      match parse_value fuel' s with
      | Some (v, r) =>
          match skip_ws r with
          | c :: rest =>
              if (c =? 44)%N then
                match parse_elements fuel' rest with
                | Some (vs, r') => Some (v :: vs, r')
                | None => None
                end
              else if (c =? 93)%N then Some ([v], rest)
              else None
          | [] => None
          end
      | None => None
      end
  end
with parse_members (fuel : nat) (s : jsstring)
    : option (list (jsstring * json) * jsstring) :=
  match fuel with
  | O => None
  | S fuel' =>
      match skip_ws s with
      | q :: rest0 =>
          if (q =? 34)%N then
            match parse_chars rest0 with
            | Some (key, r0) =>
                match skip_ws r0 with
                | colon :: r1 =>
                    if (colon =? 58)%N then
                      match parse_value fuel' r1 with
                      | Some (v, r) =>
                          match skip_ws r with
                          | c :: rest =>
                              if (c =? 44)%N then
                                match parse_members fuel' rest with
                                | Some (ms, r') => Some ((key, v) :: ms, r')
                                | None => None
                                end
                              else if (c =? 125)%N then Some ([(key, v)], rest)
                              else None
                          | [] => None
                          end
                      | None => None
                      end
                    else None
                | [] => None
                end
            | None => None
            end
          else None
      | [] => None
      end
  end.

(** [JSON.parse(text)]: the value, or a [SyntaxError]. *)
Definition JSON_parse (text : jsstring) : completion json :=
  match parse_value (2 * length text + 2) text with
  | Some (j, rest) =>
      match skip_ws rest with
      | [] => Normal j
      | _ :: _ => Throw SyntaxError
      end
  | None => Throw SyntaxError
  end.

(** The parsed values that are task lists of the data model: an array of
    objects with exactly the string [id], the string [title] and the boolean
    [done], in that order. *)
Definition as_task (j : json) : option task :=
  match j with
  | JObject [(k1, JString i); (k2, JString t); (k3, JBool d)] =>
      if decide (k1 = js "id" ∧ k2 = js "title" ∧ k3 = js "done")
      then Some (Task i t d) else None
  | _ => None
  end.

Definition as_tasks (j : json) : option (list task) :=
  match j with
  | JArray elems => mapM as_task elems
  | _ => None
  end.

(** [JSON.stringify(tasks)] for the array a reference denotes. *)
Definition JSON_stringify (h : list obj) (a : loc) : completion jsstring :=
  match read_tasks h a with
  | Some ts => Normal (serialize (tasks_to_json ts))
  | None => Throw TypeError
  end.

(** Allocate the objects of a parsed task list, then the array. *)
Fixpoint alloc_tasks (ts : list task) (h : list obj) : list loc * list obj :=
  match ts with
  | [] => ([], h)
  | t :: rest =>
      let '(l, h1) := alloc (ObjTask t) h in
      let '(ls, h2) := alloc_tasks rest h1 in
      (l :: ls, h2)
  end.

(** ** The closure store: [createStore(storageKey)] *)

Module Store.

(** The variables a store's methods close over. [tasks] is reassigned by
    the methods; [storageKey] never changes. *)
Record closure : Type := Closure { storageKey : jsstring; tasks : loc }.

(** [let tasks = []], then the object of methods is returned. The private
    [init] is defined in the closure and called nowhere. *)
Definition createStore (storageKey : jsstring) (w : world) : closure * world :=
  let '(a, h) := alloc (ObjArray []) (heap w) in
  (Closure storageKey a, with_heap h w).

(** [init()]: hydrate [tasks] from the backend. [None] stands for a stored
    text that parses to a value outside the data model (not a list of
    [{id, title, done}] objects), which this embedding does not follow. *)
Definition init (s : closure) (w : world) : option (closure * world) :=
  let catch (e : exn) :=
    let w1 := console_error "Failed to load from localStorage:" e w in
    let '(a, h) := alloc (ObjArray []) (heap w1) in
    (Closure (storageKey s) a, with_heap h w1) in
  match getItem (storageKey s) (localStorage w) with
  | Normal (Some stored) =>
      match stored with
      | [] => Some (s, w)                        (* the empty string is falsy *)
      | _ :: _ =>
          match JSON_parse stored with
          | Normal j =>
              match as_tasks j with
              | Some ts =>
                  let '(ls, h1) := alloc_tasks ts (heap w) in
                  let '(a, h2) := alloc (ObjArray ls) h1 in
                  Some (Closure (storageKey s) a, with_heap h2 w)
              | None => None
              end
          | Throw e => Some (catch e)
          end
      end
  | Normal None => Some (s, w)                   (* null is falsy *)
  | Throw e => Some (catch e)
  end.

(** [persist()]: write the whole list under the key; a failure is logged
    and goes no further. *)
Definition persist (s : closure) (w : world) : world :=
  match JSON_stringify (heap w) (tasks s) with
  | Normal text =>
      match setItem (storageKey s) text (localStorage w) with
      | Normal st => with_storage st w
      | Throw e => console_error "Failed to save to localStorage:" e w
      end
  | Throw e => console_error "Failed to save to localStorage:" e w
  end.

(** [list()]: [tasks.map(task => ({ ...task }))]. *)
Definition list (s : closure) (w : world) : completion loc * world :=
  match read_array (heap w) (tasks s) with
  | Some els =>
      match array_map (λ _ task h, alloc (ObjTask task) h) els (heap w) with
      | Some (ls, h1) =>
          let '(a, h2) := alloc (ObjArray ls) h1 in
          (Normal a, with_heap h2 w)
      | None => (Throw TypeError, w)
      end
  | None => (Throw TypeError, w)
  end.

(** [!task.title || task.title.trim().length === 0]. *)
Definition rejected (t : option jsstring) : bool :=
  match t with
  | None => true
  | Some str =>
      match str with
      | [] => true
      | _ :: _ => (length (trim str) =? 0)%nat
      end
  end.

(** [add(task)]. *)
Definition add (task : candidate) (s : closure) (w : world)
    : completion loc * closure * world :=
  if rejected (arg_title task) then
    (Throw (Error "Task title cannot be empty"), s, w)
  else
    let newTask :=
      Task (arg_id task)
           (trim (default [] (arg_title task)))
           (default false (arg_done task)) in           (* task.done || false *)
    let '(n, h1) := alloc (ObjTask newTask) (heap w) in
    match read_array h1 (tasks s) with                   (* [...tasks, newTask] *)
    | Some els =>
        let '(a, h2) := alloc (ObjArray (els ++ [n])) h1 in
        let s' := Closure (storageKey s) a in
        let w1 := persist s' (with_heap h2 w) in
        let '(r, w2) := list s' w1 in
        (r, s', w2)
    | None => (Throw TypeError, s, with_heap h1 w)
    end.

(** [toggle(id)]: a matching task is replaced by a copy with [done]
    negated, the others are kept as they are. *)
Definition toggle (i : jsstring) (s : closure) (w : world)
    : completion loc * closure * world :=
  let callback (l : loc) (task : task) (h : Datatypes.list obj) :=
    if decide (id task = i)
    then alloc (ObjTask (Task (id task) (title task) (negb (done task)))) h
    else (l, h) in
  match read_array (heap w) (tasks s) with
  | Some els =>
      match array_map callback els (heap w) with
      | Some (ls, h1) =>
          let '(a, h2) := alloc (ObjArray ls) h1 in
          let s' := Closure (storageKey s) a in
          let w1 := persist s' (with_heap h2 w) in
          let '(r, w2) := list s' w1 in
          (r, s', w2)
      | None => (Throw TypeError, s, w)
      end
  | None => (Throw TypeError, s, w)
  end.

(** [remove(id)]: [tasks.filter(task => task.id !== id)]. *)
Definition remove (i : jsstring) (s : closure) (w : world)
    : completion loc * closure * world :=
  match read_array (heap w) (tasks s) with
  | Some els =>
      match array_filter (λ task, negb (bool_decide (id task = i))) els (heap w) with
      | Some ls =>
          let '(a, h1) := alloc (ObjArray ls) (heap w) in
          let s' := Closure (storageKey s) a in
          let w1 := persist s' (with_heap h1 w) in
          let '(r, w2) := list s' w1 in
          (r, s', w2)
      | None => (Throw TypeError, s, w)
      end
  | None => (Throw TypeError, s, w)
  end.

End Store.

(** The list a store holds, as the outside can observe it. *)
Definition contents (s : Store.closure) (w : world) : option (list task) :=
  read_tasks (heap w) (Store.tasks s).

(** ** Analytics: [summarize(tasks)] *)

(** The result of a number-to-string conversion: the characters, or, for the
    inputs that [toFixed] hands over to [Number::toString] (NaN, the
    infinities, magnitudes from 10^21 on), that conversion left symbolic. *)
Inductive numstring : Type :=
  | Digits (s : jsstring)
  | NumberToString (x : float).

(** The decimal digits of a non-negative integer, most significant first. *)
Fixpoint decimal_aux (fuel : nat) (n : Z) (acc : jsstring) : jsstring :=
  let acc' := Z.to_N (48 + n mod 10) :: acc in
  match fuel with
  | O => acc'
  | S fuel' => if n <? 10 then acc' else decimal_aux fuel' (n / 10) acc'
  end.

Definition decimal (n : Z) : jsstring :=
  decimal_aux (Z.to_nat (Z.log2 n)) n [].

(** The integer [n] for which [n / 10 - x] is as close to zero as possible,
    the larger one if there are two, for [x = m * 2^e]. *)
Definition nearest_tenth (m : positive) (e : Z) : Z :=
  if 0 <=? e then 10 * (Z.pos m * 2 ^ e)
  else (20 * Z.pos m + 2 ^ (- e)) / (2 * 2 ^ (- e)).

(** Steps 9 and 10 of [Number.prototype.toFixed] with one fraction digit:
    the digits of [n], padded to two, with a point before the last one. *)
Definition fixed1 (n : Z) : jsstring :=
  let m := decimal n in
  let m := if (length m <=? 1)%nat then 48%N :: m else m in
  take (length m - 1) m ++ [46%N] ++ drop (length m - 1) m.

(** [x.toFixed(1)] on a binary64 value. *)
Definition toFixed1 (x : float) : numstring :=
  match Prim2SF x with
  | S754_zero _ => Digits (fixed1 0)
  | S754_finite sign m e =>
      if (0 <=? e) && (10 ^ 21 <=? Z.pos m * 2 ^ e) then NumberToString x
      else Digits ((if sign then [45%N] else []) ++ fixed1 (nearest_tenth m e))
  | S754_infinity _ => NumberToString x
  | S754_nan => NumberToString x
  end.

(** The binary64 value of a count (exact below 2^53, far beyond the length
    of any array). *)
Definition number (n : Z) : float := PrimFloat.of_uint63 (Uint63.of_Z n).

(** The value of [pct]: the number [0], or the string [toFixed] returns. *)
Inductive pct_value : Type :=
  | PctNumber (x : float)
  | PctString (s : numstring).

Module Stats.
(** The object [{ active, done, pct }]. *)
Record t : Type := Make { active : Z; done : Z; pct : pct_value }.
End Stats.

(** [tasks.reduce(callback, 0)]. *)
Definition reduce {A B} (callback : B → A → B) (init : B) (l : list A) : B :=
  fold_left callback l init.

Definition summarize (tasks : list task) : Stats.t :=
  let active := reduce (λ count task, if done task then count else count + 1) 0 tasks in
  let done := reduce (λ count task, if done task then count + 1 else count) 0 tasks in
  let total := active + done in
  let pct :=
    if total =? 0 then PctNumber 0%float
    else PctString (toFixed1 (PrimFloat.mul (PrimFloat.div (number done) (number total)) 100%float)) in
  Stats.Make active done pct.

(** ** Definitions that follow the words of the specification

    They are compared with the code further down; nothing above uses them. *)

(** "Rounded to one decimal", ties upward: the tenths in the exact quotient
    [100 * d / t], as a number of tenths. *)
Definition spec_tenths_half_up (d t : Z) : Z := (2000 * d + t) / (2 * t).

(** The same with ties to the even tenth. *)
Definition spec_tenths_half_even (d t : Z) : Z :=
  let q := (1000 * d) / t in
  let r := (1000 * d) mod t in
  if 2 * r <? t then q
  else if t <? 2 * r then q + 1
  else if Z.even q then q else q + 1.

(** A number of tenths [n] is nearest to the exact percentage of [d] out of
    [t] when it lies within half a tenth of it. *)
Definition nearest_to_exact (n d t : Z) : Prop :=
  Z.abs (2 * n * t - 2000 * d) <= t.

(** "Id is unique within the store's list". *)
Definition unique_ids (ts : list task) : Prop := NoDup (id <$> ts).

(** "[title] is never empty or whitespace-only": what [add] accepts. *)
Definition valid_title (t : option jsstring) : Prop :=
  ∃ str, t = Some str ∧ trim str ≠ [].

(** A string that does not begin with white space (the empty one included). *)
Definition starts_clean (s : jsstring) : Prop :=
  match s with c :: _ => is_white_space c = false | [] => True end.

(** A callback of [array.map] that returns a reference to [g task] and only
    allocates. *)
Definition maps_to (f : loc → task → list obj → loc * list obj) (g : task → task) : Prop :=
  ∀ l t h, read_task h l = Some t →
    h `prefix_of` snd (f l t h) ∧ read_task (snd (f l t h)) (fst (f l t h)) = Some (g t).

(** The task [add] stores for an accepted candidate. *)
Definition newTask (c : candidate) : task :=
  Task (arg_id c) (trim (default [] (arg_title c))) (default false (arg_done c)).

(** A task with its [done] flag negated: [{ ...task, done: !task.done }]. *)
Definition flipped (t : task) : task := Task (id t) (title t) (negb (done t)).

(** What [persist] does to the backend and the console when the store holds
    the list [ts]. *)
Definition persisted (key : jsstring) (ts : list task) (w : world) : world :=
  match setItem key (serialize (tasks_to_json ts)) (localStorage w) with
  | Normal st => with_storage st w
  | Throw e => console_error "Failed to save to localStorage:" e w
  end.

(** ** Example states *)

(** A store together with the world it runs in. *)
Definition state : Type := Store.closure * world.

Definition observe (st : state) : option (list task) := contents (fst st) (snd st).

(** The state a method call leaves, whatever it returned. *)
Definition after (op : Store.closure → world → completion loc * Store.closure * world)
    (st : state) : state :=
  let '(_, s', w') := op (fst st) (snd st) in (s', w').

(** An empty heap, an empty unbounded backend, a silent console. *)
Definition empty_world : world := World [] (MkStorage ∅ None false) [].

(** [const store = createStore('focustasks_9889')] in that world. *)
Definition app_store : state := Store.createStore (js "focustasks_9889") empty_world.

(** The same id supplied to [add] twice. *)
Definition twin_store : state :=
  after (Store.add (Candidate (js "a") (Some (js "second")) None))
    (after (Store.add (Candidate (js "a") (Some (js "first")) None)) app_store).

(** ** The percentage, checked against exact arithmetic *)

(** [done / total * 100] on binary64 values. *)
Definition percent (d t : Z) : float :=
  PrimFloat.mul (PrimFloat.div (number d) (number t)) 100%float.

(** The number of tenths [toFixed1] prints, when it prints digits without a
    sign. *)
Definition tenths (x : float) : option Z :=
  match Prim2SF x with
  | S754_zero _ => Some 0
  | S754_finite false m e =>
      if (0 <=? e) && (10 ^ 21 <=? Z.pos m * 2 ^ e) then None
      else Some (nearest_tenth m e)
  | _ => None
  end.

(** The tenths printed for [d] done tasks out of [t] lie within half a tenth
    of the exact percentage. *)
Definition within_half_tenth (d t : Z) : bool :=
  match tenths (percent d t) with
  | Some n => Z.abs (2 * n * t - 2000 * d) <=? t
  | None => false
  end.

(** The length of the longest array: an array index is below [2^32 - 1]
    (ECMA-262, 6.1.7), so no list that [summarize] is given is longer. *)
Definition max_array_length : Z := 2 ^ 32 - 1.

(** 23 tasks done out of 80: exactly 28.75 percent. *)
Definition eighty_tasks : list task :=
  replicate 23 (Task (js "d") (js "done") true)
  ++ replicate 57 (Task (js "o") (js "open") false).

(** One task added by the application's store, which persists it. *)
Definition milk_store : state :=
  after (Store.add (Candidate (js "t1") (Some (js "Buy milk")) None)) app_store.

(** A second store created with the same key in the world the first left. *)
Definition reloaded_store : state :=
  Store.createStore (js "focustasks_9889") (snd milk_store).

(** A backend whose value under the key is not JSON. *)
Definition corrupt_world : world :=
  World [] (MkStorage {[ js "focustasks_9889" := js "{oops" ]} None false) [].

(** ** The states a program reaches through the public interface *)

Inductive reachable : state → Prop :=
  | reach_createStore (key : jsstring) (w : world) :
      reachable (Store.createStore key w)
  | reach_add (c : candidate) (st : state) :
      reachable st → reachable (after (Store.add c) st)
  | reach_toggle (i : jsstring) (st : state) :
      reachable st → reachable (after (Store.toggle i) st)
  | reach_remove (i : jsstring) (st : state) :
      reachable st → reachable (after (Store.remove i) st)
  | reach_list (st : state) :
      reachable st → reachable (fst st, snd (Store.list (fst st) (snd st))).

(** "[title] is never empty or whitespace-only": no white space at either
    end either, since [add] trims. *)
Definition clean_title (t : task) : Prop :=
  title t ≠ [] ∧ starts_clean (title t) ∧ starts_clean (rev (title t)).

(** The outcome of a mutator called on store [s] in world [w] that leaves the
    list [ts']: it returns normally a reference to a list equal to [ts'], the
    store holds [ts'] under the same key, the heap has only grown, and the
    backend and the console are as [persist] leaves them. *)
Definition mutates_to (s : Store.closure) (w : world) (ts' : list task)
    (outcome : completion loc * Store.closure * world) : Prop :=
  ∃ r s' w',
    outcome = (Normal r, s', w')
    ∧ contents s' w' = Some ts'
    ∧ read_tasks (heap w') r = Some ts'
    ∧ Store.storageKey s' = Store.storageKey s
    ∧ heap w `prefix_of` heap w'
    ∧ localStorage w' = localStorage (persisted (Store.storageKey s) ts' w)
    ∧ console w' = console (persisted (Store.storageKey s) ts' w).

(** A backend that accepts nothing more. *)
Definition full_world : world := World [] (MkStorage ∅ (Some 0%nat) false) [].

(** A backend whose value under the key is JSON but not a list of tasks. *)
Definition foreign_world : world :=
  World [] (MkStorage {[ js "focustasks_9889" := js "5" ]} None false) [].

(** The number a string of decimal digits denotes. *)
Definition digits_value (s : jsstring) : Z :=
  fold_left (λ v c, 10 * v + (Z.of_N c - 48)) s 0.

(** ** The three mutators, as commands *)

(** A call of one of the store's mutating methods. *)
Inductive mutation : Type :=
  | Add (c : candidate)
  | Toggle (i : jsstring)
  | Remove (i : jsstring).

(** The call itself. *)
Definition run (m : mutation) (s : Store.closure) (w : world)
    : completion loc * Store.closure * world :=
  match m with
  | Add c => Store.add c s w
  | Toggle i => Store.toggle i s w
  | Remove i => Store.remove i s w
  end.

(** The calls that pass validation: every [toggle] and [remove], and [add]
    with a title that is not blank. *)
Definition accepted (m : mutation) : Prop :=
  match m with
  | Add c => Store.rejected (arg_title c) = false
  | Toggle _ | Remove _ => True
  end.

(** The list an accepted call leaves, given the list it finds. *)
Definition effect (m : mutation) (ts : list task) : list task :=
  match m with
  | Add c => ts ++ [newTask c]
  | Toggle i => (λ t, if decide (id t = i) then flipped t else t) <$> ts
  | Remove i => filter (λ t, id t ≠ i) ts
  end.

(** ** [escapeHtml(text)]

    [div.textContent = text] leaves the new [div] with one Text node holding
    [text], or with no child when [text] is empty; [div.innerHTML] is the
    HTML serialisation of the children, which for a Text node is its data
    with the four replacements of "escaping a string" (HTML, 13.3), made one
    after the other. Quotes are replaced in attribute values only. *)

(** Every occurrence of the code unit [c] replaced by [by_]. *)
Fixpoint replace_all (c : N) (by_ : jsstring) (s : jsstring) : jsstring :=
  match s with
  | [] => []
  | x :: rest => (if (x =? c)%N then by_ else [x]) ++ replace_all c by_ rest
  end.

Definition escape_text (data : jsstring) : jsstring :=
  replace_all 62 (js "&gt;")
    (replace_all 60 (js "&lt;")
       (replace_all 0xA0 (js "&nbsp;")
          (replace_all 38 (js "&amp;") data))).

Definition escapeHtml (text : jsstring) : jsstring :=
  let div := match text with [] => [] | _ :: _ => [text] end in
  concat (List.map escape_text div).

(** What [escapeHtml] writes for one code unit. *)
Definition escape_unit (c : N) : jsstring :=
  (if c =? 38 then js "&amp;"
   else if c =? 0xA0 then js "&nbsp;"
   else if c =? 60 then js "&lt;"
   else if c =? 62 then js "&gt;"
   else [c])%N.

(** The code units that [escapeHtml] rewrites. *)
Definition html_special (c : N) : Prop :=
  c = 38%N ∨ c = 0xA0%N ∨ c = 60%N ∨ c = 62%N.

(** ** The page: rendering and event handling

    The document is the finite map from element ids to elements that
    [document.getElementById] consults; an element is a tag with its
    properties, attributes, [dataset] and child nodes. The elements the code
    creates are values placed in that map, under the lists they are appended
    to. Arrays returned by [filter] and [map] are temporaries and are kept as
    plain lists. What the environment supplies is an argument of the handler
    that uses it: the clock and the random suffix for a new id, the answer to
    [confirm], the target of an event. *)

(** A string that the embedding cannot spell out, because it comes from
    [Number::toString] or from the message of a built-in exception. *)
Inductive opaque : Type :=
  | NumberToStringOf (x : float)
  | MessageOf (e : exn).

(** The data of a Text node: known code units, or an opaque string between
    two known ones. *)
Inductive display : Type :=
  | Plain (s : jsstring)
  | Around (before : jsstring) (what : opaque) (behind : jsstring).

Inductive value : Type :=
  | VString (s : jsstring)
  | VBoolean (b : bool).

Inductive node : Type :=
  | TextNode (data : display)
  | Element (tagName : string)
            (properties : list (string * value))
            (attributes : list (string * jsstring))
            (dataset : list (string * jsstring))
            (childNodes : list node).

(** [object[key] = v] on a list of entries: the entry is replaced where it
    stands, or added at the end. *)
Fixpoint assign {V : Type} (key : string) (v : V) (entries : list (string * V))
    : list (string * V) :=
  match entries with
  | [] => [(key, v)]
  | (k, old) :: rest =>
      if String.eqb k key then (k, v) :: rest else (k, old) :: assign key v rest
  end.

Fixpoint entry {V : Type} (key : string) (entries : list (string * V)) : option V :=
  match entries with
  | [] => None
  | (k, v) :: rest => if String.eqb k key then Some v else entry key rest
  end.

Definition createElement (tag : string) : node := Element tag [] [] [] [].

Definition set_property (key : string) (v : value) (n : node) : node :=
  match n with
  | Element tag props attrs data children =>
      Element tag (assign key v props) attrs data children
  | TextNode _ => n
  end.

Definition setAttribute (key : string) (v : jsstring) (n : node) : node :=
  match n with
  | Element tag props attrs data children =>
      Element tag props (assign key v attrs) data children
  | TextNode _ => n
  end.

(** [element.dataset[key] = v]. *)
Definition set_dataset (key : string) (v : jsstring) (n : node) : node :=
  match n with
  | Element tag props attrs data children =>
      Element tag props attrs (assign key v data) children
  | TextNode _ => n
  end.

Definition set_children (children : list node) (n : node) : node :=
  match n with
  | Element tag props attrs data _ => Element tag props attrs data children
  | TextNode _ => n
  end.

(** [element.textContent = data]: one Text node, none for the empty string. *)
Definition set_textContent (data : display) (n : node) : node :=
  set_children (match data with Plain [] => [] | _ => [TextNode data] end) n.

Definition appendChild (child : node) (n : node) : node :=
  match n with
  | Element tag props attrs data children =>
      Element tag props attrs data (children ++ [child])
  | TextNode _ => n
  end.

Definition children_of (n : node) : list node :=
  match n with
  | Element _ _ _ _ children => children
  | TextNode _ => []
  end.

Definition property_of (key : string) (n : node) : option value :=
  match n with
  | Element _ props _ _ _ => entry key props
  | TextNode _ => None
  end.

(** [element.dataset[key]]: [None] is [undefined]. *)
Definition dataset_of (key : string) (n : node) : option jsstring :=
  match n with
  | Element _ _ _ data _ => entry key data
  | TextNode _ => None
  end.

(** [input.value]; an input that was never written holds the empty string. *)
Definition value_of (n : node) : jsstring :=
  match property_of "value" n with
  | Some (VString s) => s
  | _ => []
  end.

(** ASCII white space, which separates the tokens of [className]. *)
Definition is_ascii_space (c : N) : bool :=
  ((c =? 0x09) || (c =? 0x0A) || (c =? 0x0C) || (c =? 0x0D) || (c =? 0x20))%N.

(** The tokens of a class string; [current] holds the token being read,
    last code unit first. *)
Fixpoint tokens (s : jsstring) (current : jsstring) : list jsstring :=
  match s with
  | [] => match current with [] => [] | _ :: _ => [rev current] end
  | c :: rest =>
      if is_ascii_space c then
        match current with
        | [] => tokens rest []
        | _ :: _ => rev current :: tokens rest []
        end
      else tokens rest (c :: current)
  end.

(** [element.classList.contains(token)]. *)
Definition classList_contains (token : jsstring) (n : node) : bool :=
  match property_of "className" n with
  | Some (VString cls) => bool_decide (token ∈ tokens cls [])
  | _ => false
  end.

(** [renderTask(task)]: the list item of one task. Code unit 34 is the
    double quote of the two labels. *)
Definition renderTask (task : task) : node :=
  let li := createElement "li" in
  let li :=
    set_property "className"
      (VString (js "task-item " ++ (if done task then js "done" else []))) li in
  let li := setAttribute "role" (js "listitem") li in
  let li := set_dataset "taskId" (id task) li in
  let checkbox := createElement "input" in
  let checkbox := set_property "type" (VString (js "checkbox")) checkbox in
  let checkbox := set_property "className" (VString (js "task-checkbox")) checkbox in
  let checkbox := set_property "checked" (VBoolean (done task)) checkbox in
  let checkbox := set_dataset "action" (js "toggle") checkbox in
  let checkbox := set_dataset "id" (id task) checkbox in
  let checkbox :=
    setAttribute "aria-label"
      (js "Mark " ++ [34%N] ++ title task ++ [34%N] ++ js " as "
       ++ (if done task then js "not done" else js "done")) checkbox in
  let title_ := createElement "span" in
  let title_ := set_property "className" (VString (js "task-title")) title_ in
  let title_ := set_textContent (Plain (title task)) title_ in
  let deleteBtn := createElement "button" in
  let deleteBtn := set_property "type" (VString (js "button")) deleteBtn in
  let deleteBtn := set_property "className" (VString (js "btn-delete")) deleteBtn in
  let deleteBtn := set_textContent (Plain (js "Delete")) deleteBtn in
  let deleteBtn := set_dataset "action" (js "delete") deleteBtn in
  let deleteBtn := set_dataset "id" (id task) deleteBtn in
  let deleteBtn :=
    setAttribute "aria-label"
      (js "Delete task " ++ [34%N] ++ title task ++ [34%N]) deleteBtn in
  let li := appendChild checkbox li in
  let li := appendChild title_ li in
  let li := appendChild deleteBtn li in
  li.

(** The text of a count: [ToString] of a non-negative integer (below 10^21,
    as every count is). *)
Definition count_text (n : Z) : display := Plain (decimal n).

(** The template [`${stats.pct}%`]. *)
Definition percent_text (p : pct_value) : display :=
  match p with
  | PctNumber x =>
      match Prim2SF x with
      | S754_zero _ => Plain (js "0%")
      | _ => Around [] (NumberToStringOf x) (js "%")
      end
  | PctString (Digits s) => Plain (s ++ js "%")
  | PctString (NumberToString x) => Around [] (NumberToStringOf x) (js "%")
  end.

(** The warning sign U+26A0 with its variation selector, and a space. *)
Definition warning_sign : jsstring := [0x26A0; 0xFE0F; 0x20]%N.

(** The template [`⚠️ ${error.message}`]. *)
Definition error_text (e : exn) : display :=
  match e with
  | Error message => Plain (warning_sign ++ js message)
  | _ => Around warning_sign (MessageOf e) []
  end.

(** [Number::toString] of an integer of magnitude below 10^21, as a
    template literal applies it: the decimal digits, after a minus sign
    when the integer is negative. *)
Definition integer_text (n : Z) : jsstring :=
  if n <? 0 then 45%N :: decimal (- n) else decimal n.

(** The time values, which are what [Date.now()] returns: the integers of
    magnitude at most 8.64 * 10^15 (ECMA-262, 21.4.1.1). *)
Definition time_value (now : Z) : Prop :=
  - 8640000000000000 <= now <= 8640000000000000.

(** [store.toggle(undefined)], which the change listener calls for a check
    box without [data-id]. No id in the store, a string, is identical to
    [undefined]: the callback of [map] returns every task as it is, and the
    new array holds the same objects; then [persist()] and [list()] as in
    [toggle]. *)
Definition toggle_undefined (s : Store.closure) (w : world)
    : completion loc * Store.closure * world :=
  let callback (l : loc) (task : task) (h : list obj) := (l, h) in
  match read_array (heap w) (Store.tasks s) with
  | Some els =>
      match array_map callback els (heap w) with
      | Some (ls, h1) =>
          let '(a, h2) := alloc (ObjArray ls) h1 in
          let s' := Store.Closure (Store.storageKey s) a in
          let w1 := Store.persist s' (with_heap h2 w) in
          let '(r, w2) := Store.list s' w1 in
          (r, s', w2)
      | None => (Throw TypeError, s, w)
      end
  | None => (Throw TypeError, s, w)
  end.

Module App.

(** The application: its one store, the world, the document, the focused
    element, the flag of the event being handled, the listeners attached so
    far and the lines of [console.log]. *)
Record state : Type := State {
  store : Store.closure;
  env : world;
  document : gmap string node;
  activeElement : option string;
  defaultPrevented : bool;
  listeners : list (string * string);
  log : list string
}.

Definition with_env (w : world) (st : state) : state :=
  State (store st) w (document st) (activeElement st) (defaultPrevented st)
        (listeners st) (log st).

Definition with_store (s : Store.closure) (w : world) (st : state) : state :=
  State s w (document st) (activeElement st) (defaultPrevented st)
        (listeners st) (log st).

Definition with_document (d : gmap string node) (st : state) : state :=
  State (store st) (env st) d (activeElement st) (defaultPrevented st)
        (listeners st) (log st).

(** A computation on the application state that returns or throws. *)
Definition M (A : Type) : Type := state → completion A * state.

#[global] Instance M_ret : MRet M := λ A a st, (Normal a, st).

#[global] Instance M_bind : MBind M := λ A B f m st,
  match m st with
  | (Normal a, st') => f a st'
  | (Throw e, st') => (Throw e, st')
  end.

(** [try { body } catch (e) { handler }]. *)
Definition try_catch {A : Type} (body : M A) (handler : exn → M A) : M A := λ st,
  match body st with
  | (Normal a, st') => (Normal a, st')
  | (Throw e, st') => handler e st'
  end.

(** [document.getElementById(id)]: the id when there is such an element,
    [None] for [null]. *)
Definition getElementById (i : string) : M (option string) := λ st,
  (Normal (match document st !! i with Some _ => Some i | None => None end), st).

(** A write to an element obtained from [getElementById]; on [null] it is a
    [TypeError]. *)
Definition update (element : option string) (f : node → node) : M unit := λ st,
  match element with
  | Some i =>
      match document st !! i with
      | Some _ => (Normal (), with_document (alter f i (document st)) st)
      | None => (Throw TypeError, st)
      end
  | None => (Throw TypeError, st)
  end.

(** A read of an element obtained from [getElementById]. *)
Definition read {A : Type} (element : option string) (f : node → A) : M A := λ st,
  match element with
  | Some i =>
      match document st !! i with
      | Some n => (Normal (f n), st)
      | None => (Throw TypeError, st)
      end
  | None => (Throw TypeError, st)
  end.

(** [element.focus()]. *)
Definition focus (element : option string) : M unit := λ st,
  match element with
  | Some i =>
      (Normal (),
       State (store st) (env st) (document st) (Some i) (defaultPrevented st)
             (listeners st) (log st))
  | None => (Throw TypeError, st)
  end.

(** [element.addEventListener(type, listener)]. *)
Definition addEventListener (element : option string) (type : string) : M unit := λ st,
  match element with
  | Some i =>
      (Normal (),
       State (store st) (env st) (document st) (activeElement st) (defaultPrevented st)
             (listeners st ++ [(i, type)]) (log st))
  | None => (Throw TypeError, st)
  end.

(** [e.preventDefault()]. *)
Definition preventDefault : M unit := λ st,
  (Normal (),
   State (store st) (env st) (document st) (activeElement st) true
         (listeners st) (log st)).

Definition console_log (line : string) : M unit := λ st,
  (Normal (),
   State (store st) (env st) (document st) (activeElement st) (defaultPrevented st)
         (listeners st) (log st ++ [line])).

(** [store.list()]. *)
Definition store_list : M loc := λ st,
  let '(r, w') := Store.list (store st) (env st) in (r, with_env w' st).

(** [store.add(task)], [store.toggle(id)], [store.remove(id)]. *)
Definition store_call
    (method : Store.closure → world → completion loc * Store.closure * world)
    : M loc := λ st,
  let '(r, s', w') := method (store st) (env st) in (r, with_store s' w' st).

(** The tasks of an array the store returned. *)
Definition tasks_of (a : loc) : M (list task) := λ st,
  match read_tasks (heap (env st)) a with
  | Some ts => (Normal ts, st)
  | None => (Throw TypeError, st)
  end.

(** [items.forEach(item => action(item))]. *)
Fixpoint forEach {A : Type} (action : A → M unit) (items : list A) : M unit :=
  match items with
  | [] => mret ()
  | item :: rest => action item ≫= λ _, forEach action rest
  end.

(** [updateAnalytics()]. *)
Definition updateAnalytics : M unit :=
  tasks ← store_list;
  ts ← tasks_of tasks;
  let stats := summarize ts in
  activeCount ← getElementById "active-count";
  update activeCount (set_textContent (count_text (Stats.active stats)));;
  doneCount ← getElementById "done-count";
  update doneCount (set_textContent (count_text (Stats.done stats)));;
  donePercent ← getElementById "done-percent";
  update donePercent (set_textContent (percent_text (Stats.pct stats))).

(** [renderTasks()]. *)
Definition renderTasks : M unit :=
  tasks ← store_list;
  ts ← tasks_of tasks;
  let activeTasks := filter (λ task, done task = false) ts in
  let doneTasks := filter (λ task, done task = true) ts in
  activeList ← getElementById "active-list";
  activeEmpty ← getElementById "active-empty";
  update activeList (set_children []);;
  (if (length activeTasks =? 0)%nat
   then update activeEmpty (set_property "hidden" (VBoolean false))
   else
     update activeEmpty (set_property "hidden" (VBoolean true));;
     forEach (λ li, update activeList (appendChild li)) (renderTask <$> activeTasks));;
  doneList ← getElementById "done-list";
  doneEmpty ← getElementById "done-empty";
  update doneList (set_children []);;
  (if (length doneTasks =? 0)%nat
   then update doneEmpty (set_property "hidden" (VBoolean false))
   else
     update doneEmpty (set_property "hidden" (VBoolean true));;
     forEach (λ li, update doneList (appendChild li)) (renderTask <$> doneTasks));;
  updateAnalytics.

(** [handleAddTask(e)]. [now] is what [Date.now()] returns, a time value,
    and [suffix] what [Math.random().toString(36).substr(2, 9)] returns. *)
Definition handleAddTask (now : Z) (suffix : jsstring) : M unit :=
  preventDefault;;
  input ← getElementById "task-input";
  errorMsg ← getElementById "task-error";
  title ← read input (λ n, trim (value_of n));
  update errorMsg (set_textContent (Plain []));;
  match title with
  | [] =>
      update errorMsg
        (set_textContent (Plain (warning_sign ++ js "Task title cannot be empty")));;
      focus input
  | _ :: _ =>
      try_catch
        (let id := js "task_" ++ integer_text now ++ js "_" ++ suffix in
         store_call (Store.add (Candidate id (Some title) (Some false)));;
         update input (set_property "value" (VString []));;
         renderTasks;;
         focus input)
        (λ error, update errorMsg (set_textContent (error_text error)))
  end.

(** A string that [!] takes for false: [undefined] or empty. *)
Definition falsy (s : option jsstring) : bool :=
  match s with
  | None | Some [] => true
  | Some (_ :: _) => false
  end.

(** The click listener of [main-content]. [confirmed] is the answer that
    [confirm] gives if it is asked. *)
Definition on_click (target : node) (confirmed : bool) : M unit :=
  let action := dataset_of "action" target in
  let taskId := dataset_of "id" target in
  if falsy action || falsy taskId then mret ()
  else
    if decide (action = Some (js "toggle")) then
      store_call (Store.toggle (default [] taskId));;
      renderTasks
    else if decide (action = Some (js "delete")) then
      if confirmed then
        store_call (Store.remove (default [] taskId));;
        renderTasks
      else mret ()
    else mret ().

(** The change listener of [main-content]. A check box without [data-id]
    has [store.toggle(undefined)] called. *)
Definition on_change (target : node) : M unit :=
  if classList_contains (js "task-checkbox") target then
    let taskId := dataset_of "id" target in
    store_call (match taskId with
                | Some i => Store.toggle i
                | None => toggle_undefined
                end);;
    renderTasks
  else mret ().

(** [setupEventDelegation()]: the three listeners are attached. *)
Definition setupEventDelegation : M unit :=
  form ← getElementById "add-task-form";
  addEventListener form "submit";;
  mainContent ← getElementById "main-content";
  addEventListener mainContent "click";;
  addEventListener mainContent "change".

(** [init()], run once the document is ready. *)
Definition init : M unit :=
  store_list;;
  setupEventDelegation;;
  renderTasks;;
  console_log "FocusTasks 9889 initialized".

End App.

(** ** What a page shows *)

(** The document has an element under the id. *)
Definition has_element (d : gmap string node) (i : string) : Prop :=
  ∃ tag props attrs data children,
    d !! i = Some (Element tag props attrs data children).

(** The ids [renderTasks] and [updateAnalytics] look up. *)
Definition render_regions : list string :=
  ["active-list"; "active-empty"; "done-list"; "done-empty";
   "active-count"; "done-count"; "done-percent"]%string.

Definition has_regions (d : gmap string node) : Prop :=
  Forall (has_element d) render_regions.

(** The child nodes of the element under an id. *)
Definition region (d : gmap string node) (i : string) : option (list node) :=
  children_of <$> d !! i.

(** The [hidden] property of the element under an id. *)
Definition hidden (d : gmap string node) (i : string) : option value :=
  d !! i ≫= property_of "hidden".

(** The page shows the list [ts]: the two lists hold the items of the active
    and of the done tasks, in the order of [ts]; each empty-state indicator
    is hidden exactly when its list has an item; the three counters hold the
    texts of the summary of [ts]. *)
Definition shows (d : gmap string node) (ts : list task) : Prop :=
  region d "active-list" = Some (renderTask <$> filter (λ t, done t = false) ts)
  ∧ region d "done-list" = Some (renderTask <$> filter (λ t, done t = true) ts)
  ∧ hidden d "active-empty"
    = Some (VBoolean (bool_decide (filter (λ t, done t = false) ts ≠ [])))
  ∧ hidden d "done-empty"
    = Some (VBoolean (bool_decide (filter (λ t, done t = true) ts ≠ [])))
  ∧ region d "active-count"
    = Some [TextNode (count_text (Stats.active (summarize ts)))]
  ∧ region d "done-count"
    = Some [TextNode (count_text (Stats.done (summarize ts)))]
  ∧ region d "done-percent"
    = Some [TextNode (percent_text (Stats.pct (summarize ts)))].

(** A function on nodes that keeps an element an element with its tag. *)
Definition keeps_element (f : node → node) : Prop :=
  ∀ tag props attrs data children, ∃ props' attrs' data' children',
    f (Element tag props attrs data children)
    = Element tag props' attrs' data' children'.

(** A document with the eleven elements the application looks up, all
    empty, and the application started in it with an empty backend. *)
Definition blank_document : gmap string node :=
  list_to_map
    ((λ i, (i, createElement "div")) <$>
     (render_regions
      ++ ["task-input"; "task-error"; "add-task-form"; "main-content"]%string)).

Definition blank_app : App.state :=
  App.State (fst app_store) (snd app_store) blank_document None false [] [].

(** The elements a handler needs besides the regions that are rendered. *)
Definition page_ready (d : gmap string node) : Prop :=
  has_regions d ∧ has_element d "task-input" ∧ has_element d "task-error".

(** The id [handleAddTask] makes up: [`task_${Date.now()}_${suffix}`]. *)
Definition task_id (now : Z) (suffix : jsstring) : jsstring :=
  js "task_" ++ integer_text now ++ js "_" ++ suffix.

(** The page and the store agree: the store is well formed and the page
    shows its list. *)
Definition in_sync (st : App.state) : Prop :=
  page_ready (App.document st)
  ∧ ∃ ts, contents (App.store st) (App.env st) = Some ts
          ∧ shows (App.document st) ts.

(** What [handleAddTask] reads from the title input: its value, trimmed. *)
Definition entered (d : gmap string node) : option jsstring :=
  match d !! "task-input" with
  | Some (Element _ _ _ _ _ as input) => Some (trim (value_of input))
  | _ => None
  end.

(** The user's typing: the value of the title input becomes [text]. *)
Definition typed (text : jsstring) (st : App.state) : App.state :=
  App.with_document
    (alter (set_property "value" (VString text)) "task-input" (App.document st)) st.

(** The application with the store in a state of its own. *)
Definition app_with (st : state) : App.state :=
  App.State (fst st) (snd st) blank_document None false [] [].

(** The application as the script leaves it before [init] runs: the store
    just created with the key [focustasks_9889] in the world [w], the
    document [d], no listener yet. *)
Definition started (w : world) (d : gmap string node) : App.state :=
  App.State (fst (Store.createStore (js "focustasks_9889") w))
            (snd (Store.createStore (js "focustasks_9889") w)) d None false [] [].

(** ** The public interface, as calls

    What a program can do with a store once it is created: the three
    mutators and [list()], in any order. *)
Inductive call : Type :=
  | Mutate (m : mutation)
  | ListTasks.

Definition perform (c : call) (st : state) : state :=
  match c with
  | Mutate m => after (run m) st
  | ListTasks => (fst st, snd (Store.list (fst st) (snd st)))
  end.

Definition perform_all (calls : list call) (st : state) : state :=
  foldl (λ st c, perform c st) st calls.

(** The label under which [persist] logs, the only one a store created by
    [createStore] ever uses. *)
Definition save_failure (entry : string * exn) : Prop :=
  entry.1 = "Failed to save to localStorage:"%string.

(** Two tasks with different ids, added by the application's store. *)
Definition pair_store : state :=
  after (Store.add (Candidate (js "b") (Some (js "second")) None))
    (after (Store.add (Candidate (js "a") (Some (js "first")) None)) app_store).

(** The application in use: started on the blank document, one task
    submitted, and the next title typed into the input. *)
Definition busy_app : App.state :=
  typed (js "Call Sam")
    (snd (App.handleAddTask 1700000000000 (js "k3x9q2m1a")
            (typed (js "  Buy milk ") (snd (App.init blank_app))))).

(** * Properties *)

(** ** [trim] *)

Lemma trimStart_split (s : jsstring) :
  ∃ pre, s = pre ++ trimStart s
         ∧ Forall (λ c, is_white_space c = true) pre
         ∧ starts_clean (trimStart s).
Proof.
  induction s as [|c s (pre & Hs & Hpre & Hclean)]; simpl.
  - exists []. repeat split; constructor.
  - destruct (is_white_space c) eqn:Hc.
    + exists (c :: pre). simpl. rewrite <- Hs. repeat split; auto.
    + exists []. simpl. repeat split; auto.
Qed.

Lemma trimStart_clean_id (s : jsstring) : starts_clean s → trimStart s = s.
Proof. destruct s as [|c s]; simpl; [easy|]. intros ->. reflexivity. Qed.

(** Dropping white space at the end keeps a clean start. *)
Lemma trimStart_app_clean (s t : jsstring) :
  s ≠ [] → starts_clean s → trimStart (s ++ t) = s ++ t.
Proof. destruct s as [|c s]; simpl; [easy|]. intros _ ->. reflexivity. Qed.

Lemma trimEnd_split (s : jsstring) :
  ∃ post, s = trimEnd s ++ post
          ∧ Forall (λ c, is_white_space c = true) post
          ∧ starts_clean (rev (trimEnd s)).
Proof.
  unfold trimEnd. destruct (trimStart_split (rev s)) as (pre & Hs & Hpre & Hclean).
  exists (rev pre). rewrite rev_involutive. repeat split; auto.
  - rewrite <- rev_app_distr, <- Hs, rev_involutive. reflexivity.
  - apply Forall_rev. exact Hpre.
Qed.

Lemma starts_clean_trimEnd (s : jsstring) :
  starts_clean s → starts_clean (trimEnd s).
Proof.
  intros Hs. destruct (trimEnd_split s) as (post & Heq & Hpost & _).
  destruct (trimEnd s) as [|c r] eqn:E; simpl; [easy|].
  rewrite Heq in Hs. exact Hs.
Qed.

(** What [trim] returns: the input without a run of white space at either
    end, and with no white space left at either end. *)
Lemma trim_split (s : jsstring) :
  ∃ pre post, s = pre ++ trim s ++ post
    ∧ Forall (λ c, is_white_space c = true) pre
    ∧ Forall (λ c, is_white_space c = true) post
    ∧ starts_clean (trim s)
    ∧ starts_clean (rev (trim s)).
Proof.
  unfold trim.
  destruct (trimStart_split s) as (pre & Hs & Hpre & Hclean).
  destruct (trimEnd_split (trimStart s)) as (post & Ht & Hpost & Hclean').
  exists pre, post. repeat split; auto.
  - rewrite <- Ht. exact Hs.
  - apply starts_clean_trimEnd. exact Hclean.
Qed.

Lemma trim_all_white_space (s : jsstring) :
  trim s = [] ↔ Forall (λ c, is_white_space c = true) s.
Proof.
  split.
  - intros H. destruct (trim_split s) as (pre & post & Hs & Hpre & Hpost & _).
    rewrite H in Hs. simpl in Hs. rewrite Hs. apply Forall_app; auto.
  - intros H. unfold trim.
    assert (Hst : trimStart s = []).
    { induction H as [|c s Hc _ IH]; simpl; [reflexivity|]. rewrite Hc. exact IH. }
    rewrite Hst. reflexivity.
Qed.

Lemma rejected_valid_title (t : option jsstring) :
  Store.rejected t = false ↔ valid_title t.
Proof.
  unfold valid_title. destruct t as [[|c str]|]; simpl.
  - split; [discriminate|]. intros (s & [= <-] & Hs). exfalso. apply Hs. reflexivity.
  - rewrite Nat.eqb_neq. split.
    + intros H. exists (c :: str). split; [reflexivity|]. intros E. apply H. rewrite E. reflexivity.
    + intros (s & [= <-] & Hs) E. apply Hs. apply length_zero_iff_nil in E. exact E.
  - split; [discriminate|]. intros (s & [=] & _).
Qed.


(** ** The heap only grows *)

(** Goals of the form [h `prefix_of` (h ++ k1) ++ k2], whatever the nesting
    of the appends. *)
Ltac heap_grows :=
  simpl; rewrite <- ?app_assoc; apply prefix_app_r; reflexivity.

Create HintDb heap.

Lemma read_task_prefix (h h' : list obj) (l : loc) (t : task) :
  h `prefix_of` h' → read_task h l = Some t → read_task h' l = Some t.
Proof.
  intros [k ->]. unfold read_task.
  destruct (h !! l) as [o|] eqn:E; [|discriminate].
  rewrite (lookup_app_l_Some _ _ _ _ E). auto.
Qed.

Lemma read_array_prefix (h h' : list obj) (a : loc) (els : list loc) :
  h `prefix_of` h' → read_array h a = Some els → read_array h' a = Some els.
Proof.
  intros [k ->]. unfold read_array.
  destruct (h !! a) as [o|] eqn:E; [|discriminate].
  rewrite (lookup_app_l_Some _ _ _ _ E). auto.
Qed.

Lemma read_all_prefix (h h' : list obj) (els : list loc) (ts : list task) :
  h `prefix_of` h' →
  mapM (read_task h) els = Some ts → mapM (read_task h') els = Some ts.
Proof.
  intros Hp. rewrite !mapM_Some. intros H.
  induction H; constructor; eauto using read_task_prefix.
Qed.

Lemma read_tasks_prefix (h h' : list obj) (a : loc) (ts : list task) :
  h `prefix_of` h' → read_tasks h a = Some ts → read_tasks h' a = Some ts.
Proof.
  intros Hp. unfold read_tasks.
  destruct (read_array h a) as [els|] eqn:E; [|discriminate].
  rewrite (read_array_prefix _ _ _ _ Hp E). apply read_all_prefix, Hp.
Qed.

#[export] Hint Resolve read_task_prefix read_array_prefix read_all_prefix
  read_tasks_prefix : heap.

Lemma read_task_alloc (h : list obj) (t : task) :
  read_task (h ++ [ObjTask t]) (length h) = Some t.
Proof. unfold read_task. rewrite list_lookup_middle; reflexivity. Qed.

Lemma read_array_alloc (h : list obj) (els : list loc) :
  read_array (h ++ [ObjArray els]) (length h) = Some els.
Proof. unfold read_array. rewrite list_lookup_middle; reflexivity. Qed.

Lemma read_tasks_alloc (h : list obj) (els : list loc) (ts : list task) :
  mapM (read_task h) els = Some ts →
  read_tasks (h ++ [ObjArray els]) (length h) = Some ts.
Proof.
  intros H. unfold read_tasks. rewrite read_array_alloc.
  apply (read_all_prefix h); [heap_grows | exact H].
Qed.

(** A location that can be read lies inside the heap. *)
Lemma read_task_lt (h : list obj) (l : loc) (t : task) :
  read_task h l = Some t → (l < length h)%nat.
Proof.
  unfold read_task. destruct (h !! l) eqn:E; [|discriminate].
  intros _. eapply lookup_lt_Some, E.
Qed.

Lemma read_array_lt (h : list obj) (a : loc) (els : list loc) :
  read_array h a = Some els → (a < length h)%nat.
Proof.
  unfold read_array. destruct (h !! a) eqn:E; [|discriminate].
  intros _. eapply lookup_lt_Some, E.
Qed.

(** Reads see only the part of the heap they reach: two heaps that agree
    below a bound give the same reads there. *)
Lemma read_task_agree (h h' : list obj) (n : nat) (l : loc) :
  (∀ k, (k < n)%nat → h' !! k = h !! k) → (l < n)%nat →
  read_task h' l = read_task h l.
Proof. intros H Hl. unfold read_task. rewrite (H l Hl). reflexivity. Qed.

Lemma read_tasks_agree (h h' : list obj) (n : nat) (a : loc) (ts : list task) :
  (∀ k, (k < n)%nat → h' !! k = h !! k) → (n ≤ length h)%nat → (a < n)%nat →
  (∀ els l, read_array h a = Some els → l ∈ els → (l < n)%nat) →
  read_tasks h a = Some ts → read_tasks h' a = Some ts.
Proof.
  intros H Hn Ha Hels. unfold read_tasks, read_array. rewrite (H a Ha).
  fold (read_array h a). destruct (read_array h a) as [els|] eqn:E; [|discriminate].
  specialize (Hels els). rewrite !mapM_Some. intros HF.
  assert (Hin : ∀ l, l ∈ els → (l < n)%nat) by eauto.
  clear Hels E. induction HF as [|l t els ts Hl HF IH]; constructor.
  - rewrite (read_task_agree h h' n); auto. apply Hin. left.
  - apply IH. intros l' Hl'. apply Hin. right. exact Hl'.
Qed.

(** ** [array.map] and [array.filter] on a well-formed array *)

Lemma array_map_spec f g (els : list loc) :
  maps_to f g →
  ∀ (h : list obj) (ts : list task),
    mapM (read_task h) els = Some ts →
    ∃ ls h', array_map f els h = Some (ls, h')
             ∧ h `prefix_of` h'
             ∧ mapM (read_task h') ls = Some (g <$> ts).
Proof.
  intros Hf. induction els as [|l els IH]; intros h ts H.
  - apply mapM_Some in H. inversion H; subst. exists [], h. simpl. auto.
  - apply mapM_Some in H. inversion H as [|? t ? ts' Hl Hrest]; subst.
    simpl. rewrite Hl. destruct (Hf l t h Hl) as [Hp Hr].
    destruct (f l t h) as [l' h1] eqn:Ef. simpl in Hp, Hr.
    apply mapM_Some in Hrest.
    destruct (IH h1 ts' (read_all_prefix _ _ _ _ Hp Hrest)) as (ls & h2 & -> & Hp2 & Hls).
    exists (l' :: ls), h2. split; [reflexivity|]. split; [etrans; eassumption|].
    rewrite mapM_Some in *. simpl. constructor; [|exact Hls].
    eauto with heap.
Qed.

(** The callback of [list()]: every element is copied to the end of the
    heap, so the result is a run of new, consecutive locations. *)
Lemma array_map_copy (els : list loc) :
  ∀ (h : list obj) (ts : list task),
    mapM (read_task h) els = Some ts →
    array_map (λ _ task h, alloc (ObjTask task) h) els h
    = Some (seq (length h) (length ts), h ++ (ObjTask <$> ts)).
Proof.
  induction els as [|l els IH]; intros h ts H.
  - apply mapM_Some in H. inversion H; subst. simpl. rewrite app_nil_r. reflexivity.
  - apply mapM_Some in H. inversion H as [|? t ? ts' Hl Hrest]; subst.
    cbn [array_map]. rewrite Hl. cbn [alloc].
    rewrite (IH (h ++ [ObjTask t]) ts').
    + rewrite length_app, Nat.add_1_r, <- app_assoc. reflexivity.
    + eapply read_all_prefix; [heap_grows|].
      apply mapM_Some. exact Hrest.
Qed.

Lemma read_all_copies (h : list obj) (ts : list task) :
  mapM (read_task (h ++ (ObjTask <$> ts))) (seq (length h) (length ts)) = Some ts.
Proof.
  revert h. induction ts as [|t ts IH]; intros h; [reflexivity|].
  apply mapM_Some. simpl. constructor.
  - unfold read_task. rewrite list_lookup_middle; reflexivity.
  - apply mapM_Some. specialize (IH (h ++ [ObjTask t])).
    rewrite length_app, Nat.add_1_r, <- app_assoc in IH. exact IH.
Qed.

Lemma array_filter_spec (p : task → bool) (P : task → Prop) `{∀ t, Decision (P t)}
    (els : list loc) (h : list obj) (ts : list task) :
  (∀ t, p t = true ↔ P t) →
  mapM (read_task h) els = Some ts →
  ∃ ls, array_filter p els h = Some ls
        ∧ mapM (read_task h) ls = Some (filter P ts).
Proof.
  intros Hp. revert ts. induction els as [|l els IH]; intros ts H'.
  - apply mapM_Some in H'. inversion H'; subst. exists []. auto.
  - apply mapM_Some in H'. inversion H' as [|? t ? ts' Hl Hrest]; subst.
    apply mapM_Some in Hrest. destruct (IH ts' Hrest) as (ls & E & Hls).
    simpl. rewrite Hl, E. eexists. split; [reflexivity|].
    rewrite filter_cons. destruct (p t) eqn:Ept.
    + rewrite decide_True by (apply Hp; exact Ept).
      apply mapM_Some. constructor; [exact Hl|]. apply mapM_Some. exact Hls.
    + rewrite decide_False; [exact Hls|].
      intros HP. apply Hp in HP. congruence.
Qed.


(** ** What each method does to a well-formed store *)

Lemma contents_prefix (s : Store.closure) (w : world) (h' : list obj) (ts : list task) :
  heap w `prefix_of` h' → contents s w = Some ts → contents s (with_heap h' w) = Some ts.
Proof. intros Hp. unfold contents. simpl. apply read_tasks_prefix, Hp. Qed.

Lemma persist_spec (s : Store.closure) (w : world) (ts : list task) :
  contents s w = Some ts →
  Store.persist s w = persisted (Store.storageKey s) ts w.
Proof.
  unfold contents, Store.persist, JSON_stringify, persisted. intros ->. reflexivity.
Qed.

Lemma persisted_heap (key : jsstring) (ts : list task) (w : world) :
  heap (persisted key ts w) = heap w.
Proof. unfold persisted. destruct (setItem _ _ _); reflexivity. Qed.

Lemma persisted_with_heap (key : jsstring) (ts : list task) (h : list obj) (w : world) :
  localStorage (persisted key ts (with_heap h w)) = localStorage (persisted key ts w)
  ∧ console (persisted key ts (with_heap h w)) = console (persisted key ts w).
Proof. unfold persisted. simpl. destruct (setItem _ _ _); split; reflexivity. Qed.

(** [list()] in full: it copies every task to the end of the heap and then
    allocates the array of the copies. *)
Lemma list_spec (s : Store.closure) (w : world) (ts : list task) :
  contents s w = Some ts →
  Store.list s w
  = (Normal (length (heap w) + length ts)%nat,
     with_heap ((heap w ++ (ObjTask <$> ts))
                ++ [ObjArray (seq (length (heap w)) (length ts))]) w).
Proof.
  unfold contents, read_tasks, Store.list.
  destruct (read_array (heap w) (Store.tasks s)) as [els|]; [|discriminate].
  intros H. rewrite (array_map_copy els _ ts H). cbn [alloc].
  rewrite length_app, length_fmap. reflexivity.
Qed.

Lemma read_tasks_copies (h : list obj) (ts : list task) :
  read_tasks ((h ++ (ObjTask <$> ts)) ++ [ObjArray (seq (length h) (length ts))])
             (length h + length ts) = Some ts.
Proof.
  replace (length h + length ts)%nat with (length (h ++ (ObjTask <$> ts)))
    by (rewrite length_app, length_fmap; reflexivity).
  apply read_tasks_alloc, read_all_copies.
Qed.

(** The common tail of the three mutators: [persist(); return this.list()]. *)
Lemma persist_then_list (s : Store.closure) (w : world) (ts : list task) :
  contents s w = Some ts →
  ∃ a w',
    Store.list s (Store.persist s w) = (Normal a, w')
    ∧ contents s w' = Some ts
    ∧ read_tasks (heap w') a = Some ts
    ∧ heap w `prefix_of` heap w'
    ∧ localStorage w' = localStorage (persisted (Store.storageKey s) ts w)
    ∧ console w' = console (persisted (Store.storageKey s) ts w).
Proof.
  intros H. rewrite (persist_spec s w ts H).
  assert (H' : contents s (persisted (Store.storageKey s) ts w) = Some ts).
  { unfold contents. rewrite persisted_heap. exact H. }
  rewrite (list_spec _ _ ts H'). rewrite persisted_heap.
  eexists _, _. split; [reflexivity|]. simpl.
  repeat split.
  - unfold contents. simpl. eapply read_tasks_prefix; [|exact H].
    heap_grows.
  - apply read_tasks_copies.
  - heap_grows.
Qed.

Lemma add_rejected (c : candidate) (s : Store.closure) (w : world) :
  Store.rejected (arg_title c) = true →
  Store.add c s w = (Throw (Error "Task title cannot be empty"), s, w).
Proof. intros H. unfold Store.add. rewrite H. reflexivity. Qed.

(** The common tail, seen from the call: the array [a] just allocated in
    heap [h1] becomes the store's [tasks], then [persist(); return
    this.list()]. *)
Lemma reassign_persist_list (s : Store.closure) (w : world) (h1 : list obj)
    (els : list loc) (ts' : list task) :
  heap w `prefix_of` h1 →
  mapM (read_task h1) els = Some ts' →
  let s' := Store.Closure (Store.storageKey s) (length h1) in
  mutates_to s w ts'
    (let w1 := Store.persist s' (with_heap (h1 ++ [ObjArray els]) w) in
     let '(r, w2) := Store.list s' w1 in (r, s', w2)).
Proof.
  intros Hp Hels s'. cbv zeta.
  set (w1 := with_heap (h1 ++ [ObjArray els]) w).
  assert (H1 : contents s' w1 = Some ts').
  { unfold contents, s', w1. simpl. apply read_tasks_alloc, Hels. }
  destruct (persist_then_list s' w1 _ H1) as (a & w' & -> & Hc & Hr & Hp' & Hst & Hco).
  destruct (persisted_with_heap (Store.storageKey s) ts' (h1 ++ [ObjArray els]) w)
    as [Es Ec].
  exists a, s', w'. split; [reflexivity|]. split; [exact Hc|]. split; [exact Hr|].
  split; [reflexivity|]. split; [|split].
  - etrans; [exact Hp|]. etrans; [|exact Hp']. unfold w1. heap_grows.
  - rewrite Hst. exact Es.
  - rewrite Hco. exact Ec.
Qed.

Section Mutators.

(** A store [s] that holds the list [ts] in world [w]. *)
Context (s : Store.closure) (w : world) (ts : list task).
Hypothesis Hwf : contents s w = Some ts.

Lemma add_spec (c : candidate) :
  Store.rejected (arg_title c) = false →
  mutates_to s w (ts ++ [newTask c]) (Store.add c s w).
Proof.
  intros Hok. unfold Store.add. rewrite Hok. fold (newTask c). cbn [alloc].
  pose proof Hwf as H. unfold contents, read_tasks in H.
  destruct (read_array (heap w) (Store.tasks s)) as [els|] eqn:E; [|discriminate].
  rewrite (read_array_prefix (heap w) _ _ els); [|heap_grows|exact E].
  apply (reassign_persist_list s w (heap w ++ [ObjTask (newTask c)])
           (els ++ [length (heap w)]) (ts ++ [newTask c])); [heap_grows|].
  apply mapM_Some, Forall2_app.
  - apply mapM_Some. eapply read_all_prefix; [heap_grows | exact H].
  - repeat constructor. apply read_task_alloc.
Qed.

Lemma toggle_callback (i : jsstring) :
  maps_to
    (λ l task h,
       if decide (id task = i)
       then alloc (ObjTask (Task (id task) (title task) (negb (done task)))) h
       else (l, h))
    (λ t, if decide (id t = i) then flipped t else t).
Proof.
  intros l t h Hl. destruct (decide (id t = i)); simpl.
  - split; [heap_grows | apply read_task_alloc].
  - split; [reflexivity | exact Hl].
Qed.

Lemma toggle_spec (i : jsstring) :
  mutates_to s w ((λ t, if decide (id t = i) then flipped t else t) <$> ts)
    (Store.toggle i s w).
Proof.
  unfold Store.toggle.
  pose proof Hwf as H. unfold contents, read_tasks in H.
  destruct (read_array (heap w) (Store.tasks s)) as [els|] eqn:E; [|discriminate].
  destruct (array_map_spec _ _ els (toggle_callback i) _ _ H)
    as (ls & h1 & -> & Hp1 & Hls).
  cbn [alloc]. apply (reassign_persist_list s w h1 ls); assumption.
Qed.

Lemma remove_predicate (i : jsstring) (t : task) :
  negb (bool_decide (id t = i)) = true ↔ id t ≠ i.
Proof. rewrite negb_true_iff, bool_decide_eq_false. reflexivity. Qed.

Lemma remove_spec (i : jsstring) :
  mutates_to s w (filter (λ t, id t ≠ i) ts) (Store.remove i s w).
Proof.
  unfold Store.remove.
  pose proof Hwf as H. unfold contents, read_tasks in H.
  destruct (read_array (heap w) (Store.tasks s)) as [els|] eqn:E; [|discriminate].
  destruct (array_filter_spec (λ t, negb (bool_decide (id t = i))) (λ t, id t ≠ i)
              els _ _ (remove_predicate i) H) as (ls & -> & Hls).
  cbn [alloc]. apply (reassign_persist_list s w (heap w) ls); [reflexivity|exact Hls].
Qed.

End Mutators.

Lemma createStore_spec (key : jsstring) (w : world) :
  Store.createStore key w
  = (Store.Closure key (length (heap w)), with_heap (heap w ++ [ObjArray []]) w).
Proof. reflexivity. Qed.

Lemma createStore_contents (key : jsstring) (w : world) :
  contents (fst (Store.createStore key w)) (snd (Store.createStore key w)) = Some [].
Proof. rewrite createStore_spec. unfold contents. simpl. apply read_tasks_alloc. reflexivity. Qed.


(** ** Lists of tasks *)

Lemma flipped_involutive (t : task) : flipped (flipped t) = t.
Proof. destruct t as [i ti d]. unfold flipped. simpl. rewrite negb_involutive. reflexivity. Qed.

Lemma toggle_twice (i : jsstring) (ts : list task) :
  (λ t, if decide (id t = i) then flipped t else t)
    <$> ((λ t, if decide (id t = i) then flipped t else t) <$> ts) = ts.
Proof.
  induction ts as [|t ts IH]; [reflexivity|]. rewrite !fmap_cons, IH. f_equal.
  destruct (decide (id t = i)) as [E|E].
  - rewrite decide_True by exact E. apply flipped_involutive.
  - rewrite decide_False by exact E. reflexivity.
Qed.

Lemma toggle_absent (i : jsstring) (ts : list task) :
  i ∉ id <$> ts →
  (λ t, if decide (id t = i) then flipped t else t) <$> ts = ts.
Proof.
  induction ts as [|t ts IH]; [reflexivity|]. rewrite !fmap_cons. intros H.
  apply not_elem_of_cons in H as [H1 H2]. rewrite (IH H2).
  rewrite decide_False by congruence. reflexivity.
Qed.

Lemma toggle_ids (i : jsstring) (ts : list task) :
  id <$> ((λ t, if decide (id t = i) then flipped t else t) <$> ts) = id <$> ts.
Proof.
  rewrite <- list_fmap_compose. apply list_fmap_ext. intros k t _. simpl.
  destruct (decide (id t = i)); reflexivity.
Qed.

Lemma remove_absent (i : jsstring) (ts : list task) :
  i ∉ id <$> ts → filter (λ t, id t ≠ i) ts = ts.
Proof.
  induction ts as [|t ts IH]; [reflexivity|]. rewrite fmap_cons. intros H.
  apply not_elem_of_cons in H as [H1 H2].
  rewrite filter_cons_True by congruence. rewrite (IH H2). reflexivity.
Qed.

Lemma remove_gone (i : jsstring) (ts : list task) :
  i ∉ id <$> filter (λ t, id t ≠ i) ts.
Proof.
  intros H. apply list_elem_of_fmap in H as (t & -> & Ht).
  apply list_elem_of_filter in Ht as [Hne _]. apply Hne. reflexivity.
Qed.

(** The tasks [remove] drops are the ones with the id, all of them. *)
Lemma remove_length (i : jsstring) (ts : list task) :
  (length (filter (λ t, id t ≠ i) ts) + length (filter (λ t, id t = i) ts)
   = length ts)%nat.
Proof.
  induction ts as [|t ts IH]; [reflexivity|]. rewrite !filter_cons.
  destruct (decide (id t = i)) as [E|E].
  - rewrite decide_False by (intros H; apply H, E). simpl. lia.
  - rewrite decide_True by exact E. simpl. lia.
Qed.

Lemma unique_id_once (i : jsstring) (ts : list task) :
  unique_ids ts → i ∈ id <$> ts → length (filter (λ t, id t = i) ts) = 1%nat.
Proof.
  unfold unique_ids. induction ts as [|t ts IH]; rewrite ?fmap_cons.
  - intros _ H. inversion H.
  - intros Hnd Hin. apply NoDup_cons in Hnd as [Hnot Hnd].
    rewrite filter_cons. destruct (decide (id t = i)) as [E|E].
    + subst i. simpl. f_equal.
      assert (Hno : filter (λ t0, id t0 = id t) ts = []); [|rewrite Hno; reflexivity].
      destruct (filter (λ t0, id t0 = id t) ts) as [|x l] eqn:Ef; [reflexivity|].
      exfalso. apply Hnot.
      assert (Hx : x ∈ filter (λ t0, id t0 = id t) ts) by (rewrite Ef; left).
      apply list_elem_of_filter in Hx as [Hid Hx]. rewrite <- Hid.
      apply list_elem_of_fmap. eauto.
    + apply IH; [exact Hnd|]. apply elem_of_cons in Hin as [Hin|Hin]; congruence.
Qed.

Lemma remove_unique (i : jsstring) (ts : list task) :
  unique_ids ts → unique_ids (filter (λ t, id t ≠ i) ts).
Proof.
  unfold unique_ids. intros H. apply (sublist_NoDup _ (id <$> ts)); [exact H|].
  apply fmap_sublist, sublist_filter.
Qed.

Lemma add_unique (t : task) (ts : list task) :
  unique_ids ts → (unique_ids (ts ++ [t]) ↔ id t ∉ id <$> ts).
Proof.
  unfold unique_ids. intros H. rewrite fmap_app, NoDup_app. simpl. split.
  - intros (_ & Hd & _) Hin. apply (Hd _ Hin). left.
  - intros Hn. split; [exact H|]. split.
    + intros x Hx Hx'. apply list_elem_of_singleton in Hx'. subst x. exact (Hn Hx).
    + apply NoDup_singleton.
Qed.


(** ** [add] *)

(** C3, as stated, fails: a candidate that carries [done: true] is stored
    with [done = true], not [false]. *)
Lemma add_done_true_counterexample :
  let c := Candidate (js "t1") (Some (js "Buy milk")) (Some true) in
  valid_title (arg_title c)
  ∧ observe app_store = Some []
  ∧ observe (after (Store.add c) app_store)
    = Some ([] ++ [Task (js "t1") (js "Buy milk") true])
  ∧ ¬ (∀ t, observe (after (Store.add c) app_store) = Some ([] ++ [t]) → done t = false).
Proof.
  cbv zeta. split; [|split; [|split]].
  - exists (js "Buy milk"). split; [reflexivity|]. vm_compute. discriminate.
  - vm_compute. reflexivity.
  - vm_compute. reflexivity.
  - intros H. specialize (H (Task (js "t1") (js "Buy milk") true)).
    assert (E : observe (after (Store.add (Candidate (js "t1") (Some (js "Buy milk")) (Some true)))
                          app_store)
                = Some ([] ++ [Task (js "t1") (js "Buy milk") true]))
      by (vm_compute; reflexivity).
    specialize (H E). discriminate H.
Qed.

(** C3, amended: for every candidate with a valid title, [add] appends
    exactly one task to the end of the list and leaves the tasks before it
    as they were; the new task has the candidate's id, the trimmed title (the
    input without the white space at its two ends) and the candidate's [done]
    flag, [false] when the candidate has none; the returned list is the new
    list, one longer than the old. *)
Theorem add_appends_trimmed_task (c : candidate) (s : Store.closure) (w : world)
    (ts : list task) :
  contents s w = Some ts →
  valid_title (arg_title c) →
  ∃ str r s' w' t,
    arg_title c = Some str
    ∧ Store.add c s w = (Normal r, s', w')
    ∧ contents s' w' = Some (ts ++ [t])
    ∧ read_tasks (heap w') r = Some (ts ++ [t])
    ∧ length (ts ++ [t]) = S (length ts)
    ∧ id t = arg_id c
    ∧ done t = match arg_done c with Some b => b | None => false end
    ∧ title t = trim str
    ∧ ∃ pre post,
        str = pre ++ title t ++ post
        ∧ Forall (λ u, is_white_space u = true) pre
        ∧ Forall (λ u, is_white_space u = true) post
        ∧ starts_clean (title t)
        ∧ starts_clean (rev (title t)).
Proof.
  intros H Hv. pose proof Hv as (str & Hstr & _).
  apply rejected_valid_title in Hv.
  destruct (add_spec s w ts H c Hv) as (r & s' & w' & E & Hc & Hr & _).
  exists str, r, s', w', (newTask c).
  destruct c as [i t d]. simpl in Hstr. subst t. unfold newTask in *. simpl in *.
  split; [reflexivity|]. split; [exact E|]. split; [exact Hc|]. split; [exact Hr|].
  split; [rewrite length_app; simpl; lia|]. split; [reflexivity|].
  split; [destruct d; reflexivity|]. split; [reflexivity|].
  destruct (trim_split str) as (pre & post & ?). exists pre, post. assumption.
Qed.

Lemma add_appends_trimmed_task_witness :
  ∃ str r s' w' t,
    Some (js "  Buy milk ") = Some str
    ∧ Store.add (Candidate (js "t1") (Some (js "  Buy milk ")) None)
        (fst app_store) (snd app_store) = (Normal r, s', w')
    ∧ contents s' w' = Some ([] ++ [t])
    ∧ read_tasks (heap w') r = Some ([] ++ [t])
    ∧ length ([] ++ [t]) = 1%nat
    ∧ id t = js "t1"
    ∧ done t = false
    ∧ title t = trim str
    ∧ ∃ pre post,
        str = pre ++ title t ++ post
        ∧ Forall (λ u, is_white_space u = true) pre
        ∧ Forall (λ u, is_white_space u = true) post
        ∧ starts_clean (title t)
        ∧ starts_clean (rev (title t)).
Proof.
  apply (add_appends_trimmed_task
           (Candidate (js "t1") (Some (js "  Buy milk ")) None)
           (fst app_store) (snd app_store) []).
  - reflexivity.
  - exists (js "  Buy milk "). split; [reflexivity|]. vm_compute. discriminate.
Defined.

(** C4: [add] with an absent, an empty or an all-white-space title throws
    the validation error and changes nothing: the closure and the world
    (heap, backend, console) are the ones before the call. *)
Theorem add_rejects_blank_title (c : candidate) (s : Store.closure) (w : world) :
  ¬ valid_title (arg_title c) →
  Store.add c s w = (Throw (Error "Task title cannot be empty"), s, w).
Proof.
  intros H. apply add_rejected.
  destruct (Store.rejected (arg_title c)) eqn:E; [reflexivity|].
  exfalso. apply H, rejected_valid_title, E.
Qed.

Lemma blank_titles_invalid :
  ¬ valid_title None ∧ ¬ valid_title (Some []) ∧ ¬ valid_title (Some (js "   ")).
Proof.
  repeat split; intros H; apply rejected_valid_title in H; vm_compute in H; discriminate H.
Defined.

Lemma add_rejects_blank_title_witness :
  Store.add (Candidate (js "t9") None None) (fst twin_store) (snd twin_store)
  = (Throw (Error "Task title cannot be empty"), fst twin_store, snd twin_store)
  ∧ Store.add (Candidate (js "t9") (Some []) None) (fst twin_store) (snd twin_store)
    = (Throw (Error "Task title cannot be empty"), fst twin_store, snd twin_store)
  ∧ Store.add (Candidate (js "t9") (Some (js "   ")) (Some true))
      (fst twin_store) (snd twin_store)
    = (Throw (Error "Task title cannot be empty"), fst twin_store, snd twin_store).
Proof.
  split; [|split]; apply add_rejects_blank_title; simpl; apply blank_titles_invalid.
Defined.


(** ** [toggle] *)

(** C5: on every list, [toggle(id)] keeps the length and the order, replaces
    each task whose id is [id] by the same task with [done] negated (same id,
    same title) and leaves every other task as it is; a second [toggle(id)]
    gives back the original list; when no task has the id the list is
    unchanged, and the call returns normally in every case. *)
Theorem toggle_flips_done_of_matching (i : jsstring) (s : Store.closure) (w : world)
    (ts : list task) :
  contents s w = Some ts →
  ∃ r s' w' ts',
    Store.toggle i s w = (Normal r, s', w')
    ∧ contents s' w' = Some ts'
    ∧ read_tasks (heap w') r = Some ts'
    ∧ length ts' = length ts
    ∧ (∀ k t, ts !! k = Some t →
         ∃ t', ts' !! k = Some t'
               ∧ id t' = id t ∧ title t' = title t
               ∧ done t' = (if decide (id t = i) then negb (done t) else done t))
    ∧ (i ∉ id <$> ts → ts' = ts)
    ∧ ∃ r2 s2 w2,
        Store.toggle i s' w' = (Normal r2, s2, w2) ∧ contents s2 w2 = Some ts.
Proof.
  intros H.
  destruct (toggle_spec s w ts H i) as (r & s' & w' & E & Hc & Hr & _).
  exists r, s', w', ((λ t, if decide (id t = i) then flipped t else t) <$> ts).
  split; [exact E|]. split; [exact Hc|]. split; [exact Hr|].
  split; [apply length_fmap|]. split; [|split].
  - intros k t Hk. rewrite list_lookup_fmap, Hk. simpl. eexists. split; [reflexivity|].
    destruct (decide (id t = i)); auto.
  - apply toggle_absent.
  - destruct (toggle_spec s' w' _ Hc i) as (r2 & s2 & w2 & E2 & Hc2 & _).
    exists r2, s2, w2. split; [exact E2|]. rewrite Hc2, toggle_twice. reflexivity.
Qed.

Lemma toggle_flips_done_of_matching_witness :
  ∃ r s' w' ts',
    Store.toggle (js "a") (fst twin_store) (snd twin_store) = (Normal r, s', w')
    ∧ contents s' w' = Some ts'
    ∧ read_tasks (heap w') r = Some ts'
    ∧ length ts' = 2%nat
    ∧ (∀ k t, [Task (js "a") (js "first") false; Task (js "a") (js "second") false] !! k
              = Some t →
         ∃ t', ts' !! k = Some t'
               ∧ id t' = id t ∧ title t' = title t
               ∧ done t' = (if decide (id t = js "a") then negb (done t) else done t))
    ∧ (js "a" ∉ id <$> [Task (js "a") (js "first") false; Task (js "a") (js "second") false]
       → ts' = [Task (js "a") (js "first") false; Task (js "a") (js "second") false])
    ∧ ∃ r2 s2 w2,
        Store.toggle (js "a") s' w' = (Normal r2, s2, w2)
        ∧ contents s2 w2
          = Some [Task (js "a") (js "first") false; Task (js "a") (js "second") false].
Proof.
  apply (toggle_flips_done_of_matching (js "a") (fst twin_store) (snd twin_store)
           [Task (js "a") (js "first") false; Task (js "a") (js "second") false]).
  vm_compute. reflexivity.
Defined.

(** C10: with several tasks of the same id in the list, [toggle(id)] negates
    [done] in every one of them, at every position, and [remove(id)] deletes
    every one of them in one call: no task with the id is left, the others
    stay, and the length drops by the number of tasks that had the id. *)
Theorem toggle_and_remove_reach_every_match (i : jsstring) (s : Store.closure)
    (w : world) (ts : list task) :
  contents s w = Some ts →
  (∃ r s' w' ts',
     Store.toggle i s w = (Normal r, s', w')
     ∧ contents s' w' = Some ts'
     ∧ ∀ k t, ts !! k = Some t → id t = i →
         ts' !! k = Some (Task (id t) (title t) (negb (done t))))
  ∧ (∃ r s' w' ts',
       Store.remove i s w = (Normal r, s', w')
       ∧ contents s' w' = Some ts'
       ∧ ts' = filter (λ t, id t ≠ i) ts
       ∧ (∀ t, t ∈ ts' → id t ≠ i)
       ∧ (∀ t, t ∈ ts → id t ≠ i → t ∈ ts')
       ∧ (length ts' + length (filter (λ t, id t = i) ts) = length ts)%nat).
Proof.
  intros H. split.
  - destruct (toggle_spec s w ts H i) as (r & s' & w' & E & Hc & _).
    eexists r, s', w', _. split; [exact E|]. split; [exact Hc|].
    intros k t Hk Hid. rewrite list_lookup_fmap, Hk. simpl.
    rewrite decide_True by exact Hid. reflexivity.
  - destruct (remove_spec s w ts H i) as (r & s' & w' & E & Hc & _).
    eexists r, s', w', _. split; [exact E|]. split; [exact Hc|].
    split; [reflexivity|]. split; [|split].
    + intros t Ht. apply list_elem_of_filter in Ht as [Hne _]. exact Hne.
    + intros t Ht Hne. apply list_elem_of_filter. auto.
    + apply remove_length.
Qed.

Lemma toggle_and_remove_reach_every_match_witness :
  (∃ r s' w' ts',
     Store.toggle (js "a") (fst twin_store) (snd twin_store) = (Normal r, s', w')
     ∧ contents s' w' = Some ts'
     ∧ ∀ k t, [Task (js "a") (js "first") false; Task (js "a") (js "second") false] !! k
              = Some t → id t = js "a" →
         ts' !! k = Some (Task (id t) (title t) (negb (done t))))
  ∧ (∃ r s' w' ts',
       Store.remove (js "a") (fst twin_store) (snd twin_store) = (Normal r, s', w')
       ∧ contents s' w' = Some ts'
       ∧ ts' = filter (λ t, id t ≠ js "a")
                 [Task (js "a") (js "first") false; Task (js "a") (js "second") false]
       ∧ (∀ t, t ∈ ts' → id t ≠ js "a")
       ∧ (∀ t, t ∈ [Task (js "a") (js "first") false; Task (js "a") (js "second") false]
               → id t ≠ js "a" → t ∈ ts')
       ∧ (length ts'
          + length (filter (λ t, id t = js "a")
                      [Task (js "a") (js "first") false; Task (js "a") (js "second") false])
          = 2)%nat).
Proof.
  apply (toggle_and_remove_reach_every_match (js "a") (fst twin_store) (snd twin_store)
           [Task (js "a") (js "first") false; Task (js "a") (js "second") false]).
  vm_compute. reflexivity.
Defined.

(** Both tasks of [twin_store] have the id, both are toggled, both removed. *)
Example twins_toggled_and_removed :
  observe twin_store
  = Some [Task (js "a") (js "first") false; Task (js "a") (js "second") false]
  ∧ observe (after (Store.toggle (js "a")) twin_store)
    = Some [Task (js "a") (js "first") true; Task (js "a") (js "second") true]
  ∧ observe (after (Store.remove (js "a")) twin_store) = Some [].
Proof. vm_compute. repeat split; reflexivity. Qed.

(** ** [remove] *)

(** C6, as stated, fails: the list of [twin_store] contains a task with id
    "a", and [remove("a")] shortens it by two, not by exactly one. *)
Lemma remove_twins_counterexample :
  observe twin_store
  = Some [Task (js "a") (js "first") false; Task (js "a") (js "second") false]
  ∧ js "a" ∈ id <$> [Task (js "a") (js "first") false; Task (js "a") (js "second") false]
  ∧ observe (after (Store.remove (js "a")) twin_store) = Some []
  ∧ (length ([] : list task) + 1 ≠
     length [Task (js "a") (js "first") false; Task (js "a") (js "second") false])%nat.
Proof.
  split; [vm_compute; reflexivity|]. split; [left|].
  split; [vm_compute; reflexivity|]. simpl. lia.
Qed.

(** C6, amended: on every list, [remove(id)] returns normally and leaves
    exactly the tasks whose id differs from [id], unchanged and in their
    order; no task with the id remains; the length drops by the number of
    tasks that had the id, which is exactly one when the ids of the list are
    unique and the id occurs; when the id does not occur the list is
    unchanged. *)
Theorem remove_drops_matching (i : jsstring) (s : Store.closure) (w : world)
    (ts : list task) :
  contents s w = Some ts →
  ∃ r s' w' ts',
    Store.remove i s w = (Normal r, s', w')
    ∧ contents s' w' = Some ts'
    ∧ read_tasks (heap w') r = Some ts'
    ∧ ts' = filter (λ t, id t ≠ i) ts
    ∧ ts' `sublist_of` ts
    ∧ (i ∉ id <$> ts')
    ∧ (length ts' + length (filter (λ t, id t = i) ts) = length ts)%nat
    ∧ (unique_ids ts → i ∈ id <$> ts → (length ts' + 1 = length ts)%nat)
    ∧ (i ∉ id <$> ts → ts' = ts).
Proof.
  intros H.
  destruct (remove_spec s w ts H i) as (r & s' & w' & E & Hc & Hr & _).
  exists r, s', w', (filter (λ t, id t ≠ i) ts).
  split; [exact E|]. split; [exact Hc|]. split; [exact Hr|]. split; [reflexivity|].
  split; [apply sublist_filter|]. split; [apply remove_gone|].
  split; [apply remove_length|]. split; [|apply remove_absent].
  intros Hu Hin. rewrite <- (unique_id_once i ts Hu Hin). apply remove_length.
Qed.

Lemma remove_drops_matching_witness :
  ∃ r s' w' ts',
    Store.remove (js "a") (fst twin_store) (snd twin_store) = (Normal r, s', w')
    ∧ contents s' w' = Some ts'
    ∧ read_tasks (heap w') r = Some ts'
    ∧ ts' = filter (λ t, id t ≠ js "a")
              [Task (js "a") (js "first") false; Task (js "a") (js "second") false]
    ∧ ts' `sublist_of` [Task (js "a") (js "first") false; Task (js "a") (js "second") false]
    ∧ (js "a" ∉ id <$> ts')
    ∧ (length ts'
       + length (filter (λ t, id t = js "a")
                   [Task (js "a") (js "first") false; Task (js "a") (js "second") false])
       = 2)%nat
    ∧ (unique_ids [Task (js "a") (js "first") false; Task (js "a") (js "second") false] →
       js "a" ∈ id <$> [Task (js "a") (js "first") false; Task (js "a") (js "second") false] →
       (length ts' + 1 = 2)%nat)
    ∧ (js "a" ∉ id <$> [Task (js "a") (js "first") false; Task (js "a") (js "second") false]
       → ts' = [Task (js "a") (js "first") false; Task (js "a") (js "second") false]).
Proof.
  apply (remove_drops_matching (js "a") (fst twin_store) (snd twin_store)
           [Task (js "a") (js "first") false; Task (js "a") (js "second") false]).
  vm_compute. reflexivity.
Defined.


(** ** Uniqueness of ids *)

(** C9, as stated, fails: from the empty list, whose ids are unique, two
    calls of [add] with the same id give a list with that id twice. *)
Lemma add_same_id_twice_counterexample :
  observe app_store = Some []
  ∧ unique_ids []
  ∧ valid_title (Some (js "first")) ∧ valid_title (Some (js "second"))
  ∧ observe twin_store
    = Some [Task (js "a") (js "first") false; Task (js "a") (js "second") false]
  ∧ ¬ unique_ids [Task (js "a") (js "first") false; Task (js "a") (js "second") false].
Proof.
  split; [vm_compute; reflexivity|]. split; [apply NoDup_nil_2|].
  split; [eexists; split; [reflexivity|vm_compute; discriminate]|].
  split; [eexists; split; [reflexivity|vm_compute; discriminate]|].
  split; [vm_compute; reflexivity|].
  unfold unique_ids. simpl. intros H. apply NoDup_cons in H as [H _].
  apply H. left.
Qed.

(** C9, amended: in a store whose ids are unique, [toggle] and [remove] keep
    them unique, a rejected [add] changes nothing, and an accepted [add]
    keeps them unique exactly when the id of the candidate does not occur in
    the list yet; [add] itself does not look at the id. *)
Theorem unique_ids_kept_unless_add_repeats (s : Store.closure) (w : world)
    (ts : list task) :
  contents s w = Some ts →
  unique_ids ts →
  (∀ i, ∃ r s' w' ts',
      Store.toggle i s w = (Normal r, s', w')
      ∧ contents s' w' = Some ts' ∧ unique_ids ts')
  ∧ (∀ i, ∃ r s' w' ts',
      Store.remove i s w = (Normal r, s', w')
      ∧ contents s' w' = Some ts' ∧ unique_ids ts')
  ∧ (∀ c, ¬ valid_title (arg_title c) →
      ∃ r, Store.add c s w = (r, s, w))
  ∧ (∀ c, valid_title (arg_title c) →
      ∃ r s' w' ts',
        Store.add c s w = (Normal r, s', w')
        ∧ contents s' w' = Some ts'
        ∧ (unique_ids ts' ↔ arg_id c ∉ id <$> ts)).
Proof.
  intros H Hu. split; [|split; [|split]].
  - intros i. destruct (toggle_spec s w ts H i) as (r & s' & w' & E & Hc & _).
    eexists r, s', w', _. split; [exact E|]. split; [exact Hc|].
    unfold unique_ids. rewrite toggle_ids. exact Hu.
  - intros i. destruct (remove_spec s w ts H i) as (r & s' & w' & E & Hc & _).
    eexists r, s', w', _. split; [exact E|]. split; [exact Hc|].
    apply remove_unique, Hu.
  - intros c Hc. eexists. apply add_rejected.
    destruct (Store.rejected (arg_title c)) eqn:E; [reflexivity|].
    exfalso. apply Hc, rejected_valid_title, E.
  - intros c Hv. apply rejected_valid_title in Hv.
    destruct (add_spec s w ts H c Hv) as (r & s' & w' & E & Hc & _).
    eexists r, s', w', _. split; [exact E|]. split; [exact Hc|].
    apply (add_unique (newTask c) ts Hu).
Qed.

Lemma unique_ids_kept_unless_add_repeats_witness :
  (∀ i, ∃ r s' w' ts',
      Store.toggle i (fst pair_store) (snd pair_store) = (Normal r, s', w')
      ∧ contents s' w' = Some ts' ∧ unique_ids ts')
  ∧ (∀ i, ∃ r s' w' ts',
      Store.remove i (fst pair_store) (snd pair_store) = (Normal r, s', w')
      ∧ contents s' w' = Some ts' ∧ unique_ids ts')
  ∧ (∀ c, ¬ valid_title (arg_title c) →
      ∃ r, Store.add c (fst pair_store) (snd pair_store)
           = (r, fst pair_store, snd pair_store))
  ∧ (∀ c, valid_title (arg_title c) →
      ∃ r s' w' ts',
        Store.add c (fst pair_store) (snd pair_store) = (Normal r, s', w')
        ∧ contents s' w' = Some ts'
        ∧ (unique_ids ts'
           ↔ arg_id c ∉ id <$> [Task (js "a") (js "first") false;
                                Task (js "b") (js "second") false])).
Proof.
  apply (unique_ids_kept_unless_add_repeats (fst pair_store) (snd pair_store)
           [Task (js "a") (js "first") false; Task (js "b") (js "second") false]).
  - vm_compute. reflexivity.
  - unfold unique_ids. apply (bool_decide_unpack _). vm_compute. exact I.
Defined.

(** ** [list] *)

(** Every location a well-formed store reaches lies in the heap. *)
Lemma contents_bounds (s : Store.closure) (w : world) (ts : list task) :
  contents s w = Some ts →
  (Store.tasks s < length (heap w))%nat
  ∧ ∀ els l, read_array (heap w) (Store.tasks s) = Some els → l ∈ els →
      (l < length (heap w))%nat.
Proof.
  unfold contents, read_tasks. intros H. split.
  - destruct (read_array _ _) eqn:E; [|discriminate]. eapply read_array_lt, E.
  - intros els l E Hl. rewrite E in H. apply mapM_Some in H.
    apply list_elem_of_lookup in Hl as [k Hk].
    destruct (Forall2_lookup_l _ _ _ _ _ H Hk) as (t & _ & Ht).
    eapply read_task_lt, Ht.
Qed.

(** C7: [list()] returns normally a new array of new task objects that
    denotes the store's list in its order: the array is not the internal
    one, its elements are new, pairwise distinct locations, none of them an
    element of the internal array. Whatever is then written to the returned
    array or to its elements, and whatever is allocated after them (any heap
    that agrees with the one [list()] left at every older location), the
    store's list is what it was, and so is the result of the next
    [list()]. *)
Theorem list_returns_deep_copy (s : Store.closure) (w : world) (ts : list task) :
  contents s w = Some ts →
  ∃ a w' els,
    Store.list s w = (Normal a, w')
    ∧ read_array (heap w') a = Some els
    ∧ read_tasks (heap w') a = Some ts
    ∧ contents s w' = Some ts
    ∧ a ≠ Store.tasks s
    ∧ (length (heap w) ≤ a)%nat
    ∧ (∀ l, l ∈ els → (length (heap w) ≤ l)%nat ∧ l ≠ a)
    ∧ NoDup els
    ∧ (∀ internal l, read_array (heap w) (Store.tasks s) = Some internal →
         l ∈ els → l ∉ internal)
    ∧ ∀ h'',
        (∀ l, (l < length (heap w'))%nat → l ≠ a → l ∉ els →
              h'' !! l = heap w' !! l) →
        contents s (with_heap h'' w') = Some ts
        ∧ ∃ a2 w2,
            Store.list s (with_heap h'' w') = (Normal a2, w2)
            ∧ read_tasks (heap w2) a2 = Some ts.
Proof.
  intros H. destruct (contents_bounds s w ts H) as [Ha Hels].
  eexists (length (heap w) + length ts)%nat, _, (seq (length (heap w)) (length ts)).
  split; [apply list_spec, H|]. simpl.
  assert (Hin : ∀ l, l ∈ seq (length (heap w)) (length ts) →
                  (length (heap w) ≤ l < length (heap w) + length ts)%nat).
  { intros l Hl. apply list_elem_of_In, in_seq in Hl. lia. }
  split; [|split; [|split; [|split; [|split; [|split; [|split; [|split]]]]]]].
  - replace (length (heap w) + length ts)%nat
      with (length (heap w ++ (ObjTask <$> ts)))
      by (rewrite length_app, length_fmap; reflexivity).
    apply read_array_alloc.
  - apply read_tasks_copies.
  - unfold contents. simpl. eapply read_tasks_prefix; [|exact H].
    heap_grows.
  - lia.
  - lia.
  - intros l Hl. apply Hin in Hl. lia.
  - apply NoDup_ListNoDup, seq_NoDup.
  - intros internal l E Hl Hl'. apply Hin in Hl. specialize (Hels internal l E Hl'). lia.
  - intros h'' Hagree.
    assert (Hsame : ∀ k, (k < length (heap w))%nat → h'' !! k = heap w !! k).
    { intros k Hk. rewrite Hagree.
      - rewrite <- app_assoc. apply lookup_app_l. exact Hk.
      - rewrite !length_app. lia.
      - lia.
      - intros Hk'. apply Hin in Hk'. lia. }
    assert (Hc : contents s (with_heap h'' w) = Some ts).
    { unfold contents. simpl.
      apply (read_tasks_agree (heap w) h'' (length (heap w))); auto. }
    split; [exact Hc|].
    eexists _, _. split; [apply (list_spec s (with_heap h'' w) ts Hc)|].
    simpl. apply read_tasks_copies.
Qed.

Lemma list_returns_deep_copy_witness :
  ∃ a w' els,
    Store.list (fst twin_store) (snd twin_store) = (Normal a, w')
    ∧ read_array (heap w') a = Some els
    ∧ read_tasks (heap w') a
      = Some [Task (js "a") (js "first") false; Task (js "a") (js "second") false]
    ∧ contents (fst twin_store) w'
      = Some [Task (js "a") (js "first") false; Task (js "a") (js "second") false]
    ∧ a ≠ Store.tasks (fst twin_store)
    ∧ (length (heap (snd twin_store)) ≤ a)%nat
    ∧ (∀ l, l ∈ els → (length (heap (snd twin_store)) ≤ l)%nat ∧ l ≠ a)
    ∧ NoDup els
    ∧ (∀ internal l,
         read_array (heap (snd twin_store)) (Store.tasks (fst twin_store)) = Some internal →
         l ∈ els → l ∉ internal)
    ∧ ∀ h'',
        (∀ l, (l < length (heap w'))%nat → l ≠ a → l ∉ els →
              h'' !! l = heap w' !! l) →
        contents (fst twin_store) (with_heap h'' w')
        = Some [Task (js "a") (js "first") false; Task (js "a") (js "second") false]
        ∧ ∃ a2 w2,
            Store.list (fst twin_store) (with_heap h'' w') = (Normal a2, w2)
            ∧ read_tasks (heap w2) a2
              = Some [Task (js "a") (js "first") false; Task (js "a") (js "second") false].
Proof.
  apply (list_returns_deep_copy (fst twin_store) (snd twin_store)
           [Task (js "a") (js "first") false; Task (js "a") (js "second") false]).
  vm_compute. reflexivity.
Defined.


(** ** [summarize] *)

Lemma count_active (tasks : list task) (z : Z) :
  fold_left (λ count task, if done task then count else count + 1) tasks z
  = z + Z.of_nat (length (filter (λ t, done t = false) tasks)).
Proof.
  revert z. induction tasks as [|t ts IH]; intros z; simpl; [lia|].
  rewrite IH, filter_cons. destruct (decide (done t = false)) as [E|E].
  - rewrite E. simpl length. lia.
  - destruct (done t); [lia|congruence].
Qed.

Lemma count_done (tasks : list task) (z : Z) :
  fold_left (λ count task, if done task then count + 1 else count) tasks z
  = z + Z.of_nat (length (filter (λ t, done t = true) tasks)).
Proof.
  revert z. induction tasks as [|t ts IH]; intros z; simpl; [lia|].
  rewrite IH, filter_cons. destruct (decide (done t = true)) as [E|E].
  - rewrite E. simpl length. lia.
  - destruct (done t); [congruence|lia].
Qed.

Lemma count_total (tasks : list task) :
  (length (filter (λ t, done t = false) tasks)
   + length (filter (λ t, done t = true) tasks) = length tasks)%nat.
Proof.
  induction tasks as [|t ts IH]; [reflexivity|]. rewrite !filter_cons.
  destruct (decide (done t = false)) as [E|E], (decide (done t = true)) as [E'|E'];
    simpl; try lia.
  - congruence.
  - destruct (done t); congruence.
Qed.

(** [nearest_tenth m e] is an integer nearest to ten times [m * 2^e], the
    upper one at a tie. *)
Lemma nearest_tenth_spec (m : positive) (e : Z) :
  (0 <= e → nearest_tenth m e = 10 * (Z.pos m * 2 ^ e))
  ∧ (e < 0 →
     - 2 ^ (- e) < 2 * nearest_tenth m e * 2 ^ (- e) - 20 * Z.pos m <= 2 ^ (- e)).
Proof.
  unfold nearest_tenth. split; intros He.
  - rewrite (proj2 (Z.leb_le 0 e)) by exact He. reflexivity.
  - rewrite (proj2 (Z.leb_gt 0 e)) by exact He.
    assert (Hp : 0 < 2 ^ (- e)) by (apply Z.pow_pos_nonneg; lia).
    set (p := 2 ^ (- e)) in *.
    pose proof (Z.div_mod (20 * Z.pos m + p) (2 * p) ltac:(lia)) as Hdm.
    pose proof (Z.mod_pos_bound (20 * Z.pos m + p) (2 * p) ltac:(lia)) as Hb.
    set (q := (20 * Z.pos m + p) / (2 * p)) in *.
    nia.
Qed.

Lemma toFixed1_tenths (x : float) (n : Z) :
  tenths x = Some n → toFixed1 x = Digits (fixed1 n).
Proof.
  unfold tenths, toFixed1. destruct (Prim2SF x) as [sg|sg| |sg m e].
  - intros [= <-]. reflexivity.
  - discriminate.
  - discriminate.
  - destruct sg; [discriminate|].
    destruct ((0 <=? e) && (10 ^ 21 <=? Z.pos m * 2 ^ e)); [discriminate|].
    intros [= <-]. reflexivity.
Qed.

(** ** The binary64 computation of the percentage

    [done / total * 100] is followed through the specification of binary64
    arithmetic: both roundings are bounded, and the bound places the
    computed value on the same side of every tie as the exact percentage. *)

Lemma digits2_pos_bounds (p : positive) :
  2 ^ (Z.pos (digits2_pos p) - 1) <= Z.pos p < 2 ^ Z.pos (digits2_pos p).
Proof.
  induction p as [p IH|p IH|]; cbn [digits2_pos].
  - rewrite Pos2Z.inj_succ, (Pos2Z.inj_xI p).
    replace (Z.succ (Z.pos (digits2_pos p)) - 1) with (Z.succ (Z.pos (digits2_pos p) - 1))
      by lia.
    rewrite !Z.pow_succ_r by lia.
    destruct IH as [IH1 IH2]. revert IH1 IH2.
    generalize (2 ^ (Z.pos (digits2_pos p) - 1)) (2 ^ Z.pos (digits2_pos p)). lia.
  - rewrite Pos2Z.inj_succ, (Pos2Z.inj_xO p).
    replace (Z.succ (Z.pos (digits2_pos p)) - 1) with (Z.succ (Z.pos (digits2_pos p) - 1))
      by lia.
    rewrite !Z.pow_succ_r by lia.
    destruct IH as [IH1 IH2]. revert IH1 IH2.
    generalize (2 ^ (Z.pos (digits2_pos p) - 1)) (2 ^ Z.pos (digits2_pos p)). lia.
  - cbn. lia.
Qed.

Lemma Zdigits2_unique (p : positive) (n : Z) :
  2 ^ (n - 1) <= Z.pos p < 2 ^ n → Zdigits2 (Z.pos p) = n.
Proof.
  intros [Hl Hu]. cbn [Zdigits2].
  pose proof (digits2_pos_bounds p) as [Dl Du].
  set (d := Z.pos (digits2_pos p)) in *.
  destruct (Z.lt_trichotomy n d) as [H|[H|H]]; [exfalso|congruence|exfalso].
  - assert (2 ^ n <= 2 ^ (d - 1)) by (apply Z.pow_le_mono_r; lia). lia.
  - assert (2 ^ d <= 2 ^ (n - 1)) by (apply Z.pow_le_mono_r; lia). lia.
Qed.

Lemma shr_m_of_loc (m : Z) (l : location) : shr_m (shr_record_of_loc m l) = m.
Proof. destruct l as [|[]]; reflexivity. Qed.

Lemma shr_1_m (r : shr_record) : 0 <= shr_m r → shr_m (shr_1 r) = shr_m r / 2.
Proof.
  destruct r as [m rb sb]. cbn [shr_m]. intros H.
  destruct m as [|[p|p|]|p]; cbn [shr_1 shr_m]; try lia.
  - reflexivity.
  - rewrite (Pos2Z.inj_xI p). apply Z.div_unique with 1; lia.
  - rewrite (Pos2Z.inj_xO p). apply Z.div_unique with 0; lia.
  - reflexivity.
Qed.

Lemma iter_pos_shr_m (n : positive) (r : shr_record) :
  0 <= shr_m r → shr_m (SpecFloat.iter_pos shr_1 n r) = shr_m r / 2 ^ Z.pos n.
Proof.
  revert r. induction n as [n IH|n IH|]; intros r H; cbn [SpecFloat.iter_pos].
  - assert (H1 : 0 <= shr_m (shr_1 r)) by (rewrite shr_1_m by exact H; apply Z.div_pos; lia).
    assert (H2 : 0 <= shr_m (SpecFloat.iter_pos shr_1 n (shr_1 r))).
    { rewrite IH by exact H1. apply Z.div_pos; [exact H1|]. apply Z.pow_pos_nonneg; lia. }
    rewrite IH by exact H2. rewrite IH by exact H1. rewrite shr_1_m by exact H.
    rewrite (Pos2Z.inj_xI n).
    replace (2 * Z.pos n + 1) with (1 + Z.pos n + Z.pos n) by lia.
    rewrite !Z.pow_add_r by lia.
    assert (0 < 2 ^ Z.pos n) by (apply Z.pow_pos_nonneg; lia).
    rewrite !Z.div_div by lia. change (2 ^ 1) with 2. f_equal. ring.
  - assert (H2 : 0 <= shr_m (SpecFloat.iter_pos shr_1 n r)).
    { rewrite IH by exact H. apply Z.div_pos; [exact H|]. apply Z.pow_pos_nonneg; lia. }
    rewrite IH by exact H2. rewrite IH by exact H.
    rewrite (Pos2Z.inj_xO n).
    replace (2 * Z.pos n) with (Z.pos n + Z.pos n) by lia.
    rewrite !Z.pow_add_r by lia.
    assert (0 < 2 ^ Z.pos n) by (apply Z.pow_pos_nonneg; lia).
    rewrite !Z.div_div by lia. reflexivity.
  - rewrite shr_1_m by exact H. reflexivity.
Qed.

Lemma round_nearest_even_bounds (m : Z) (l : location) :
  m <= round_nearest_even m l <= m + 1.
Proof. destruct l as [|[]]; cbn; try lia. destruct (Z.even m); lia. Qed.

Lemma fexp_normal (x : Z) : -1021 <= x → fexp prec emax x = x - 53.
Proof. unfold fexp, emin, prec, emax. lia. Qed.

(** A mantissa of [53 + k] bits loses its [k] low bits. *)
Lemma shr_fexp_shift (m e k : Z) (l : location) :
  0 <= k → 2 ^ (52 + k) <= m < 2 ^ (53 + k) → -1074 <= e + k →
  ∃ r, shr_fexp prec emax m e l = (r, e + k) ∧ shr_m r = m / 2 ^ k.
Proof.
  intros Hk Hm He. unfold shr_fexp.
  assert (Hpos : 0 < m).
  { assert (0 < 2 ^ (52 + k)) by (apply Z.pow_pos_nonneg; lia). lia. }
  destruct m as [|p|p]; try lia.
  rewrite (Zdigits2_unique p (53 + k))
    by (replace (53 + k - 1) with (52 + k) by lia; exact Hm).
  rewrite fexp_normal by lia.
  replace (53 + k + e - 53 - e) with k by lia.
  destruct k as [|pk|pk]; try lia.
  - exists (shr_record_of_loc (Z.pos p) l). split.
    + cbn [shr]. f_equal. lia.
    + rewrite shr_m_of_loc, Z.pow_0_r, Z.div_1_r. reflexivity.
  - exists (SpecFloat.iter_pos shr_1 pk (shr_record_of_loc (Z.pos p) l)). split.
    + reflexivity.
    + rewrite iter_pos_shr_m by (rewrite shr_m_of_loc; lia).
      rewrite shr_m_of_loc. reflexivity.
Qed.

(** Rounding a mantissa of [53 + k] bits to binary64: the result is a
    normal number whose value is within [2^k] units of the argument's last
    place. *)
Lemma binary_round_aux_bound (sx : bool) (mx ex k : Z) (lx : location) :
  0 <= k → 2 ^ (52 + k) <= mx < 2 ^ (53 + k) →
  -1074 <= ex + k → ex + k < 971 →
  ∃ m e, binary_round_aux prec emax sx mx ex lx = S754_finite sx m e
         ∧ 2 ^ 52 <= Z.pos m < 2 ^ 53
         ∧ ex + k <= e <= ex + k + 1
         ∧ Z.abs (Z.pos m * 2 ^ (e - ex) - mx) <= 2 ^ k.
Proof.
  intros Hk Hm He1 He2. unfold binary_round_aux.
  destruct (shr_fexp_shift mx ex k lx Hk Hm He1) as (r & -> & Hr).
  assert (HK : 0 < 2 ^ k) by (apply Z.pow_pos_nonneg; lia).
  assert (Hf : 2 ^ 52 <= mx / 2 ^ k < 2 ^ 53).
  { rewrite !Z.pow_add_r in Hm by lia. split.
    - apply Z.div_le_lower_bound; lia.
    - apply Z.div_lt_upper_bound; lia. }
  pose proof (round_nearest_even_bounds (shr_m r) (loc_of_shr_record r)) as Hn.
  set (m1 := round_nearest_even (shr_m r) (loc_of_shr_record r)) in *.
  rewrite Hr in Hn.
  pose proof (Z.mul_div_le mx (2 ^ k) HK) as Hd1.
  pose proof (Z.mul_succ_div_gt mx (2 ^ k) HK) as Hd2.
  set (f := mx / 2 ^ k) in *.
  destruct (Z.eq_dec m1 (2 ^ 53)) as [E|E].
  - (* the rounding carried into a 54th bit *)
    rewrite E.
    assert (Es : shr_fexp prec emax (2 ^ 53) (ex + k) loc_Exact
                 = (Build_shr_record (2 ^ 52) false false, ex + k + 1)).
    { unfold shr_fexp. change (Zdigits2 (2 ^ 53)) with 54.
      rewrite fexp_normal by lia.
      replace (54 + (ex + k) - 53 - (ex + k)) with 1 by lia. reflexivity. }
    rewrite Es. cbn [shr_m]. change (2 ^ 52) with (Z.pos (2 ^ 52)) at 1.
    cbv iota beta.
    replace (ex + k + 1 <=? emax - prec) with true
      by (symmetry; apply Z.leb_le; unfold emax, prec; lia).
    eexists _, _. split; [reflexivity|].
    split; [split; [reflexivity|reflexivity]|]. split; [lia|].
    replace (ex + k + 1 - ex) with (1 + k) by lia.
    rewrite Z.pow_add_r by lia. change (2 ^ 1) with 2.
    change (Z.pos (2 ^ 52)) with (2 ^ 52).
    replace (2 ^ 52 * (2 * 2 ^ k)) with (2 ^ 53 * 2 ^ k) by (change (2 ^ 53) with (2 * 2 ^ 52); ring).
    rewrite <- E. nia.
  - destruct (shr_fexp_shift m1 (ex + k) 0 loc_Exact) as (r2 & -> & Hr2); try lia.
    rewrite Z.pow_0_r, Z.div_1_r in Hr2. rewrite Hr2, !Z.add_0_r.
    destruct m1 as [|p1|p1]; try lia.
    replace (ex + k <=? emax - prec) with true
      by (symmetry; apply Z.leb_le; unfold emax, prec; lia).
    eexists _, _. split; [reflexivity|].
    split; [lia|]. split; [lia|].
    replace (ex + k - ex) with k by lia. nia.
Qed.

Lemma pos_iter_xO (p d : positive) : Z.pos (Pos.iter xO p d) = Z.pos p * 2 ^ Z.pos d.
Proof.
  induction d as [|d IH] using Pos.peano_ind.
  - cbn [Pos.iter]. rewrite (Pos2Z.inj_xO p). change (2 ^ 1) with 2. ring.
  - rewrite Pos.iter_succ, (Pos2Z.inj_xO (Pos.iter xO p d)), IH, Pos2Z.inj_succ.
    rewrite Z.pow_succ_r by lia. ring.
Qed.

(** A mantissa of exactly 53 bits with an exponent in range is left as it
    is. *)
Lemma binary_round_aux_canonical (sx : bool) (m : positive) (e : Z) :
  2 ^ 52 <= Z.pos m < 2 ^ 53 → -1074 <= e <= 971 →
  binary_round_aux prec emax sx (Z.pos m) e loc_Exact = S754_finite sx m e.
Proof.
  intros Hm He. unfold binary_round_aux.
  assert (Es : shr_fexp prec emax (Z.pos m) e loc_Exact
               = (Build_shr_record (Z.pos m) false false, e)).
  { unfold shr_fexp. rewrite (Zdigits2_unique m 53) by exact Hm.
    rewrite fexp_normal by lia. replace (53 + e - 53 - e) with 0 by lia. reflexivity. }
  rewrite Es. cbn [shr_m loc_of_shr_record round_nearest_even]. rewrite Es. cbn [shr_m].
  replace (e <=? emax - prec) with true
    by (symmetry; apply Z.leb_le; unfold emax, prec; lia).
  reflexivity.
Qed.

(** The binary64 value of a count below 2^53 is the count itself, with a
    mantissa of 53 bits. *)
Lemma number_canonical (n : Z) :
  1 <= n < 2 ^ 53 →
  ∃ m e, Prim2SF (number n) = S754_finite false m e
         ∧ 2 ^ 52 <= Z.pos m < 2 ^ 53 ∧ -52 <= e <= 0
         ∧ Z.pos m = n * 2 ^ (- e).
Proof.
  intros Hn. unfold number. rewrite of_uint63_spec, Uint63.of_Z_spec.
  rewrite Z.mod_small by (change Uint63Axioms.wB with (2 ^ 63); lia).
  destruct n as [|p|p]; try lia. cbn [binary_normalize]. unfold binary_round.
  pose proof (digits2_pos_bounds p) as [Dl Du].
  set (dg := Z.pos (digits2_pos p)) in *.
  assert (Hdg : 1 <= dg <= 53).
  { split; [unfold dg; lia|].
    destruct (Z_lt_le_dec 53 dg) as [H|H]; [exfalso|exact H].
    assert (2 ^ 53 <= 2 ^ (dg - 1)) by (apply Z.pow_le_mono_r; lia). lia. }
  rewrite fexp_normal by lia. unfold shl_align.
  destruct (Z.eq_dec dg 53) as [E|E].
  - replace (dg + 0 - 53 - 0) with 0 by lia. cbv iota beta.
    rewrite E in Dl, Du.
    rewrite binary_round_aux_canonical by (try split; try assumption; lia).
    exists p, 0. split; [reflexivity|]. split; [split; assumption|]. split; [lia|].
    change (2 ^ (- 0)) with 1. lia.
  - replace (dg + 0 - 53 - 0) with (Z.neg (Z.to_pos (53 - dg))) by lia.
    cbv iota beta.
    assert (Em : Z.pos (Pos.iter xO p (Z.to_pos (53 - dg))) = Z.pos p * 2 ^ (53 - dg)).
    { rewrite pos_iter_xO, Z2Pos.id by lia. reflexivity. }
    assert (Hb : 2 ^ 52 <= Z.pos p * 2 ^ (53 - dg) < 2 ^ 53).
    { assert (P1 : 2 ^ 52 = 2 ^ (dg - 1) * 2 ^ (53 - dg))
        by (rewrite <- Z.pow_add_r by lia; f_equal; lia).
      assert (P2 : 2 ^ 53 = 2 ^ dg * 2 ^ (53 - dg))
        by (rewrite <- Z.pow_add_r by lia; f_equal; lia).
      assert (0 < 2 ^ (53 - dg)) by (apply Z.pow_pos_nonneg; lia).
      rewrite P1, P2. split.
      - apply Z.mul_le_mono_nonneg_r; lia.
      - apply Z.mul_lt_mono_pos_r; lia. }
    rewrite binary_round_aux_canonical by (rewrite ?Em; lia).
    eexists _, _. split; [reflexivity|]. rewrite Em.
    split; [exact Hb|]. split; [lia|]. f_equal. f_equal. lia.
Qed.

(** The quotient of two 53-bit mantissas, as binary64 computes it: within
    three units of the divisor of the exact one. *)
Lemma div_bound (m1 m2 : positive) (e1 e2 : Z) :
  2 ^ 52 <= Z.pos m1 < 2 ^ 53 → 2 ^ 52 <= Z.pos m2 < 2 ^ 53 →
  -52 <= e1 <= 0 → -52 <= e2 <= 0 →
  ∃ m e,
    SF64div (S754_finite false m1 e1) (S754_finite false m2 e2) = S754_finite false m e
    ∧ 2 ^ 52 <= Z.pos m < 2 ^ 53
    ∧ e1 - e2 - 53 <= e <= e1 - e2 - 51
    ∧ Z.abs (Z.pos m * 2 ^ (e - (e1 - e2 - 53)) * Z.pos m2 - Z.pos m1 * 2 ^ 53)
      <= 3 * Z.pos m2.
Proof.
  intros H1 H2 He1 He2. unfold SF64div, SFdiv, SFdiv_core_binary.
  rewrite (Zdigits2_unique m1 53), (Zdigits2_unique m2 53) by assumption.
  rewrite fexp_normal by lia.
  replace (Z.min (53 + e1 - (53 + e2) - 53) (e1 - e2)) with (e1 - e2 - 53) by lia.
  replace (e1 - e2 - (e1 - e2 - 53)) with 53 by lia. cbv iota beta.
  rewrite Z.shiftl_mul_pow2 by lia.
  pose proof (Z_div_mod (Z.pos m1 * 2 ^ 53) (Z.pos m2) ltac:(lia)) as Hdm.
  destruct (Z.div_eucl (Z.pos m1 * 2 ^ 53) (Z.pos m2)) as [q r]. destruct Hdm as [Hq Hr].
  cbn [xorb].
  set (a := Z.pos m1) in *. set (b := Z.pos m2) in *.
  change (2 ^ 53) with (2 * 2 ^ 52) in *. set (A := 2 ^ 52) in *.
  assert (HA : 0 < A) by (unfold A; lia).
  assert (Hq1 : A <= q).
  { destruct (Z_lt_le_dec q A) as [H|H]; [exfalso|exact H].
    assert (b * (q + 1) <= b * A) by (apply Z.mul_le_mono_nonneg_l; lia).
    assert (b * A < (2 * A) * A) by (apply Z.mul_lt_mono_pos_r; lia).
    assert (A * (2 * A) <= a * (2 * A)) by (apply Z.mul_le_mono_nonneg_r; lia).
    lia. }
  assert (Hq2 : q < 4 * A).
  { destruct (Z_lt_le_dec q (4 * A)) as [H|H]; [exact H|exfalso].
    assert (b * (4 * A) <= b * q) by (apply Z.mul_le_mono_nonneg_l; lia).
    assert (A * (4 * A) <= b * (4 * A)) by (apply Z.mul_le_mono_nonneg_r; lia).
    assert (a * (2 * A) < (2 * A) * (2 * A)) by (apply Z.mul_lt_mono_pos_r; lia).
    lia. }
  destruct (Z_lt_le_dec q (2 * A)) as [Hk|Hk].
  - assert (Hrange : 2 ^ (52 + 0) <= q < 2 ^ (53 + 0))
      by (change (2 ^ (52 + 0)) with A; change (2 ^ (53 + 0)) with (2 * A); lia).
    destruct (binary_round_aux_bound false q (e1 - e2 - 53) 0 (new_location b r)
                ltac:(lia) Hrange ltac:(lia) ltac:(lia))
      as (m & e & -> & Hm & He & Hb).
    exists m, e. split; [reflexivity|]. fold A in Hm. change (2 ^ 53) with (2 * A) in Hm.
    split; [exact Hm|]. split; [lia|].
    change (2 ^ 0) with 1 in Hb.
    set (S := 2 ^ (e - (e1 - e2 - 53))) in *. nia.
  - assert (Hrange : 2 ^ (52 + 1) <= q < 2 ^ (53 + 1))
      by (change (2 ^ (52 + 1)) with (2 * A); change (2 ^ (53 + 1)) with (4 * A); lia).
    destruct (binary_round_aux_bound false q (e1 - e2 - 53) 1 (new_location b r)
                ltac:(lia) Hrange ltac:(lia) ltac:(lia))
      as (m & e & -> & Hm & He & Hb).
    exists m, e. split; [reflexivity|]. fold A in Hm. change (2 ^ 53) with (2 * A) in Hm.
    split; [exact Hm|]. split; [lia|].
    change (2 ^ 1) with 2 in Hb.
    set (S := 2 ^ (e - (e1 - e2 - 53))) in *. nia.
Qed.

(** The product of a binary64 value with 100, as binary64 computes it. *)
Lemma mul100_bound (m : positive) (e : Z) :
  2 ^ 52 <= Z.pos m < 2 ^ 53 → -200 <= e <= 0 →
  ∃ m' e',
    SF64mul (S754_finite false m e) (Prim2SF 100%float) = S754_finite false m' e'
    ∧ 2 ^ 52 <= Z.pos m' < 2 ^ 53
    ∧ e + 6 <= e' <= e + 8
    ∧ Z.abs (Z.pos m' * 2 ^ (e' - (e - 46)) - Z.pos m * (100 * 2 ^ 46)) <= 2 ^ 53.
Proof.
  intros Hm He.
  change (Prim2SF 100%float) with (S754_finite false 7036874417766400 (-46)).
  unfold SF64mul, SFmul. cbn [xorb]. rewrite Pos2Z.inj_mul.
  change (Z.pos 7036874417766400) with (100 * 2 ^ 46).
  set (a := Z.pos m) in *.
  destruct (Z_lt_le_dec (a * (100 * 2 ^ 46)) (2 ^ 105)) as [Hk|Hk].
  - assert (Hrange : 2 ^ (52 + 52) <= a * (100 * 2 ^ 46) < 2 ^ (53 + 52)) by lia.
    destruct (binary_round_aux_bound false (a * (100 * 2 ^ 46)) (e + -46) 52 loc_Exact
                ltac:(lia) Hrange ltac:(lia) ltac:(lia))
      as (m' & e' & -> & Hm' & He' & Hb).
    exists m', e'. split; [reflexivity|]. split; [exact Hm'|]. split; [lia|].
    replace (e' - (e - 46)) with (e' - (e + -46)) by lia. lia.
  - assert (Hrange : 2 ^ (52 + 53) <= a * (100 * 2 ^ 46) < 2 ^ (53 + 53)) by lia.
    destruct (binary_round_aux_bound false (a * (100 * 2 ^ 46)) (e + -46) 53 loc_Exact
                ltac:(lia) Hrange ltac:(lia) ltac:(lia))
      as (m' & e' & -> & Hm' & He' & Hb).
    exists m', e'. split; [reflexivity|]. split; [exact Hm'|]. split; [lia|].
    replace (e' - (e - 46)) with (e' - (e + -46)) by lia. lia.
Qed.

Lemma mul_between (w u p : Z) : 0 <= w → - p <= u <= p → - (w * p) <= w * u <= w * p.
Proof.
  intros Hw [H1 H2]. split.
  - rewrite <- Z.mul_opp_r. apply Z.mul_le_mono_nonneg_l; assumption.
  - apply Z.mul_le_mono_nonneg_l; assumption.
Qed.

Lemma mul_lt_cancel (k x y : Z) : 0 < k → x * k < y * k → x < y.
Proof. intros Hk H. apply (Z.mul_lt_mono_pos_r k); assumption. Qed.

(** The arithmetic of the error analysis: a value [mx / G] within the
    relative error of two roundings of [100 * d / t] has the same nearest
    tenth as the exact percentage, or one of its two at a tie, as long as
    [t] is below [2^32]. *)
Lemma nearest_tenth_of_approximation
    (d t n md mt mq mx A B S1 S2 G : Z) :
  1 <= d <= t → t < 2 ^ 32 →
  0 < A → 0 < B → 0 < S1 <= 4 → 0 < S2 → 0 < G →
  md = d * A → mt = t * B → 2 ^ 52 <= md → mt < 2 ^ 53 →
  G * S1 * S2 * B = 2 ^ 99 * A →
  Z.abs (mq * S1 * mt - md * 2 ^ 53) <= 3 * mt →
  Z.abs (mx * S2 - mq * (100 * 2 ^ 46)) <= 2 ^ 53 →
  - G < 2 * n * G - 20 * mx <= G →
  Z.abs (2 * n * t - 2000 * d) <= t.
Proof.
  intros Hd Ht HA HB HS1 HS2 HG Emd Emt Hmd Hmt HK Hq Hx Hn.
  apply Z.abs_le in Hq, Hx.
  set (X := mx * t - 100 * d * G).
  set (K := S1 * S2 * B).
  assert (HKpos : 0 < K) by (unfold K; apply Z.mul_pos_pos; [apply Z.mul_pos_pos|]; lia).
  set (u := mx * S2 - mq * (100 * 2 ^ 46)) in *.
  set (v := mq * S1 * mt - md * 2 ^ 53) in *.
  assert (EX : X * K = mt * S1 * u + 100 * 2 ^ 46 * v).
  { unfold X, K, u, v.
    transitivity (mx * t * (S1 * S2 * B) - 100 * d * (G * S1 * S2 * B)); [ring|].
    rewrite HK, Emd, Emt. change (2 ^ 99) with (2 ^ 53 * 2 ^ 46). ring. }
  assert (Hmtpos : 0 < mt) by (rewrite Emt; apply Z.mul_pos_pos; lia).
  assert (HW : 0 <= mt * S1 <= mt * 4).
  { split; [apply Z.mul_nonneg_nonneg; lia|apply Z.mul_le_mono_nonneg_l; lia]. }
  pose proof (mul_between (mt * S1) u (2 ^ 53) (proj1 HW) Hx) as U1.
  pose proof (mul_between (100 * 2 ^ 46) v (3 * mt) ltac:(lia) Hq) as V1.
  assert (HXK : - (mt * 2 ^ 56) < X * K < mt * 2 ^ 56).
  { rewrite EX. revert U1 V1 HW Hmtpos.
    generalize (mt * S1 * u) (100 * 2 ^ 46 * v) (mt * S1). intros a b w. lia. }
  assert (HA20 : 2 ^ 20 < A).
  { destruct (Z_lt_le_dec (2 ^ 20) A) as [H|H]; [exact H|exfalso].
    assert (d * A <= d * 2 ^ 20) by (apply Z.mul_le_mono_nonneg_l; lia). lia. }
  assert (HGK : G * K = 2 ^ 99 * A) by (unfold K; rewrite <- HK; ring).
  assert (H20a : 20 * X < G).
  { apply (mul_lt_cancel K); [exact HKpos|].
    replace (20 * X * K) with (20 * (X * K)) by ring. lia. }
  assert (H20b : - G < 20 * X).
  { apply (mul_lt_cancel K); [exact HKpos|].
    replace (20 * X * K) with (20 * (X * K)) by ring.
    replace (- G * K) with (- (G * K)) by ring. lia. }
  assert (EY : G * (2 * n * t - 2000 * d) = t * (2 * n * G - 20 * mx) + 20 * X)
    by (unfold X; ring).
  set (Y := 2 * n * t - 2000 * d) in *.
  set (p := 2 * n * G - 20 * mx) in *.
  pose proof (mul_between t p G ltac:(lia) ltac:(lia)) as P1.
  apply Z.abs_le. split.
  - assert (H : - (t + 1) < Y); [|lia].
    apply (mul_lt_cancel G); [exact HG|].
    replace (Y * G) with (G * Y) by ring. rewrite EY.
    replace (- (t + 1) * G) with (- (t * G) - G) by ring. lia.
  - assert (H : Y < t + 1); [|lia].
    apply (mul_lt_cancel G); [exact HG|].
    replace (Y * G) with (G * Y) by ring. rewrite EY.
    replace ((t + 1) * G) with (t * G + G) by ring. lia.
Qed.

(** For every count an array can reach, the tenths that [toFixed(1)] prints
    for [done / total * 100] lie within half a tenth of the exact
    percentage. *)
Lemma within_half_tenth_all (d t : Z) :
  0 <= d <= t → 1 <= t < 2 ^ 32 → within_half_tenth d t = true.
Proof.
  intros Hd Ht. unfold within_half_tenth, tenths, percent.
  rewrite FloatAxioms.mul_spec, FloatAxioms.div_spec.
  destruct (number_canonical t ltac:(lia)) as (mt & et & Et & Hmt & Het & Vt).
  rewrite Et.
  destruct (Z.eq_dec d 0) as [->|Hd0].
  - change (Prim2SF (number 0)) with (S754_zero false).
    change (Prim2SF 100%float) with (S754_finite false 7036874417766400 (-46)).
    cbn. apply Z.leb_le. lia.
  - destruct (number_canonical d ltac:(lia)) as (md & ed & Ed & Hmd & Hed & Vd).
    rewrite Ed.
    destruct (div_bound md mt ed et Hmd Hmt Hed Het) as (mq & eq & Eq & Hmq & Heq & Bq).
    rewrite Eq. clear Eq.
    assert (Hpa : 0 < 2 ^ (- ed)) by (apply Z.pow_pos_nonneg; lia).
    assert (Hpb : 0 < 2 ^ (- et)) by (apply Z.pow_pos_nonneg; lia).
    assert (Hba : ed <= et).
    { destruct (Z_le_gt_dec ed et) as [H|H]; [exact H|exfalso].
      assert (2 * 2 ^ (- ed) <= 2 ^ (- et)).
      { rewrite <- Z.pow_succ_r by lia. apply Z.pow_le_mono_r; lia. }
      assert (d * (2 * 2 ^ (- ed)) <= t * (2 * 2 ^ (- ed)))
        by (apply Z.mul_le_mono_nonneg_r; lia).
      assert (t * (2 * 2 ^ (- ed)) <= t * 2 ^ (- et))
        by (apply Z.mul_le_mono_nonneg_l; lia).
      replace (d * (2 * 2 ^ (- ed))) with (2 * (d * 2 ^ (- ed))) in * by ring.
      lia. }
    destruct (mul100_bound mq eq Hmq ltac:(lia)) as (mx & ex & Ex & Hmx & Hex & Bx).
    rewrite Ex. clear Ex.
    assert (Hneg : ex < 0) by lia.
    replace (0 <=? ex) with false by (symmetry; apply Z.leb_gt; exact Hneg).
    cbn [andb]. apply Z.leb_le.
    destruct (nearest_tenth_spec mx ex) as [_ Hn]. specialize (Hn Hneg).
    assert (HS1 : 0 < 2 ^ (eq - (ed - et - 53)) <= 4).
    { split; [apply Z.pow_pos_nonneg; lia|].
      change 4 with (2 ^ 2). apply Z.pow_le_mono_r; lia. }
    assert (HS2 : 0 < 2 ^ (ex - (eq - 46))) by (apply Z.pow_pos_nonneg; lia).
    assert (HG : 0 < 2 ^ (- ex)) by (apply Z.pow_pos_nonneg; lia).
    assert (HK : 2 ^ (- ex) * 2 ^ (eq - (ed - et - 53)) * 2 ^ (ex - (eq - 46)) * 2 ^ (- et)
                 = 2 ^ 99 * 2 ^ (- ed)).
    { rewrite <- !Z.pow_add_r by lia. f_equal. lia. }
    apply (nearest_tenth_of_approximation d t (nearest_tenth mx ex)
             (Z.pos md) (Z.pos mt) (Z.pos mq) (Z.pos mx)
             (2 ^ (- ed)) (2 ^ (- et))
             (2 ^ (eq - (ed - et - 53))) (2 ^ (ex - (eq - 46))) (2 ^ (- ex)));
      first [assumption | lia].
Qed.

(** The bound on the count is needed: with counts that no array can reach,
    the binary64 value can fall on the other side of a tie, and the tenths
    printed are then further than half a tenth from the exact percentage. *)
Example within_half_tenth_needs_bound :
  within_half_tenth 7063066511273 7392011000809 = false
  ∧ tenths (percent 7063066511273 7392011000809) = Some 955
  ∧ spec_tenths_half_up 7063066511273 7392011000809 = 956.
Proof. vm_compute. repeat split; reflexivity. Qed.

(** The tenths printed are those of the exact percentage rounded half up,
    or one less at an exact tie. *)
Lemma nearest_is_half_up_or_tie (n d t : Z) :
  0 < t → nearest_to_exact n d t →
  n = spec_tenths_half_up d t
  ∨ (n = spec_tenths_half_up d t - 1 ∧ (2000 * d + t) mod (2 * t) = 0).
Proof.
  unfold nearest_to_exact, spec_tenths_half_up. intros Ht H. apply Z.abs_le in H.
  pose proof (Z.div_mod (2000 * d + t) (2 * t) ltac:(lia)) as Hdm.
  pose proof (Z.mod_pos_bound (2000 * d + t) (2 * t) ltac:(lia)) as Hb.
  set (h := (2000 * d + t) / (2 * t)) in *.
  set (r := (2000 * d + t) mod (2 * t)) in *.
  assert (H1 : n <= h).
  { destruct (Z_le_gt_dec n h) as [L|L]; [exact L|exfalso].
    assert (2 * t * (h + 1) <= 2 * t * n) by (apply Z.mul_le_mono_nonneg_l; lia).
    lia. }
  assert (H2 : h - 1 <= n).
  { destruct (Z_le_gt_dec (h - 1) n) as [L|L]; [exact L|exfalso].
    assert (2 * t * (n + 2) <= 2 * t * h) by (apply Z.mul_le_mono_nonneg_l; lia).
    lia. }
  destruct (Z.eq_dec n h) as [E|E]; [left; exact E|right].
  assert (En : n = h - 1) by lia. split; [exact En|]. subst n.
  replace (2 * t * (h - 1)) with (2 * t * h - 2 * t) in * by ring. lia.
Qed.


(** *** The digits [toFixed] prints *)

Lemma digits_value_snoc (s : jsstring) (c : N) :
  digits_value (s ++ [c]) = 10 * digits_value s + (Z.of_N c - 48).
Proof. unfold digits_value. rewrite fold_left_app. reflexivity. Qed.

Lemma decimal_aux_app (fuel : nat) :
  ∀ n acc, decimal_aux fuel n acc = decimal_aux fuel n [] ++ acc.
Proof.
  induction fuel as [|fuel IH]; intros n acc; simpl; [reflexivity|].
  destruct (n <? 10); [reflexivity|].
  rewrite (IH (n / 10) (_ :: acc)), (IH (n / 10) [_]), <- app_assoc. reflexivity.
Qed.

Lemma decimal_aux_small (fuel : nat) (n : Z) :
  n < 10 → decimal_aux fuel n [] = [Z.to_N (48 + n mod 10)].
Proof.
  intros H. destruct fuel; simpl; [reflexivity|].
  rewrite (proj2 (Z.ltb_lt n 10) H). reflexivity.
Qed.

Lemma decimal_aux_value (fuel : nat) :
  ∀ n, 0 <= n < 10 ^ (Z.of_nat fuel + 1) → digits_value (decimal_aux fuel n []) = n.
Proof.
  induction fuel as [|fuel IH]; intros n Hn.
  - simpl in *. unfold digits_value. simpl.
    rewrite Z2N.id by (pose proof (Z.mod_pos_bound n 10); lia).
    rewrite Z.mod_small by lia. lia.
  - cbn [decimal_aux]. destruct (n <? 10) eqn:E.
    + apply Z.ltb_lt in E. unfold digits_value. simpl.
      rewrite Z2N.id by (pose proof (Z.mod_pos_bound n 10); lia).
      rewrite Z.mod_small by lia. lia.
    + apply Z.ltb_ge in E. rewrite decimal_aux_app, digits_value_snoc.
      rewrite IH.
      * rewrite Z2N.id by (pose proof (Z.mod_pos_bound n 10); lia).
        pose proof (Z.div_mod n 10). lia.
      * split; [apply Z.div_pos; lia|].
        apply Z.div_lt_upper_bound; [lia|].
        replace (Z.of_nat (S fuel) + 1) with (Z.succ (Z.of_nat fuel + 1)) in Hn by lia.
        rewrite Z.pow_succ_r in Hn by lia. lia.
Qed.

Lemma decimal_fuel_enough (n : Z) :
  0 <= n → n < 10 ^ (Z.of_nat (Z.to_nat (Z.log2 n)) + 1).
Proof.
  intros Hn. rewrite Z2Nat.id by apply Z.log2_nonneg.
  destruct (Z.eq_dec n 0) as [->|Hne]; [reflexivity|].
  pose proof (Z.log2_spec n ltac:(lia)) as [_ Hlt].
  eapply Z.lt_le_trans; [exact Hlt|].
  rewrite <- Z.add_1_r. apply Z.pow_le_mono_l.
  lia.
Qed.

Lemma decimal_value (n : Z) : 0 <= n → digits_value (decimal n) = n.
Proof.
  intros Hn. apply decimal_aux_value. split; [exact Hn | apply decimal_fuel_enough, Hn].
Qed.

(** [fixed1 n] is the decimal numeral of [n / 10], a point, and the digit
    [n mod 10]: it denotes [n] tenths. *)
Lemma fixed1_spec (n : Z) :
  0 <= n →
  ∃ whole, fixed1 n = whole ++ [46%N; Z.to_N (48 + n mod 10)]
           ∧ digits_value whole = n / 10.
Proof.
  intros Hn. unfold fixed1, decimal.
  destruct (Z.lt_ge_cases n 10) as [Hs|Hl].
  - rewrite (decimal_aux_small _ n Hs). simpl. exists [48%N]. split; [reflexivity|].
    rewrite Z.div_small by lia. reflexivity.
  - assert (Hlog : 3 <= Z.log2 n) by (apply Z.log2_le_pow2; simpl; lia).
    pose proof (decimal_fuel_enough n Hn) as Hf.
    destruct (Z.to_nat (Z.log2 n)) as [|fuel] eqn:Efuel; [lia|].
    cbn [decimal_aux]. rewrite (proj2 (Z.ltb_ge n 10) Hl).
    rewrite decimal_aux_app.
    set (whole := decimal_aux fuel (n / 10) []).
    assert (Hlen : (1 ≤ length whole)%nat).
    { unfold whole. destruct fuel; simpl; [lia|].
      destruct (n / 10 <? 10); [simpl; lia|].
      rewrite decimal_aux_app, length_app. simpl. lia. }
    rewrite length_app. cbn [length].
    destruct (length whole + 1 <=? 1)%nat eqn:E; [apply Nat.leb_le in E; lia|].
    rewrite !length_app. cbn [length].
    replace (length whole + 1 - 1)%nat with (length whole) by lia.
    rewrite take_app_length, drop_app_length.
    exists whole. split; [reflexivity|].
    apply decimal_aux_value. split; [apply Z.div_pos; lia|].
    apply Z.div_lt_upper_bound; [lia|].
    replace (Z.of_nat (S fuel) + 1) with (Z.succ (Z.of_nat fuel + 1)) in Hf by lia.
    rewrite Z.pow_succ_r in Hf by lia. lia.
Qed.


Lemma summarize_by_counts (tasks : list task) :
  let a := Z.of_nat (length (filter (λ t, done t = false) tasks)) in
  let d := Z.of_nat (length (filter (λ t, done t = true) tasks)) in
  summarize tasks
  = Stats.Make a d
      (if a + d =? 0 then PctNumber 0%float else PctString (toFixed1 (percent d (a + d)))).
Proof.
  unfold summarize, reduce, percent. rewrite count_active, count_done. reflexivity.
Qed.

(** C8, as stated, fails: with 23 of 80 tasks done the exact percentage is
    28.75, which rounds to 28.8 (ties upward, and ties to even as well), and
    [summarize] returns "28.7": the binary64 product is just below 28.75. *)
Lemma summarize_tie_counterexample :
  Stats.active (summarize eighty_tasks) = 57
  ∧ Stats.done (summarize eighty_tasks) = 23
  ∧ 23 * 100 * 100 = 2875 * (57 + 23)
  ∧ spec_tenths_half_up 23 80 = 288
  ∧ spec_tenths_half_even 23 80 = 288
  ∧ fixed1 288 = js "28.8"
  ∧ Stats.pct (summarize eighty_tasks) = PctString (Digits (js "28.7"))
  ∧ Stats.pct (summarize eighty_tasks) ≠ PctString (Digits (fixed1 288)).
Proof.
  assert (E : Stats.pct (summarize eighty_tasks) = PctString (Digits (js "28.7")))
    by (vm_compute; reflexivity).
  repeat split; try (vm_compute; reflexivity).
  rewrite E. vm_compute. discriminate.
Qed.

(** At another tie the upper neighbour is printed: 1 of 16 is 6.25 percent. *)
Example summarize_tie_upward :
  Stats.pct (summarize (Task (js "d") (js "done") true
                        :: replicate 15 (Task (js "o") (js "open") false)))
  = PctString (Digits (js "6.3")).
Proof. vm_compute. reflexivity. Qed.

(** C8, amended: [summarize] is a function of the list alone; [active] is
    the number of tasks with [done] false and [done] the number with [done]
    true; [pct] is the number 0 for the empty list and otherwise the string
    [x.toFixed(1)] of the binary64 value [x = done / total * 100]. For every
    list that is not empty (an array, so not longer than [2^32 - 1]) that
    string is [fixed1 n], the numeral of [n] tenths with [0 <= n <= 1000],
    and [n] lies within half a tenth of the exact percentage: it is the
    exact percentage rounded to one decimal, half up, except that at an
    exact tie the tenth below may be printed instead. [summarize([])] is
    [{active: 0, done: 0, pct: 0}] and every list with one active and two
    done tasks gives [{active: 1, done: 2, pct: "66.7"}]. *)
Theorem summarize_counts_and_percentage (tasks : list task) :
  Stats.active (summarize tasks)
  = Z.of_nat (length (filter (λ t, done t = false) tasks))
  ∧ Stats.done (summarize tasks)
    = Z.of_nat (length (filter (λ t, done t = true) tasks))
  ∧ Stats.active (summarize tasks) + Stats.done (summarize tasks)
    = Z.of_nat (length tasks)
  ∧ (tasks = [] → summarize tasks = Stats.Make 0 0 (PctNumber 0%float))
  ∧ (tasks ≠ [] →
     Stats.pct (summarize tasks)
     = PctString (toFixed1 (percent (Stats.done (summarize tasks))
                                    (Z.of_nat (length tasks)))))
  ∧ (tasks ≠ [] → Z.of_nat (length tasks) <= max_array_length →
     ∃ n, Stats.pct (summarize tasks) = PctString (Digits (fixed1 n))
          ∧ 0 <= n <= 1000
          ∧ nearest_to_exact n (Stats.done (summarize tasks)) (Z.of_nat (length tasks))
          ∧ (n = spec_tenths_half_up (Stats.done (summarize tasks))
                   (Z.of_nat (length tasks))
             ∨ (n = spec_tenths_half_up (Stats.done (summarize tasks))
                      (Z.of_nat (length tasks)) - 1
                ∧ (2000 * Stats.done (summarize tasks) + Z.of_nat (length tasks))
                    mod (2 * Z.of_nat (length tasks)) = 0)))
  ∧ (length (filter (λ t, done t = false) tasks) = 1%nat →
     length (filter (λ t, done t = true) tasks) = 2%nat →
     summarize tasks = Stats.Make 1 2 (PctString (Digits (js "66.7")))).
Proof.
  pose proof (summarize_by_counts tasks) as E. cbv zeta in E.
  pose proof (count_total tasks) as Ht.
  set (a := length (filter (λ t, done t = false) tasks)) in *.
  set (d := length (filter (λ t, done t = true) tasks)) in *.
  assert (Hsum : Z.of_nat a + Z.of_nat d = Z.of_nat (length tasks)) by lia.
  rewrite Hsum in E. rewrite E. simpl.
  split; [reflexivity|]. split; [reflexivity|]. split; [exact Hsum|].
  split; [|split; [|split]].
  - intros ->. reflexivity.
  - intros Hne. destruct tasks as [|t ts]; [congruence|]. reflexivity.
  - intros Hne Hlen. unfold max_array_length in Hlen.
    assert (Hpos : 1 <= Z.of_nat (length tasks)).
    { destruct tasks; [congruence|]. simpl length. lia. }
    rewrite (proj2 (Z.eqb_neq _ 0)) by lia.
    pose proof (within_half_tenth_all (Z.of_nat d) (Z.of_nat (length tasks))
                  ltac:(lia) ltac:(lia)) as Hc.
    unfold within_half_tenth in Hc.
    destruct (tenths (percent (Z.of_nat d) (Z.of_nat (length tasks)))) as [n|] eqn:En;
      [|discriminate].
    exists n. rewrite (toFixed1_tenths _ n En). split; [reflexivity|].
    apply Z.leb_le in Hc.
    assert (Hnear : nearest_to_exact n (Z.of_nat d) (Z.of_nat (length tasks))) by exact Hc.
    split; [|split; [exact Hnear|]].
    + apply Z.abs_le in Hc.
      assert (0 <= Z.of_nat d <= Z.of_nat (length tasks)) by lia.
      set (t := Z.of_nat (length tasks)) in *. set (dz := Z.of_nat d) in *.
      split.
      * destruct (Z_le_gt_dec 0 n) as [L|L]; [exact L|exfalso].
        assert (t * n <= t * (-1)) by (apply Z.mul_le_mono_nonneg_l; lia). lia.
      * destruct (Z_le_gt_dec n 1000) as [L|L]; [exact L|exfalso].
        assert (t * 1001 <= t * n) by (apply Z.mul_le_mono_nonneg_l; lia). lia.
    + apply nearest_is_half_up_or_tie; [lia|exact Hnear].
  - intros Ha Hd. rewrite <- Hsum, Ha, Hd. vm_compute. reflexivity.
Qed.

Lemma summarize_counts_and_percentage_witness :
  summarize [] = Stats.Make 0 0 (PctNumber 0%float)
  ∧ summarize [Task (js "a") (js "first") true; Task (js "b") (js "second") false;
               Task (js "c") (js "third") true]
    = Stats.Make 1 2 (PctString (Digits (js "66.7")))
  ∧ ∃ n, Stats.pct (summarize eighty_tasks) = PctString (Digits (fixed1 n))
         ∧ 0 <= n <= 1000
         ∧ nearest_to_exact n (Stats.done (summarize eighty_tasks))
             (Z.of_nat (length eighty_tasks))
         ∧ (n = spec_tenths_half_up (Stats.done (summarize eighty_tasks))
                  (Z.of_nat (length eighty_tasks))
            ∨ (n = spec_tenths_half_up (Stats.done (summarize eighty_tasks))
                     (Z.of_nat (length eighty_tasks)) - 1
               ∧ (2000 * Stats.done (summarize eighty_tasks)
                  + Z.of_nat (length eighty_tasks))
                   mod (2 * Z.of_nat (length eighty_tasks)) = 0)).
Proof.
  split; [|split].
  - apply (summarize_counts_and_percentage []). reflexivity.
  - apply (summarize_counts_and_percentage
             [Task (js "a") (js "first") true; Task (js "b") (js "second") false;
              Task (js "c") (js "third") true]); reflexivity.
  - apply (summarize_counts_and_percentage eighty_tasks).
    + discriminate.
    + vm_compute. discriminate.
Defined.


(** ** JSON: what [JSON.stringify] writes, [JSON.parse] reads back *)

Lemma hex_value_digit (d : N) : (d < 16)%N → hex_value (hex_digit d) = Some d.
Proof.
  intros H.
  assert (Hd : d ∈ [0; 1; 2; 3; 4; 5; 6; 7; 8; 9; 10; 11; 12; 13; 14; 15]%N).
  { rewrite !elem_of_cons. lia. }
  rewrite !elem_of_cons in Hd.
  repeat (destruct Hd as [->|Hd]; [reflexivity|]). inversion Hd.
Qed.

Lemma hex_digits_value (c : N) :
  (c < 65536)%N →
  (c / 4096 mod 16 * 4096 + c / 256 mod 16 * 256 + c / 16 mod 16 * 16 + c mod 16 = c)%N.
Proof.
  intros H.
  pose proof (N.Div0.div_mod c 16) as H1.
  pose proof (N.Div0.div_mod (c / 16) 16) as H2.
  pose proof (N.Div0.div_mod (c / 16 / 16) 16) as H3.
  pose proof (N.mod_small (c / 16 / 16 / 16) 16) as H4.
  rewrite !N.Div0.div_div in H2, H3, H4. rewrite !N.Div0.div_div in H3, H4.
  change (16 * 16)%N with 256%N in *. change (256 * 16)%N with 4096%N in *.
  change (16 * 256)%N with 4096%N in *.
  assert (Hq : (c / 4096 < 16)%N) by (apply N.Div0.div_lt_upper_bound; lia).
  specialize (H4 Hq). lia.
Qed.

(** An escape [\uXXXX] reads back as the code unit it was written for. *)
Lemma parse_chars_unicode_escape (c : N) (k : jsstring) :
  (c < 65536)%N →
  parse_chars (unicode_escape c ++ k)
  = match parse_chars k with
    | Some (str, r) => Some (c :: str, r)
    | None => None
    end.
Proof.
  intros H. unfold unicode_escape. cbn [app parse_chars].
  change (92 =? 34)%N with false. change (92 =? 92)%N with true.
  change (117 =? 117)%N with true. cbv iota.
  rewrite !hex_value_digit by (apply N.mod_upper_bound; discriminate).
  rewrite (hex_digits_value c H). reflexivity.
Qed.

Lemma parse_chars_literal (c : N) (k : jsstring) :
  (c =? 34)%N = false → (c =? 92)%N = false → (c <? 32)%N = false →
  parse_chars (c :: k)
  = match parse_chars k with
    | Some (str, r) => Some (c :: str, r)
    | None => None
    end.
Proof. intros H1 H2 H3. cbn [parse_chars]. rewrite H1, H2, H3. reflexivity. Qed.

Lemma parse_chars_quote_unit (c : N) (k : jsstring) :
  parse_chars (quote_unit c ++ k)
  = match parse_chars k with
    | Some (str, r) => Some (c :: str, r)
    | None => None
    end.
Proof.
  unfold quote_unit.
  destruct (c =? 8)%N eqn:E8; [apply N.eqb_eq in E8; subst c; reflexivity|].
  destruct (c =? 9)%N eqn:E9; [apply N.eqb_eq in E9; subst c; reflexivity|].
  destruct (c =? 10)%N eqn:E10; [apply N.eqb_eq in E10; subst c; reflexivity|].
  destruct (c =? 12)%N eqn:E12; [apply N.eqb_eq in E12; subst c; reflexivity|].
  destruct (c =? 13)%N eqn:E13; [apply N.eqb_eq in E13; subst c; reflexivity|].
  destruct (c =? 34)%N eqn:E34; [apply N.eqb_eq in E34; subst c; reflexivity|].
  destruct (c =? 92)%N eqn:E92; [apply N.eqb_eq in E92; subst c; reflexivity|].
  destruct (c <? 32)%N eqn:E32.
  - apply parse_chars_unicode_escape. apply N.ltb_lt in E32. lia.
  - apply parse_chars_literal; assumption.
Qed.

Lemma surrogate_range (c : N) :
  is_leading_surrogate c = true ∨ is_trailing_surrogate c = true →
  (c < 65536)%N ∧ (c =? 34)%N = false ∧ (c =? 92)%N = false ∧ (c <? 32)%N = false.
Proof.
  unfold is_leading_surrogate, is_trailing_surrogate.
  rewrite !andb_true_iff, !N.leb_le, !N.eqb_neq, N.ltb_ge. lia.
Qed.

(** The body of a quoted string, followed by the closing quote, reads back
    as the string. *)
Lemma parse_chars_quote_units (s : jsstring) :
  ∀ rest, parse_chars (quote_units s ++ 34%N :: rest) = Some (s, rest).
Proof.
  induction s as [s IH] using (induction_ltof1 _ (@length N)). unfold ltof in IH.
  intros rest. destruct s as [|c s]; [reflexivity|].
  cbn [quote_units].
  destruct (is_leading_surrogate c) eqn:Hl.
  - destruct (surrogate_range c (or_introl Hl)) as (Hc & H34 & H92 & H32).
    destruct s as [|c2 s2].
    + rewrite parse_chars_unicode_escape by exact Hc. reflexivity.
    + destruct (is_trailing_surrogate c2) eqn:Ht.
      * destruct (surrogate_range c2 (or_intror Ht)) as (_ & H34' & H92' & H32').
        cbn [app]. rewrite parse_chars_literal by assumption.
        rewrite parse_chars_literal by assumption.
        rewrite IH by (simpl; lia). reflexivity.
      * rewrite <- app_assoc, parse_chars_unicode_escape by exact Hc.
        rewrite IH by (simpl; lia). reflexivity.
  - destruct (is_trailing_surrogate c) eqn:Ht.
    + destruct (surrogate_range c (or_intror Ht)) as (Hc & _).
      rewrite <- app_assoc, parse_chars_unicode_escape by exact Hc.
      rewrite IH by (simpl; lia). reflexivity.
    + rewrite <- app_assoc, parse_chars_quote_unit.
      rewrite IH by (simpl; lia). reflexivity.
Qed.

(** The text of one task, written out, and of what follows it. *)
Lemma serialize_task (t : task) (rest : jsstring) :
  serialize (task_to_json t) ++ rest
  = [123; 34; 105; 100; 34; 58; 34]%N ++ quote_units (id t)
    ++ [34; 44; 34; 116; 105; 116; 108; 101; 34; 58; 34]%N ++ quote_units (title t)
    ++ [34; 44; 34; 100; 111; 110; 101; 34; 58]%N
    ++ (if done t then js "true" else js "false") ++ 125%N :: rest.
Proof.
  unfold task_to_json. cbn [serialize List.map join fst snd].
  unfold QuoteJSONString. destruct (done t); cbn -[quote_units];
    repeat (rewrite <- ?app_assoc; cbn -[quote_units]); reflexivity.
Qed.


Lemma parse_value_task (fuel : nat) (t : task) (rest : jsstring) :
  parse_value (5 + fuel) (serialize (task_to_json t) ++ rest)
  = Some (task_to_json t, rest).
Proof.
  rewrite serialize_task.
  cbn -[quote_units]. rewrite parse_chars_quote_units.
  cbn -[quote_units]. rewrite parse_chars_quote_units.
  cbn -[quote_units].
  destruct t as [i ti [|]]; reflexivity.
Qed.

Lemma join_cons_cons (x y : jsstring) (l : list jsstring) (k : jsstring) :
  join (js ",") (x :: y :: l) ++ k = x ++ 44%N :: (join (js ",") (y :: l) ++ k).
Proof. cbn [join]. rewrite <- !app_assoc. reflexivity. Qed.

Lemma join_length (x : jsstring) (l : list jsstring) :
  (length x + length l ≤ length (join (js ",") (x :: l)))%nat.
Proof.
  revert x. induction l as [|y l IH]; intros x.
  - simpl. lia.
  - cbn [join]. rewrite !length_app. specialize (IH y). simpl in *. lia.
Qed.

Lemma parse_elements_tasks (ts : list task) :
  ∀ (t : task) (fuel : nat) (rest : jsstring),
    (length ts ≤ fuel)%nat →
    parse_elements (6 + fuel)
      (join (js ",") (List.map serialize (List.map task_to_json (t :: ts))) ++ 93%N :: rest)
    = Some (List.map task_to_json (t :: ts), rest).
Proof.
  induction ts as [|t2 ts IH]; intros t fuel rest Hfuel.
  - cbn [List.map join]. change (6 + fuel)%nat with (S (5 + fuel)).
    cbn [parse_elements]. rewrite parse_value_task. reflexivity.
  - cbn [List.map]. rewrite join_cons_cons.
    change (6 + fuel)%nat with (S (5 + fuel)).
    cbn [parse_elements]. rewrite parse_value_task.
    cbn [skip_ws]. change (is_json_space 44) with false. cbv iota.
    change (44 =? 44)%N with true. cbv iota.
    simpl in Hfuel. destruct fuel as [|fuel]; [lia|].
    replace (5 + S fuel)%nat with (6 + fuel)%nat by lia.
    specialize (IH t2 fuel rest ltac:(lia)). cbn [List.map] in IH.
    rewrite IH. reflexivity.
Qed.

(** Parsing what [JSON.stringify] wrote for a task list gives the list. *)
Lemma JSON_parse_stringify (ts : list task) :
  JSON_parse (serialize (tasks_to_json ts)) = Normal (tasks_to_json ts).
Proof.
  destruct ts as [|t ts]; [reflexivity|].
  unfold JSON_parse, tasks_to_json. cbn [serialize].
  set (body := join (js ",") (List.map serialize (List.map task_to_json (t :: ts)))).
  assert (Hlen : (1 + length ts ≤ length body)%nat).
  { pose proof (join_length (serialize (task_to_json t))
                  (List.map serialize (List.map task_to_json ts))) as H.
    rewrite !length_map in H. cbn [List.map] in body. fold body in H.
    assert (1 ≤ length (serialize (task_to_json t)))%nat; [|lia].
    pose proof (serialize_task t []) as E. rewrite app_nil_r in E. rewrite E.
    simpl. lia. }
  change (js "[" ++ body ++ js "]") with (91%N :: (body ++ [93%N])).
  assert (Hhead : ∃ k, body ++ [93%N] = 123%N :: k).
  { unfold body. cbn [List.map]. destruct ts as [|t2 ts'].
    - cbn [List.map join]. rewrite serialize_task. eexists. reflexivity.
    - cbn [List.map]. rewrite join_cons_cons.
      rewrite serialize_task. eexists. reflexivity. }
  destruct Hhead as [k Hk].
  remember (2 * length (91%N :: body ++ [93%N]) + 2)%nat as F eqn:EF.
  assert (HF : ∃ fuel, F = S (6 + fuel) ∧ (length ts ≤ fuel)%nat).
  { exists (F - 7)%nat. subst F. cbn [length]. rewrite length_app. simpl. lia. }
  destruct HF as (fuel & -> & Hfuel).
  cbn [parse_value skip_ws]. change (is_json_space 91) with false. cbv iota.
  change (91 =? 34)%N with false. change (91 =? 91)%N with true. cbv iota.
  rewrite Hk. cbn [skip_ws]. change (is_json_space 123) with false. cbv iota.
  change (123 =? 93)%N with false. cbv iota. rewrite <- Hk.
  unfold body. rewrite (parse_elements_tasks ts t fuel [] Hfuel). reflexivity.
Qed.

Lemma as_tasks_to_json (ts : list task) : as_tasks (tasks_to_json ts) = Some ts.
Proof.
  unfold as_tasks, tasks_to_json. apply mapM_Some.
  induction ts as [|t ts IH]; simpl; constructor; [|exact IH].
  destruct t as [i ti d]. reflexivity.
Qed.

Lemma serialize_tasks_nonempty (ts : list task) :
  ∃ k, serialize (tasks_to_json ts) = 91%N :: k.
Proof. eexists. reflexivity. Qed.

Lemma alloc_tasks_spec (ts : list task) :
  ∀ h, alloc_tasks ts h = (seq (length h) (length ts), h ++ (ObjTask <$> ts)).
Proof.
  induction ts as [|t ts IH]; intros h; simpl.
  - rewrite app_nil_r. reflexivity.
  - rewrite IH, length_app, Nat.add_1_r, <- app_assoc. reflexivity.
Qed.

(** [init()] on a backend that holds what [persist()] wrote for [ts]: the
    store's list becomes [ts]. *)
Lemma init_reads_back (s : Store.closure) (w : world) (ts : list task) :
  getItem (Store.storageKey s) (localStorage w)
  = Normal (Some (serialize (tasks_to_json ts))) →
  ∃ s' w',
    Store.init s w = Some (s', w')
    ∧ contents s' w' = Some ts
    ∧ localStorage w' = localStorage w
    ∧ console w' = console w.
Proof.
  intros H. unfold Store.init. rewrite H.
  pose proof (JSON_parse_stringify ts) as P.
  destruct (serialize_tasks_nonempty ts) as [k Ek].
  destruct (serialize (tasks_to_json ts)) as [|c k'] eqn:E; [discriminate Ek|].
  rewrite P, as_tasks_to_json, alloc_tasks_spec. cbn [alloc].
  eexists _, _. split; [reflexivity|]. unfold contents. simpl.
  split; [|split; reflexivity].
  replace (length (heap w ++ (ObjTask <$> ts)))
    with (length (heap w) + length ts)%nat
    by (rewrite length_app, length_fmap; reflexivity).
  apply read_tasks_copies.
Qed.

(** What a successful [persist()] leaves under the key. *)
Lemma persisted_stored (key : jsstring) (ts : list task) (w : world) :
  denied (localStorage w) = false → quota (localStorage w) = None →
  getItem key (localStorage (persisted key ts w))
  = Normal (Some (serialize (tasks_to_json ts))).
Proof.
  intros Hd Hq. unfold persisted, setItem, getItem. rewrite Hd, Hq. simpl.
  rewrite ?Hd. rewrite lookup_insert_eq. reflexivity.
Qed.


(** ** Persistence *)

(** [persist()] followed by [init()] under the same key restores the list:
    the two private functions agree with each other. *)
Lemma init_after_persist (s s2 : Store.closure) (w : world) (ts : list task) :
  contents s w = Some ts →
  denied (localStorage w) = false → quota (localStorage w) = None →
  Store.storageKey s2 = Store.storageKey s →
  ∃ s' w',
    Store.init s2 (Store.persist s w) = Some (s', w') ∧ contents s' w' = Some ts.
Proof.
  intros H Hd Hq Hk. rewrite (persist_spec s w ts H).
  destruct (init_reads_back s2 (persisted (Store.storageKey s) ts w) ts)
    as (s' & w' & E & Hc & _).
  - rewrite Hk. apply persisted_stored; assumption.
  - exists s', w'. split; assumption.
Qed.

(** [createStore] does not read the backend: whatever it holds, the new
    store's list is empty and [list()] returns an empty array. *)
Lemma createStore_never_hydrates (key : jsstring) (w : world) :
  observe (Store.createStore key w) = Some []
  ∧ localStorage (snd (Store.createStore key w)) = localStorage w
  ∧ console (snd (Store.createStore key w)) = console w
  ∧ ∃ a w',
      Store.list (fst (Store.createStore key w)) (snd (Store.createStore key w))
      = (Normal a, w')
      ∧ read_tasks (heap w') a = Some []
      ∧ localStorage w' = localStorage w
      ∧ console w' = console w.
Proof.
  pose proof (createStore_contents key w) as H.
  split; [exact H|]. split; [reflexivity|]. split; [reflexivity|].
  rewrite (list_spec _ _ [] H). eexists _, _. split; [reflexivity|].
  split; [apply read_tasks_copies|]. split; reflexivity.
Qed.

(** C1 on the code: a store adds one task and persists it; a second store
    created with the same key finds the text in the backend and still lists
    nothing, because [createStore] never calls [init]. Calling [init] on the
    second store would have restored the task. *)
Theorem reload_loses_persisted_tasks :
  observe milk_store = Some [Task (js "t1") (js "Buy milk") false]
  ∧ getItem (js "focustasks_9889") (localStorage (snd milk_store))
    = Normal (Some (serialize (tasks_to_json [Task (js "t1") (js "Buy milk") false])))
  ∧ observe reloaded_store = Some []
  ∧ (∃ a w',
       Store.list (fst reloaded_store) (snd reloaded_store) = (Normal a, w')
       ∧ read_tasks (heap w') a = Some [])
  ∧ observe <$> Store.init (fst reloaded_store) (snd reloaded_store)
    = Some (Some [Task (js "t1") (js "Buy milk") false]).
Proof.
  split; [vm_compute; reflexivity|]. split; [vm_compute; reflexivity|].
  split; [vm_compute; reflexivity|]. split; [|vm_compute; reflexivity].
  eexists _, _. split; vm_compute; reflexivity.
Qed.

(** A write that the backend refuses is logged and the store carries on in
    memory. *)
Example persist_failure_is_logged :
  let st := after (Store.add (Candidate (js "t1") (Some (js "Buy milk")) None))
              (Store.createStore (js "focustasks_9889") full_world) in
  observe st = Some [Task (js "t1") (js "Buy milk") false]
  ∧ console (snd st) = [("Failed to save to localStorage:"%string, QuotaExceededError)]
  ∧ localStorage (snd st) = localStorage full_world.
Proof. vm_compute. repeat split; reflexivity. Qed.

(** The limit of the embedding of [init]: a stored text that is JSON but not
    a list of tasks. In the source [tasks] then holds that value. *)
Example init_outside_data_model :
  JSON_parse (js "5") = Normal (JNumber (js "5"))
  ∧ Store.init (fst (Store.createStore (js "focustasks_9889") foreign_world))
               (snd (Store.createStore (js "focustasks_9889") foreign_world))
    = None.
Proof. vm_compute. split; reflexivity. Qed.


(** ** Invariants of the reachable states *)

Lemma flipped_title (i : jsstring) (ts : list task) :
  Forall clean_title ts →
  Forall clean_title ((λ t, if decide (id t = i) then flipped t else t) <$> ts).
Proof.
  intros H. apply Forall_fmap. eapply Forall_impl; [exact H|].
  intros t Ht. simpl. destruct (decide (id t = i)); exact Ht.
Qed.

Lemma newTask_title (c : candidate) :
  Store.rejected (arg_title c) = false → clean_title (newTask c).
Proof.
  intros H. apply rejected_valid_title in H as (str & E & Hne).
  unfold clean_title, newTask. rewrite E. simpl.
  destruct (trim_split str) as (pre & post & _ & _ & _ & H1 & H2). auto.
Qed.

(** Every reachable store is well formed: its [tasks] variable refers to an
    array of task objects, and every title in it is clean. This is what the
    hypothesis [contents s w = Some ts] of the theorems asks for. *)
Lemma reachable_well_formed (st : state) :
  reachable st → ∃ ts, observe st = Some ts ∧ Forall clean_title ts.
Proof.
  induction 1 as [key w | c [s w] _ (ts & H & Ht) | i [s w] _ (ts & H & Ht)
                 | i [s w] _ (ts & H & Ht) | [s w] _ (ts & H & Ht)];
    unfold observe, after in *; cbn [fst snd] in *.
  - exists []. split; [apply createStore_contents | constructor].
  - destruct (Store.rejected (arg_title c)) eqn:E.
    + rewrite (add_rejected c s w E). cbn [fst snd]. exists ts. auto.
    + destruct (add_spec s w ts H c E) as (r & s' & w' & -> & Hc & _).
      cbn [fst snd]. eexists. split; [exact Hc|]. apply Forall_app.
      split; [exact Ht|]. apply Forall_singleton, newTask_title, E.
  - destruct (toggle_spec s w ts H i) as (r & s' & w' & -> & Hc & _).
    cbn [fst snd]. eexists. split; [exact Hc|]. apply flipped_title, Ht.
  - destruct (remove_spec s w ts H i) as (r & s' & w' & -> & Hc & _).
    cbn [fst snd]. eexists. split; [exact Hc|]. apply Forall_forall. intros t Hin.
    apply list_elem_of_filter in Hin as [_ Hin].
    revert t Hin. apply Forall_forall, Ht.
  - rewrite (list_spec s w ts H). exists ts. split; [|exact Ht].
    unfold contents. simpl. eapply read_tasks_prefix; [|exact H]. heap_grows.
Qed.

(** Every list of tasks with clean titles is the list of some reachable
    store: the theorems about "every list" are about lists the store can
    hold. *)
Lemma every_clean_list_reachable (ts : list task) :
  Forall clean_title ts →
  ∃ st, reachable st ∧ observe st = Some ts.
Proof.
  induction ts as [|t ts IH] using rev_ind; intros H.
  - exists app_store. split; [apply reach_createStore | vm_compute; reflexivity].
  - apply Forall_app in H as [Hts Ht]. destruct (IH Hts) as (st & Hr & Hc).
    destruct st as [s w].
    apply Forall_inv in Ht. destruct Ht as (Hne & Hs & He).
    set (c := Candidate (id t) (Some (title t)) (Some (done t))).
    assert (Htrim : trim (title t) = title t).
    { unfold trim. rewrite (trimStart_clean_id _ Hs). unfold trimEnd.
      rewrite (trimStart_clean_id _ He). apply rev_involutive. }
    assert (Hok : Store.rejected (arg_title c) = false).
    { apply rejected_valid_title. exists (title t). split; [reflexivity|].
      rewrite Htrim. exact Hne. }
    exists (after (Store.add c) (s, w)). split; [apply reach_add, Hr|].
    unfold observe, after in *. cbn [fst snd] in *.
    destruct (add_spec s w ts Hc c Hok) as (r & s' & w' & -> & Hc' & _).
    cbn [fst snd]. rewrite Hc'. unfold newTask, c. simpl. rewrite Htrim.
    destruct t; reflexivity.
Qed.


(** * Further properties of the store *)

(** ** Every mutator, uniformly *)

Lemma run_spec (m : mutation) (s : Store.closure) (w : world) (ts : list task) :
  contents s w = Some ts → accepted m →
  mutates_to s w (effect m ts) (run m s w).
Proof.
  intros H Ha. destruct m as [c|i|i]; simpl in *.
  - apply add_spec; assumption.
  - apply toggle_spec; assumption.
  - apply remove_spec; assumption.
Qed.

Lemma persisted_cases (key : jsstring) (ts : list task) (w : world) :
  (∃ st, setItem key (serialize (tasks_to_json ts)) (localStorage w) = Normal st
         ∧ localStorage (persisted key ts w) = st
         ∧ console (persisted key ts w) = console w)
  ∨ (∃ e, setItem key (serialize (tasks_to_json ts)) (localStorage w) = Throw e
          ∧ localStorage (persisted key ts w) = localStorage w
          ∧ console (persisted key ts w)
            = console w ++ [("Failed to save to localStorage:"%string, e)]).
Proof.
  unfold persisted. destruct (setItem _ _ _) as [st|e].
  - left. exists st. auto.
  - right. exists e. auto.
Qed.

Lemma setItem_other_keys (key value : jsstring) (st st' : Storage) :
  setItem key value st = Normal st' →
  items st' !! key = Some value
  ∧ (∀ k, k ≠ key → items st' !! k = items st !! k)
  ∧ quota st' = quota st ∧ denied st' = denied st.
Proof.
  unfold setItem. destruct (denied st) eqn:Hd; [discriminate|].
  destruct (quota st) as [q|] eqn:Hq.
  - destruct (used _ <=? q)%nat; [|discriminate]. intros [= <-]. simpl.
    rewrite lookup_insert_eq. repeat split; auto.
    intros k Hk. apply lookup_insert_ne. congruence.
  - intros [= <-]. simpl. rewrite lookup_insert_eq. repeat split; auto.
    intros k Hk. apply lookup_insert_ne. congruence.
Qed.

Lemma mutators_persist_snapshot_aux (m : mutation) (s : Store.closure) (w : world)
    (ts : list task) :
  contents s w = Some ts → accepted m →
  denied (localStorage w) = false → quota (localStorage w) = None →
  ∃ r s' w',
    run m s w = (Normal r, s', w')
    ∧ contents s' w' = Some (effect m ts)
    ∧ getItem (Store.storageKey s) (localStorage w')
      = Normal (Some (serialize (tasks_to_json (effect m ts)))).
Proof.
  intros H Ha Hd Hq.
  destruct (run_spec m s w ts H Ha) as (r & s' & w' & E & Hc & _ & _ & _ & Hst & _).
  exists r, s', w'. split; [exact E|]. split; [exact Hc|].
  rewrite Hst. apply persisted_stored; assumption.
Qed.

(** X1: on a backend that is accessible and unbounded, every accepted
    mutator ([add] with a valid title, [toggle], [remove]) returns normally
    and leaves under the store's key the JSON text of the list the store now
    holds, which is also the list it returns; nothing is logged. *)
Theorem mutators_persist_snapshot (m : mutation) (s : Store.closure) (w : world)
    (ts : list task) :
  contents s w = Some ts →
  accepted m →
  denied (localStorage w) = false →
  quota (localStorage w) = None →
  ∃ r s' w' ts',
    run m s w = (Normal r, s', w')
    ∧ contents s' w' = Some ts'
    ∧ read_tasks (heap w') r = Some ts'
    ∧ ts' = effect m ts
    ∧ Store.storageKey s' = Store.storageKey s
    ∧ getItem (Store.storageKey s) (localStorage w')
      = Normal (Some (serialize (tasks_to_json ts')))
    ∧ console w' = console w.
Proof.
  intros H Ha Hd Hq.
  destruct (run_spec m s w ts H Ha) as (r & s' & w' & E & Hc & Hr & Hk & _ & Hst & Hco).
  exists r, s', w', (effect m ts).
  split; [exact E|]. split; [exact Hc|]. split; [exact Hr|]. split; [reflexivity|].
  split; [exact Hk|]. split.
  - rewrite Hst. apply persisted_stored; assumption.
  - rewrite Hco. unfold persisted, setItem. rewrite Hd, Hq. reflexivity.
Qed.

Lemma mutators_persist_snapshot_witness :
  ∃ r s' w' ts',
    run (Toggle (js "a")) (fst twin_store) (snd twin_store) = (Normal r, s', w')
    ∧ contents s' w' = Some ts'
    ∧ read_tasks (heap w') r = Some ts'
    ∧ ts' = effect (Toggle (js "a"))
              [Task (js "a") (js "first") false; Task (js "a") (js "second") false]
    ∧ Store.storageKey s' = Store.storageKey (fst twin_store)
    ∧ getItem (Store.storageKey (fst twin_store)) (localStorage w')
      = Normal (Some (serialize (tasks_to_json ts')))
    ∧ console w' = console (snd twin_store).
Proof.
  apply (mutators_persist_snapshot (Toggle (js "a")) (fst twin_store) (snd twin_store)
           [Task (js "a") (js "first") false; Task (js "a") (js "second") false]).
  - vm_compute. reflexivity.
  - exact I.
  - vm_compute. reflexivity.
  - vm_compute. reflexivity.
Defined.

(** X2: whatever the backend does, an accepted mutator returns normally and
    the store holds the new list. When [setItem] throws, the exception goes
    no further: the backend is left as it was and exactly one entry, the
    exception under the label "Failed to save to localStorage:", is added to
    the console; when it succeeds the console is unchanged. *)
Theorem mutators_survive_backend_failure (m : mutation) (s : Store.closure)
    (w : world) (ts : list task) :
  contents s w = Some ts →
  accepted m →
  ∃ r s' w',
    run m s w = (Normal r, s', w')
    ∧ contents s' w' = Some (effect m ts)
    ∧ read_tasks (heap w') r = Some (effect m ts)
    ∧ ((∃ st, setItem (Store.storageKey s) (serialize (tasks_to_json (effect m ts)))
                (localStorage w) = Normal st
              ∧ localStorage w' = st ∧ console w' = console w)
       ∨ (∃ e, setItem (Store.storageKey s) (serialize (tasks_to_json (effect m ts)))
                 (localStorage w) = Throw e
               ∧ localStorage w' = localStorage w
               ∧ console w'
                 = console w ++ [("Failed to save to localStorage:"%string, e)])).
Proof.
  intros H Ha.
  destruct (run_spec m s w ts H Ha) as (r & s' & w' & E & Hc & Hr & Hk & _ & Hst & Hco).
  exists r, s', w'. split; [exact E|]. split; [exact Hc|]. split; [exact Hr|].
  rewrite Hst, Hco. apply persisted_cases.
Qed.

Lemma mutators_survive_backend_failure_witness :
  ∃ r s' w',
    run (Add (Candidate (js "t1") (Some (js "Buy milk")) None))
        (fst (Store.createStore (js "focustasks_9889") full_world))
        (snd (Store.createStore (js "focustasks_9889") full_world))
    = (Normal r, s', w')
    ∧ contents s' w'
      = Some (effect (Add (Candidate (js "t1") (Some (js "Buy milk")) None)) [])
    ∧ read_tasks (heap w') r
      = Some (effect (Add (Candidate (js "t1") (Some (js "Buy milk")) None)) [])
    ∧ ((∃ st, setItem
                (Store.storageKey (fst (Store.createStore (js "focustasks_9889") full_world)))
                (serialize (tasks_to_json
                   (effect (Add (Candidate (js "t1") (Some (js "Buy milk")) None)) [])))
                (localStorage (snd (Store.createStore (js "focustasks_9889") full_world)))
              = Normal st
              ∧ localStorage w' = st
              ∧ console w' = console (snd (Store.createStore (js "focustasks_9889") full_world)))
       ∨ (∃ e, setItem
                 (Store.storageKey (fst (Store.createStore (js "focustasks_9889") full_world)))
                 (serialize (tasks_to_json
                    (effect (Add (Candidate (js "t1") (Some (js "Buy milk")) None)) [])))
                 (localStorage (snd (Store.createStore (js "focustasks_9889") full_world)))
               = Throw e
               ∧ localStorage w'
                 = localStorage (snd (Store.createStore (js "focustasks_9889") full_world))
               ∧ console w'
                 = console (snd (Store.createStore (js "focustasks_9889") full_world))
                   ++ [("Failed to save to localStorage:"%string, e)])).
Proof.
  apply (mutators_survive_backend_failure
           (Add (Candidate (js "t1") (Some (js "Buy milk")) None))
           (fst (Store.createStore (js "focustasks_9889") full_world))
           (snd (Store.createStore (js "focustasks_9889") full_world)) []).
  - vm_compute. reflexivity.
  - vm_compute. reflexivity.
Defined.

(** X3: a mutator writes under the store's own key and nowhere else: every
    other key of the backend holds what it held, and the quota and the
    access switch are untouched, whether the write succeeds or not. *)
Theorem mutators_leave_other_keys (m : mutation) (s : Store.closure) (w : world)
    (ts : list task) :
  contents s w = Some ts →
  accepted m →
  ∃ r s' w',
    run m s w = (Normal r, s', w')
    ∧ (∀ k, k ≠ Store.storageKey s →
         items (localStorage w') !! k = items (localStorage w) !! k)
    ∧ quota (localStorage w') = quota (localStorage w)
    ∧ denied (localStorage w') = denied (localStorage w).
Proof.
  intros H Ha.
  destruct (run_spec m s w ts H Ha) as (r & s' & w' & E & _ & _ & _ & _ & Hst & _).
  exists r, s', w'. split; [exact E|]. rewrite Hst.
  destruct (persisted_cases (Store.storageKey s) (effect m ts) w)
    as [(st & Es & -> & _) | (e & _ & -> & _)].
  - destruct (setItem_other_keys _ _ _ _ Es) as (_ & Ho & Hq & Hd). auto.
  - auto.
Qed.

Lemma mutators_leave_other_keys_witness :
  ∃ r s' w',
    run (Remove (js "a")) (fst twin_store) (snd twin_store) = (Normal r, s', w')
    ∧ (∀ k, k ≠ Store.storageKey (fst twin_store) →
         items (localStorage w') !! k = items (localStorage (snd twin_store)) !! k)
    ∧ quota (localStorage w') = quota (localStorage (snd twin_store))
    ∧ denied (localStorage w') = denied (localStorage (snd twin_store)).
Proof.
  apply (mutators_leave_other_keys (Remove (js "a")) (fst twin_store) (snd twin_store)
           [Task (js "a") (js "first") false; Task (js "a") (js "second") false]).
  - vm_compute. reflexivity.
  - exact I.
Defined.

(** ** What a store logs *)

Lemma contents_after_list (s : Store.closure) (w : world) (ts : list task) :
  contents s w = Some ts →
  contents s (with_heap ((heap w ++ (ObjTask <$> ts))
                         ++ [ObjArray (seq (length (heap w)) (length ts))]) w)
  = Some ts.
Proof.
  intros H. unfold contents. simpl. eapply read_tasks_prefix; [|exact H]. heap_grows.
Qed.

(** One call of the public interface keeps the store well formed and adds
    to the console at most the failure of [persist]. *)
Lemma perform_console (c : call) (st : state) (ts : list task) :
  observe st = Some ts →
  ∃ ts' entries,
    observe (perform c st) = Some ts'
    ∧ console (snd (perform c st)) = console (snd st) ++ entries
    ∧ Forall save_failure entries.
Proof.
  destruct st as [s w]. unfold observe, perform, after. cbn [fst snd]. intros H.
  assert (Hmut : ∀ m, accepted m →
            ∃ ts' entries,
              observe (let '(_, s', w') := run m s w in (s', w')) = Some ts'
              ∧ console (snd (let '(_, s', w') := run m s w in (s', w')))
                = console w ++ entries
              ∧ Forall save_failure entries).
  { intros m Ha.
    destruct (run_spec m s w ts H Ha) as (r & s' & w' & -> & Hc & _ & _ & _ & _ & Hco).
    cbn [fst snd]. exists (effect m ts).
    destruct (persisted_cases (Store.storageKey s) (effect m ts) w)
      as [(st & _ & _ & E)|(e & _ & _ & E)]; rewrite E in Hco.
    - exists []. rewrite app_nil_r. split; [exact Hc|]. split; [exact Hco|constructor].
    - eexists. split; [exact Hc|]. split; [exact Hco|].
      repeat constructor. }
  destruct c as [[c|i|i]|].
  - destruct (Store.rejected (arg_title c)) eqn:E.
    + cbn [run]. rewrite (add_rejected c s w E). cbn [fst snd].
      exists ts, []. rewrite app_nil_r. split; [exact H|]. split; [reflexivity|constructor].
    + apply (Hmut (Add c)). exact E.
  - apply (Hmut (Toggle i)). exact I.
  - apply (Hmut (Remove i)). exact I.
  - rewrite (list_spec s w ts H). cbn [fst snd].
    exists ts, []. rewrite app_nil_r.
    split; [apply (contents_after_list s w ts H)|]. split; [reflexivity|constructor].
Qed.

Lemma perform_all_console (calls : list call) (st : state) (ts : list task) :
  observe st = Some ts →
  ∃ ts' entries,
    observe (perform_all calls st) = Some ts'
    ∧ console (snd (perform_all calls st)) = console (snd st) ++ entries
    ∧ Forall save_failure entries.
Proof.
  revert st ts. induction calls as [|c calls IH]; intros st ts H.
  - exists ts, []. rewrite app_nil_r. split; [exact H|]. split; [reflexivity|constructor].
  - destruct (perform_console c st ts H) as (ts1 & l1 & H1 & K1 & F1).
    destruct (IH (perform c st) ts1 H1) as (ts2 & l2 & H2 & K2 & F2).
    exists ts2, (l1 ++ l2). unfold perform_all in *. cbn [foldl].
    split; [exact H2|]. split; [|apply Forall_app; split; assumption].
    rewrite K2, K1, app_assoc. reflexivity.
Qed.

(** C2 on the code: when the value stored under the key cannot be
    deserialized, the store is constructed normally with an empty list, as
    the claim says, but the failure is not logged: construction leaves the
    console as it was, and whatever calls of [add], [toggle], [remove] and
    [list] follow, the console only ever gains failures of [persist].
    [createStore] never reads the backend. The routine [init], which would
    log the exception of [JSON.parse] under "Failed to load from
    localStorage:" and set the list to a new empty array, is defined and
    called nowhere. *)
Theorem hydration_failure_is_never_logged (key stored : jsstring) (w : world) (e : exn)
    (calls : list call) :
  getItem key (localStorage w) = Normal (Some stored) →
  stored ≠ [] →
  JSON_parse stored = Throw e →
  observe (Store.createStore key w) = Some []
  ∧ localStorage (snd (Store.createStore key w)) = localStorage w
  ∧ console (snd (Store.createStore key w)) = console w
  ∧ (∃ ts entries,
       observe (perform_all calls (Store.createStore key w)) = Some ts
       ∧ console (snd (perform_all calls (Store.createStore key w)))
         = console w ++ entries
       ∧ Forall save_failure entries)
  ∧ ∃ s' w',
      Store.init (fst (Store.createStore key w)) (snd (Store.createStore key w))
      = Some (s', w')
      ∧ contents s' w' = Some []
      ∧ console w' = console w ++ [("Failed to load from localStorage:"%string, e)]
      ∧ localStorage w' = localStorage w.
Proof.
  intros Hg Hne Hp.
  destruct (createStore_never_hydrates key w) as (H1 & H2 & H3 & _).
  split; [exact H1|]. split; [exact H2|]. split; [exact H3|]. split.
  - destruct (perform_all_console calls _ [] H1) as (ts & entries & Ho & Hc & Hf).
    exists ts, entries. rewrite H3 in Hc. auto.
  - rewrite createStore_spec. cbn [fst snd]. unfold Store.init. cbn [Store.storageKey].
    change (localStorage (with_heap (heap w ++ [ObjArray []]) w)) with (localStorage w).
    rewrite Hg. destruct stored as [|c k]; [congruence|]. rewrite Hp.
    cbn [alloc]. eexists _, _. split; [reflexivity|].
    split; [|split; reflexivity].
    unfold contents. cbn. apply read_tasks_alloc. reflexivity.
Qed.

Lemma hydration_failure_is_never_logged_witness :
  observe (Store.createStore (js "focustasks_9889") corrupt_world) = Some []
  ∧ localStorage (snd (Store.createStore (js "focustasks_9889") corrupt_world))
    = localStorage corrupt_world
  ∧ console (snd (Store.createStore (js "focustasks_9889") corrupt_world))
    = console corrupt_world
  ∧ (∃ ts entries,
       observe (perform_all
                  [ListTasks;
                   Mutate (Add (Candidate (js "t1") (Some (js "Buy milk")) None));
                   Mutate (Toggle (js "t1")); ListTasks]
                  (Store.createStore (js "focustasks_9889") corrupt_world)) = Some ts
       ∧ console (snd (perform_all
                         [ListTasks;
                          Mutate (Add (Candidate (js "t1") (Some (js "Buy milk")) None));
                          Mutate (Toggle (js "t1")); ListTasks]
                         (Store.createStore (js "focustasks_9889") corrupt_world)))
         = console corrupt_world ++ entries
       ∧ Forall save_failure entries)
  ∧ ∃ s' w',
      Store.init (fst (Store.createStore (js "focustasks_9889") corrupt_world))
                 (snd (Store.createStore (js "focustasks_9889") corrupt_world))
      = Some (s', w')
      ∧ contents s' w' = Some []
      ∧ console w'
        = console corrupt_world
          ++ [("Failed to load from localStorage:"%string, SyntaxError)]
      ∧ localStorage w' = localStorage corrupt_world.
Proof.
  apply (hydration_failure_is_never_logged (js "focustasks_9889") (js "{oops")
           corrupt_world SyntaxError).
  - vm_compute. reflexivity.
  - discriminate.
  - vm_compute. reflexivity.
Defined.


(** ** The persisted text *)

(** X4: the text [persist] writes for a task list is read back by
    [JSON.parse] as that list, object by object and field by field, whatever
    the ids and titles contain (quotes, backslashes, control characters, lone
    surrogates); two different lists are never persisted as the same text. *)
Theorem persisted_text_decodes (ts : list task) :
  JSON_parse (serialize (tasks_to_json ts)) = Normal (tasks_to_json ts)
  ∧ as_tasks (tasks_to_json ts) = Some ts
  ∧ ∀ ts2, serialize (tasks_to_json ts2) = serialize (tasks_to_json ts) → ts2 = ts.
Proof.
  split; [apply JSON_parse_stringify|]. split; [apply as_tasks_to_json|].
  intros ts2 E.
  pose proof (JSON_parse_stringify ts2) as P2. rewrite E, JSON_parse_stringify in P2.
  assert (J : tasks_to_json ts = tasks_to_json ts2) by congruence.
  pose proof (as_tasks_to_json ts2) as A2.
  rewrite <- J, as_tasks_to_json in A2. congruence.
Qed.

(** X5: hydration reads what the mutators write. After an accepted mutator
    on an accessible, unbounded backend, [init()] run in any closure with the
    same key, whatever list that closure held, returns normally and leaves
    exactly the mutator's list in it, without touching the backend or the
    console. *)
Theorem init_restores_mutated_list (m : mutation) (s s2 : Store.closure) (w : world)
    (ts : list task) :
  contents s w = Some ts →
  accepted m →
  denied (localStorage w) = false →
  quota (localStorage w) = None →
  Store.storageKey s2 = Store.storageKey s →
  ∃ r s' w' s3 w3,
    run m s w = (Normal r, s', w')
    ∧ contents s' w' = Some (effect m ts)
    ∧ Store.init s2 w' = Some (s3, w3)
    ∧ contents s3 w3 = Some (effect m ts)
    ∧ Store.storageKey s3 = Store.storageKey s
    ∧ localStorage w3 = localStorage w'
    ∧ console w3 = console w'.
Proof.
  intros H Ha Hd Hq Hk.
  destruct (run_spec m s w ts H Ha) as (r & s' & w' & E & Hc & _ & _ & _ & Hst & _).
  assert (Hget : getItem (Store.storageKey s2) (localStorage w')
                 = Normal (Some (serialize (tasks_to_json (effect m ts))))).
  { rewrite Hk, Hst. apply persisted_stored; assumption. }
  destruct (init_reads_back s2 w' (effect m ts) Hget) as (s3 & w3 & Ei & Hc3 & Hs3 & Hco3).
  exists r, s', w', s3, w3. repeat split; auto.
  unfold Store.init in Ei. rewrite Hget in Ei.
  destruct (serialize (tasks_to_json (effect m ts))) as [|c k]; [|].
  - injection Ei as <- _. exact Hk.
  - destruct (JSON_parse (c :: k)) as [j|e].
    + destruct (as_tasks j) as [l|]; [|discriminate].
      destruct (alloc_tasks l (heap w')) as [ls h1]. cbn [alloc] in Ei.
      injection Ei as <- _. exact Hk.
    + cbn [alloc] in Ei. injection Ei as <- _. exact Hk.
Qed.

Lemma init_restores_mutated_list_witness :
  ∃ r s' w' s3 w3,
    run (Add (Candidate (js "t1") (Some (js "Buy milk")) None))
        (fst app_store) (snd app_store) = (Normal r, s', w')
    ∧ contents s' w'
      = Some (effect (Add (Candidate (js "t1") (Some (js "Buy milk")) None)) [])
    ∧ Store.init (Store.Closure (js "focustasks_9889") 0) w' = Some (s3, w3)
    ∧ contents s3 w3
      = Some (effect (Add (Candidate (js "t1") (Some (js "Buy milk")) None)) [])
    ∧ Store.storageKey s3 = Store.storageKey (fst app_store)
    ∧ localStorage w3 = localStorage w'
    ∧ console w3 = console w'.
Proof.
  apply (init_restores_mutated_list
           (Add (Candidate (js "t1") (Some (js "Buy milk")) None))
           (fst app_store) (Store.Closure (js "focustasks_9889") 0) (snd app_store) []).
  - vm_compute. reflexivity.
  - vm_compute. reflexivity.
  - reflexivity.
  - reflexivity.
  - reflexivity.
Defined.

(** X6: a store never merges with what is persisted. After the first
    accepted [add] of a store just created, the store holds the one new
    task, whatever the backend held under the key, a longer list included.
    When the write succeeds, the text under the key is replaced by the text
    of the one task; when [setItem] throws, the old text stays and the
    failure is logged. *)
Theorem first_add_overwrites_persisted (key : jsstring) (w : world) (c : candidate) :
  valid_title (arg_title c) →
  ∃ r s' w',
    Store.add c (fst (Store.createStore key w)) (snd (Store.createStore key w))
    = (Normal r, s', w')
    ∧ contents s' w' = Some [newTask c]
    ∧ ((∃ st, setItem key (serialize (tasks_to_json [newTask c])) (localStorage w)
              = Normal st
              ∧ localStorage w' = st
              ∧ items st !! key = Some (serialize (tasks_to_json [newTask c]))
              ∧ console w' = console w)
       ∨ (∃ e, setItem key (serialize (tasks_to_json [newTask c])) (localStorage w)
               = Throw e
               ∧ localStorage w' = localStorage w
               ∧ console w'
                 = console w ++ [("Failed to save to localStorage:"%string, e)])).
Proof.
  intros Hv. apply rejected_valid_title in Hv.
  destruct (add_spec (fst (Store.createStore key w)) (snd (Store.createStore key w)) []
              (createStore_contents key w) c Hv)
    as (r & s' & w' & E & Hc & _ & _ & _ & Hst & Hco).
  exists r, s', w'. split; [exact E|]. split; [exact Hc|].
  rewrite createStore_spec in Hst, Hco. cbn [fst snd Store.storageKey] in Hst, Hco.
  cbn [app] in Hst, Hco.
  destruct (persisted_with_heap key [newTask c] (heap w ++ [ObjArray []]) w) as [Es Ec].
  rewrite Es in Hst. rewrite Ec in Hco.
  destruct (persisted_cases key [newTask c] w)
    as [(st & Eset & Hl & Hk)|(e & Eset & Hl & Hk)].
  - left. exists st. split; [exact Eset|]. split; [congruence|].
    split; [apply (setItem_other_keys _ _ _ _ Eset)|congruence].
  - right. exists e. split; [exact Eset|]. split; congruence.
Qed.

Lemma first_add_overwrites_persisted_witness :
  ∃ r s' w',
    Store.add (Candidate (js "t2") (Some (js "Walk")) None)
      (fst reloaded_store) (snd reloaded_store) = (Normal r, s', w')
    ∧ contents s' w' = Some [newTask (Candidate (js "t2") (Some (js "Walk")) None)]
    ∧ ((∃ st, setItem (js "focustasks_9889")
                (serialize (tasks_to_json
                   [newTask (Candidate (js "t2") (Some (js "Walk")) None)]))
                (localStorage (snd milk_store)) = Normal st
              ∧ localStorage w' = st
              ∧ items st !! js "focustasks_9889"
                = Some (serialize (tasks_to_json
                          [newTask (Candidate (js "t2") (Some (js "Walk")) None)]))
              ∧ console w' = console (snd milk_store))
       ∨ (∃ e, setItem (js "focustasks_9889")
                 (serialize (tasks_to_json
                    [newTask (Candidate (js "t2") (Some (js "Walk")) None)]))
                 (localStorage (snd milk_store)) = Throw e
               ∧ localStorage w' = localStorage (snd milk_store)
               ∧ console w'
                 = console (snd milk_store)
                   ++ [("Failed to save to localStorage:"%string, e)])).
Proof.
  apply (first_add_overwrites_persisted (js "focustasks_9889") (snd milk_store)
           (Candidate (js "t2") (Some (js "Walk")) None)).
  exists (js "Walk"). split; [reflexivity|]. vm_compute. discriminate.
Defined.


(** ** How the mutators compose *)

Lemma after_run (m : mutation) (st : state) (ts : list task) :
  observe st = Some ts → accepted m →
  observe (after (run m) st) = Some (effect m ts).
Proof.
  destruct st as [s w]. unfold observe, after. cbn [fst snd]. intros H Ha.
  destruct (run_spec m s w ts H Ha) as (r & s' & w' & -> & Hc & _). exact Hc.
Qed.

Lemma effect_remove_add (c : candidate) (ts : list task) :
  effect (Remove (arg_id c)) (effect (Add c) ts) = filter (λ t, id t ≠ arg_id c) ts.
Proof.
  simpl. rewrite filter_app, filter_cons_False, filter_nil, app_nil_r; [reflexivity|].
  intros H. apply H. reflexivity.
Qed.

(** X7: [remove] undoes [add]. After an accepted [add] of a candidate,
    [remove] of the candidate's id leaves the tasks that were there before
    and whose id is different; when the id was new to the list, the list is
    exactly the one before the [add]. *)
Theorem remove_undoes_add (c : candidate) (st : state) (ts : list task) :
  observe st = Some ts →
  valid_title (arg_title c) →
  observe (after (Store.remove (arg_id c)) (after (Store.add c) st))
  = Some (filter (λ t, id t ≠ arg_id c) ts)
  ∧ (arg_id c ∉ id <$> ts →
     observe (after (Store.remove (arg_id c)) (after (Store.add c) st)) = Some ts).
Proof.
  intros H Hv. apply rejected_valid_title in Hv.
  pose proof (after_run (Add c) st ts H Hv) as H1.
  pose proof (after_run (Remove (arg_id c)) _ _ H1 I) as H2.
  rewrite effect_remove_add in H2. split; [exact H2|].
  intros Hn. rewrite (remove_absent _ _ Hn) in H2. exact H2.
Qed.

Lemma remove_undoes_add_witness :
  observe (after (Store.remove (js "b"))
             (after (Store.add (Candidate (js "b") (Some (js "third")) None)) twin_store))
  = Some (filter (λ t, id t ≠ js "b")
            [Task (js "a") (js "first") false; Task (js "a") (js "second") false])
  ∧ (js "b" ∉ id <$> [Task (js "a") (js "first") false; Task (js "a") (js "second") false] →
     observe (after (Store.remove (js "b"))
                (after (Store.add (Candidate (js "b") (Some (js "third")) None)) twin_store))
     = Some [Task (js "a") (js "first") false; Task (js "a") (js "second") false]).
Proof.
  apply (remove_undoes_add (Candidate (js "b") (Some (js "third")) None) twin_store
           [Task (js "a") (js "first") false; Task (js "a") (js "second") false]).
  - vm_compute. reflexivity.
  - exists (js "third"). split; [reflexivity|]. vm_compute. discriminate.
Defined.

Lemma effect_toggle_toggle (i j : jsstring) (ts : list task) :
  effect (Toggle j) (effect (Toggle i) ts) = effect (Toggle i) (effect (Toggle j) ts).
Proof.
  simpl. rewrite <- !list_fmap_compose. apply list_fmap_ext. intros k t _. simpl.
  unfold flipped.
  repeat (case_decide; simpl in * ); try reflexivity; congruence.
Qed.

Lemma effect_remove_remove (i j : jsstring) (ts : list task) :
  effect (Remove j) (effect (Remove i) ts) = effect (Remove i) (effect (Remove j) ts).
Proof.
  simpl. rewrite !list_filter_filter. apply list_filter_iff. tauto.
Qed.

Lemma effect_remove_twice (i : jsstring) (ts : list task) :
  effect (Remove i) (effect (Remove i) ts) = effect (Remove i) ts.
Proof.
  simpl. rewrite list_filter_filter. apply list_filter_iff. tauto.
Qed.

Lemma effect_remove_toggle (i j : jsstring) (ts : list task) :
  effect (Remove i) (effect (Toggle j) ts) = effect (Toggle j) (effect (Remove i) ts).
Proof.
  simpl. induction ts as [|t ts IH]; [reflexivity|].
  rewrite fmap_cons, !filter_cons, IH.
  assert (Hid : id (if decide (id t = j) then flipped t else t) = id t)
    by (destruct (decide (id t = j)); reflexivity).
  rewrite Hid. destruct (decide (id t ≠ i)); [rewrite fmap_cons|]; reflexivity.
Qed.

(** X8: the order of two calls among [toggle] and [remove] does not matter
    for the list they leave, whether or not the ids are the same: two
    toggles commute, two removes commute, a toggle and a remove commute; and
    a second [remove] of the same id changes nothing. *)
Theorem toggle_and_remove_commute (i j : jsstring) (st : state) (ts : list task) :
  observe st = Some ts →
  observe (after (Store.toggle j) (after (Store.toggle i) st))
  = observe (after (Store.toggle i) (after (Store.toggle j) st))
  ∧ observe (after (Store.remove j) (after (Store.remove i) st))
    = observe (after (Store.remove i) (after (Store.remove j) st))
  ∧ observe (after (Store.remove i) (after (Store.toggle j) st))
    = observe (after (Store.toggle j) (after (Store.remove i) st))
  ∧ observe (after (Store.remove i) (after (Store.remove i) st))
    = observe (after (Store.remove i) st).
Proof.
  intros H.
  pose proof (λ m, after_run m st ts H) as Hone.
  pose proof (λ m1 Ha1 m2, after_run m2 _ _ (Hone m1 Ha1)) as Htwo.
  split; [|split; [|split]].
  - etrans; [exact (Htwo (Toggle i) I (Toggle j) I)|]. symmetry.
    etrans; [exact (Htwo (Toggle j) I (Toggle i) I)|].
    f_equal. apply effect_toggle_toggle.
  - etrans; [exact (Htwo (Remove i) I (Remove j) I)|]. symmetry.
    etrans; [exact (Htwo (Remove j) I (Remove i) I)|].
    f_equal. apply effect_remove_remove.
  - etrans; [exact (Htwo (Toggle j) I (Remove i) I)|]. symmetry.
    etrans; [exact (Htwo (Remove i) I (Toggle j) I)|].
    f_equal. symmetry. apply effect_remove_toggle.
  - etrans; [exact (Htwo (Remove i) I (Remove i) I)|]. symmetry.
    etrans; [exact (Hone (Remove i) I)|].
    f_equal. symmetry. apply effect_remove_twice.
Qed.

Lemma toggle_and_remove_commute_witness :
  observe (after (Store.toggle (js "b")) (after (Store.toggle (js "a")) twin_store))
  = observe (after (Store.toggle (js "a")) (after (Store.toggle (js "b")) twin_store))
  ∧ observe (after (Store.remove (js "b")) (after (Store.remove (js "a")) twin_store))
    = observe (after (Store.remove (js "a")) (after (Store.remove (js "b")) twin_store))
  ∧ observe (after (Store.remove (js "a")) (after (Store.toggle (js "b")) twin_store))
    = observe (after (Store.toggle (js "b")) (after (Store.remove (js "a")) twin_store))
  ∧ observe (after (Store.remove (js "a")) (after (Store.remove (js "a")) twin_store))
    = observe (after (Store.remove (js "a")) twin_store).
Proof.
  apply (toggle_and_remove_commute (js "a") (js "b") twin_store
           [Task (js "a") (js "first") false; Task (js "a") (js "second") false]).
  vm_compute. reflexivity.
Defined.

(** ** Titles in reachable stores *)

Lemma clean_title_fixed (t : task) :
  clean_title t →
  title t ≠ [] ∧ trim (title t) = title t ∧ Store.rejected (Some (title t)) = false.
Proof.
  intros (Hne & Hs & He).
  assert (Htrim : trim (title t) = title t).
  { unfold trim. rewrite (trimStart_clean_id _ Hs). unfold trimEnd.
    rewrite (trimStart_clean_id _ He). apply rev_involutive. }
  split; [exact Hne|]. split; [exact Htrim|].
  apply rejected_valid_title. exists (title t). split; [reflexivity|].
  rewrite Htrim. exact Hne.
Qed.

(** X9: in every state reached from [createStore] by [add], [toggle],
    [remove] and [list], the store is well formed and every title it holds
    is non-empty, has no white space at either end (it is a fixed point of
    [trim]) and would pass the validation of [add] again. *)
Theorem reachable_titles_are_trimmed (st : state) :
  reachable st →
  ∃ ts, observe st = Some ts
        ∧ ∀ t, t ∈ ts →
            title t ≠ [] ∧ trim (title t) = title t
            ∧ Store.rejected (Some (title t)) = false.
Proof.
  intros Hr. destruct (reachable_well_formed st Hr) as (ts & H & Hclean).
  exists ts. split; [exact H|]. intros t Ht. apply clean_title_fixed.
  revert t Ht. apply Forall_forall, Hclean.
Qed.

Lemma reachable_titles_are_trimmed_witness :
  ∃ ts, observe twin_store = Some ts
        ∧ ∀ t, t ∈ ts →
            title t ≠ [] ∧ trim (title t) = title t
            ∧ Store.rejected (Some (title t)) = false.
Proof.
  apply (reachable_titles_are_trimmed twin_store).
  apply reach_add, reach_add, reach_createStore.
Defined.

(** ** [summarize] and the order of the list *)

Lemma filter_done_fmap (b : bool) (ts : list task) :
  length (filter (λ t, done t = b) ts) = length (filter (λ d, d = b) (done <$> ts)).
Proof.
  induction ts as [|t ts IH]; [reflexivity|].
  rewrite fmap_cons, !filter_cons. destruct (decide (done t = b)); simpl; lia.
Qed.

(** X10: [summarize] depends on the [done] flags only, not on their order
    and not on ids or titles: two lists whose flags are the same up to
    permutation have the same summary. *)
Theorem summarize_ignores_order (ts ts' : list task) :
  (done <$> ts) ≡ₚ (done <$> ts') → summarize ts = summarize ts'.
Proof.
  intros Hp. pose proof (summarize_by_counts ts) as E.
  pose proof (summarize_by_counts ts') as E'. cbv zeta in E, E'.
  rewrite E, E', !filter_done_fmap.
  assert (Hb : ∀ b, length (filter (λ d, d = b) (done <$> ts))
                  = length (filter (λ d, d = b) (done <$> ts'))).
  { intros b. apply Permutation_length. rewrite Hp. reflexivity. }
  rewrite !Hb. reflexivity.
Qed.

Lemma summarize_ignores_order_witness :
  summarize [Task (js "a") (js "first") true; Task (js "b") (js "second") false]
  = summarize [Task (js "x") (js "other") false; Task (js "y") (js "names") true].
Proof.
  apply (summarize_ignores_order
           [Task (js "a") (js "first") true; Task (js "b") (js "second") false]
           [Task (js "x") (js "other") false; Task (js "y") (js "names") true]).
  simpl. apply Permutation_swap.
Defined.


(** * [escapeHtml] *)

Lemma replace_all_app (c : N) (by_ s t : jsstring) :
  replace_all c by_ (s ++ t) = replace_all c by_ s ++ replace_all c by_ t.
Proof.
  induction s as [|x s IH]; simpl; [reflexivity|]. rewrite IH, app_assoc. reflexivity.
Qed.

Lemma escape_text_app (s t : jsstring) :
  escape_text (s ++ t) = escape_text s ++ escape_text t.
Proof. unfold escape_text. rewrite !replace_all_app. reflexivity. Qed.

Lemma escape_text_unit (c : N) : escape_text [c] = escape_unit c.
Proof.
  unfold escape_text, escape_unit. simpl.
  destruct (c =? 38)%N eqn:E1; [reflexivity|]. simpl.
  destruct (c =? 160)%N eqn:E2; [reflexivity|]. simpl.
  destruct (c =? 60)%N eqn:E3; [reflexivity|]. simpl.
  destruct (c =? 62)%N eqn:E4; reflexivity.
Qed.

Lemma escape_text_units (data : jsstring) :
  escape_text data = concat (escape_unit <$> data).
Proof.
  induction data as [|x l IH]; [reflexivity|].
  change (x :: l) with ([x] ++ l). rewrite escape_text_app, escape_text_unit, IH.
  reflexivity.
Qed.

(** The four passes amount to one pass that rewrites each code unit on its
    own. *)
Lemma escapeHtml_units (text : jsstring) :
  escapeHtml text = concat (escape_unit <$> text).
Proof.
  destruct text as [|c text]; [reflexivity|].
  unfold escapeHtml. cbn [List.map concat]. rewrite app_nil_r.
  apply escape_text_units.
Qed.

Lemma escape_unit_cases (c : N) :
  (c = 38%N ∧ escape_unit c = js "&amp;")
  ∨ (c = 160%N ∧ escape_unit c = js "&nbsp;")
  ∨ (c = 60%N ∧ escape_unit c = js "&lt;")
  ∨ (c = 62%N ∧ escape_unit c = js "&gt;")
  ∨ (¬ html_special c ∧ escape_unit c = [c]).
Proof.
  unfold escape_unit, html_special.
  destruct (c =? 38)%N eqn:E1; [apply N.eqb_eq in E1; auto|].
  destruct (c =? 160)%N eqn:E2; [apply N.eqb_eq in E2; auto|].
  destruct (c =? 60)%N eqn:E3; [apply N.eqb_eq in E3; auto 6|].
  destruct (c =? 62)%N eqn:E4; [apply N.eqb_eq in E4; auto 6|].
  apply N.eqb_neq in E1, E2, E3, E4. right. right. right. right.
  split; [|reflexivity]. intros [H|[H|[H|H]]]; congruence.
Qed.

(** Two code units whose escapes start two equal texts are equal, and so are
    the rests: the escapes form a prefix code. *)
Lemma escape_unit_prefix (c1 c2 : N) (r1 r2 : jsstring) :
  escape_unit c1 ++ r1 = escape_unit c2 ++ r2 → c1 = c2 ∧ r1 = r2.
Proof.
  destruct (escape_unit_cases c1) as [[-> ->]|[[-> ->]|[[-> ->]|[[-> ->]|[H1 ->]]]]];
    destruct (escape_unit_cases c2) as [[-> ->]|[[-> ->]|[[-> ->]|[[-> ->]|[H2 ->]]]]];
    simpl; intros E; try discriminate E;
    try (injection E as E; split; [reflexivity | exact E]);
    try (injection E as E1 E; exfalso;
         first [apply H1 | apply H2]; unfold html_special; auto; fail).
  injection E as E1 E. auto.
Qed.

Lemma escape_unit_nonempty (c : N) : escape_unit c ≠ [].
Proof.
  destruct (escape_unit_cases c) as [[_ ->]|[[_ ->]|[[_ ->]|[[_ ->]|[_ ->]]]]];
    discriminate.
Qed.

(** X11: the text [escapeHtml] returns contains no [<], no [>] and no
    no-break space, and it determines the input: two different strings are
    never escaped to the same text. *)
Theorem escapeHtml_is_markup_free_and_injective (text : jsstring) :
  Forall (λ c, c ≠ 60%N ∧ c ≠ 62%N ∧ c ≠ 160%N) (escapeHtml text)
  ∧ ∀ text2, escapeHtml text2 = escapeHtml text → text2 = text.
Proof.
  rewrite escapeHtml_units. split.
  - induction text as [|c text IH]; [constructor|].
    rewrite fmap_cons. simpl. apply Forall_app. split; [|exact IH].
    destruct (escape_unit_cases c) as [[_ ->]|[[_ ->]|[[_ ->]|[[_ ->]|[H ->]]]]];
      repeat constructor; try discriminate.
    all: intros ->; apply H; unfold html_special; auto.
  - induction text as [|c text IH]; intros text2; rewrite escapeHtml_units.
    + destruct text2 as [|c2 text2]; [reflexivity|]. rewrite fmap_cons. simpl.
      intros E. apply app_eq_nil in E as [E _]. destruct (escape_unit_nonempty _ E).
    + destruct text2 as [|c2 text2]; rewrite !fmap_cons; simpl.
      * intros E. symmetry in E. apply app_eq_nil in E as [E _].
        destruct (escape_unit_nonempty _ E).
      * intros E. apply escape_unit_prefix in E as [-> E].
        f_equal. apply IH. rewrite escapeHtml_units. exact E.
Qed.

Lemma escape_units_length (text : jsstring) :
  (length text ≤ length (concat (escape_unit <$> text)))%nat.
Proof.
  induction text as [|c text IH]; [reflexivity|].
  rewrite fmap_cons. simpl. rewrite length_app.
  destruct (escape_unit_cases c) as [[_ ->]|[[_ ->]|[[_ ->]|[[_ ->]|[_ ->]]]]];
    simpl; lia.
Qed.

(** X12: [escapeHtml] returns its input unchanged exactly when the input
    contains none of [&], [<], [>] and the no-break space. Single and double
    quotes are therefore never escaped (the comment above the function lists
    them among the converted characters). *)
Theorem escapeHtml_leaves_quotes (text : jsstring) :
  (escapeHtml text = text ↔ Forall (λ c, ¬ html_special c) text)
  ∧ (Forall (λ c, c = 34%N ∨ c = 39%N) text → escapeHtml text = text).
Proof.
  assert (Hiff : escapeHtml text = text ↔ Forall (λ c, ¬ html_special c) text).
  { rewrite escapeHtml_units. induction text as [|c text IH]; rewrite ?fmap_cons; simpl.
    - split; [constructor | reflexivity].
    - split.
      + intros E. pose proof (escape_units_length text) as Hlen.
        pose proof (f_equal length E) as El. rewrite length_app in El.
        destruct (escape_unit_cases c) as [[_ Ec]|[[_ Ec]|[[_ Ec]|[[_ Ec]|[H Ec]]]]];
          rewrite Ec in E, El; simpl in El; try lia.
        injection E as E. constructor; [exact H | apply IH, E].
      + intros H. apply Forall_cons in H as [Hc Ht].
        destruct (escape_unit_cases c) as [[-> _]|[[-> _]|[[-> _]|[[-> _]|[_ ->]]]]];
          try (exfalso; apply Hc; unfold html_special; auto; fail).
        simpl. f_equal. apply IH, Ht. }
  split; [exact Hiff|]. intros H. apply Hiff.
  eapply Forall_impl; [exact H|]. intros c [->| ->] [E|[E|[E|E]]]; discriminate E.
Qed.

Example escapeHtml_script :
  escapeHtml (js "<b>Tom & Jerry</b>") = js "&lt;b&gt;Tom &amp; Jerry&lt;/b&gt;"
  ∧ escapeHtml [] = [].
Proof. split; reflexivity. Qed.


(** * The page *)

(** ** Running the page monad *)

Lemma bind_normal {A B : Type} (m : App.M A) (f : A → App.M B) (st st' : App.state)
    (a : A) :
  m st = (Normal a, st') → (m ≫= f) st = f a st'.
Proof. intros H. unfold mbind, App.M_bind. rewrite H. reflexivity. Qed.


(** The state written out, and its projections computed. *)
Ltac app_norm :=
  unfold App.with_document, App.with_env, App.with_store;
  cbn [App.store App.env App.document App.activeElement App.defaultPrevented
       App.listeners App.log].

(** One statement of a handler: the lemma [tac] proves how it runs. *)
Ltac step tac := erewrite bind_normal; [| tac ]; app_norm.

Lemma getElementById_ok (i : string) (st : App.state) :
  has_element (App.document st) i →
  App.getElementById i st = (Normal (Some i), st).
Proof. intros (?&?&?&?&?&H). unfold App.getElementById. rewrite H. reflexivity. Qed.


Lemma update_ok (i : string) (f : node → node) (st : App.state) :
  has_element (App.document st) i →
  App.update (Some i) f st
  = (Normal (), App.with_document (alter f i (App.document st)) st).
Proof. intros (?&?&?&?&?&H). unfold App.update. rewrite H. reflexivity. Qed.

Lemma keeps_set_children (children : list node) : keeps_element (set_children children).
Proof. intros ?????. simpl. eauto. Qed.

Lemma keeps_set_textContent (data : display) : keeps_element (set_textContent data).
Proof. intros ?????. simpl. eauto. Qed.

Lemma keeps_set_property (key : string) (v : value) : keeps_element (set_property key v).
Proof. intros ?????. simpl. eauto. Qed.

Lemma keeps_appendChild (child : node) : keeps_element (appendChild child).
Proof. intros ?????. simpl. eauto. Qed.

Lemma keeps_compose (f g : node → node) :
  keeps_element f → keeps_element g → keeps_element (f ∘ g).
Proof.
  intros Hf Hg tag props attrs data children. simpl.
  destruct (Hg tag props attrs data children) as (p & a & d & c & ->). apply Hf.
Qed.

Lemma has_element_alter (f : node → node) (j i : string) (d : gmap string node) :
  keeps_element f → has_element d i → has_element (alter f j d) i.
Proof.
  intros Hf (tag & props & attrs & data & children & H). unfold has_element.
  rewrite lookup_alter. case_decide; subst.
  - rewrite H. simpl. destruct (Hf tag props attrs data children) as (?&?&?&?&->).
    eauto 10.
  - eauto 10.
Qed.

Create HintDb dom.

#[export] Hint Resolve keeps_set_children keeps_set_textContent keeps_set_property
  keeps_appendChild keeps_compose has_element_alter : dom.

(** All the items appended to one element, one call after the other. *)
Lemma forEach_appendChild (i : string) (items : list node) :
  ∀ st, has_element (App.document st) i →
    App.forEach (λ li, App.update (Some i) (appendChild li)) items st
    = (Normal (),
       App.with_document
         (alter (λ n, foldl (λ n li, appendChild li n) n items) i (App.document st)) st).
Proof.
  induction items as [|li items IH]; intros st H.
  - simpl. unfold mret, App.M_ret. destruct st. app_norm. f_equal. f_equal.
    symmetry. apply alter_id. reflexivity.
  - cbn [App.forEach]. erewrite bind_normal; [|apply update_ok, H].
    rewrite IH by (destruct st; app_norm; auto with dom).
    destruct st. app_norm. rewrite alter_alter_eq. reflexivity.
Qed.

Lemma keeps_foldl_appendChild (items : list node) :
  keeps_element (λ n, foldl (λ n li, appendChild li n) n items).
Proof.
  induction items as [|li items IH]; intros tag props attrs data children; simpl.
  - eauto.
  - apply IH.
Qed.

Lemma children_foldl_appendChild (items : list node) :
  ∀ tag props attrs data children,
    foldl (λ n li, appendChild li n) (Element tag props attrs data children) items
    = Element tag props attrs data (children ++ items).
Proof.
  induction items as [|li items IH]; intros; simpl.
  - rewrite app_nil_r. reflexivity.
  - rewrite IH, <- app_assoc. reflexivity.
Qed.

#[export] Hint Resolve keeps_foldl_appendChild : dom.

Lemma decimal_nonempty (n : Z) : decimal n ≠ [].
Proof.
  unfold decimal. rewrite decimal_aux_app. destruct (Z.to_nat (Z.log2 n)); simpl.
  - discriminate.
  - destruct (n <? 10); [discriminate|]. rewrite decimal_aux_app.
    intros H. apply app_eq_nil in H as [H _]. apply app_eq_nil in H as [_ H].
    discriminate H.
Qed.

Lemma set_textContent_count (n : Z) (nd : node) :
  children_of (set_textContent (count_text n) nd)
  = match nd with Element _ _ _ _ _ => [TextNode (count_text n)] | TextNode _ => [] end.
Proof.
  unfold set_textContent, count_text. pose proof (decimal_nonempty n) as H.
  destruct (decimal n); [congruence|]. destruct nd; reflexivity.
Qed.

Lemma set_textContent_percent (p : pct_value) (nd : node) :
  children_of (set_textContent (percent_text p) nd)
  = match nd with Element _ _ _ _ _ => [TextNode (percent_text p)] | TextNode _ => [] end.
Proof.
  unfold set_textContent.
  assert (H : match percent_text p with Plain [] => False | _ => True end).
  { unfold percent_text. destruct p as [x|[s|x]]; simpl; auto.
    - destruct (Prim2SF x); exact I.
    - destruct s; exact I. }
  destruct (percent_text p) as [[|c s]|]; [destruct H| |]; destruct nd; reflexivity.
Qed.


(** ** Rendering *)

Lemma entry_assign {V : Type} (key : string) (v : V) (entries : list (string * V)) :
  entry key (assign key v entries) = Some v.
Proof.
  induction entries as [|[k old] rest IH]; simpl.
  - rewrite String.eqb_refl. reflexivity.
  - destruct (String.eqb k key) eqn:E; simpl; rewrite E; [reflexivity | exact IH].
Qed.

Lemma show_or_hide_run (listId emptyId : string) (items : list task) (st : App.state) :
  has_element (App.document st) listId →
  has_element (App.document st) emptyId →
  (if (length items =? 0)%nat
   then App.update (Some emptyId) (set_property "hidden" (VBoolean false))
   else
     App.update (Some emptyId) (set_property "hidden" (VBoolean true));;
     App.forEach (λ li, App.update (Some listId) (appendChild li)) (renderTask <$> items))
    st
  = (Normal (),
     App.with_document
       (alter (λ n, foldl (λ n li, appendChild li n) n (renderTask <$> items)) listId
          (alter (set_property "hidden" (VBoolean (bool_decide (items ≠ [])))) emptyId
             (App.document st))) st).
Proof.
  intros Hl He. destruct items as [|t items].
  - cbn [length Nat.eqb fmap list_fmap foldl]. rewrite (update_ok _ _ _ He). destruct st. app_norm.
    f_equal. f_equal. symmetry. apply alter_id. reflexivity.
  - cbn [length Nat.eqb]. step ltac:(apply update_ok, He).
    rewrite forEach_appendChild by (destruct st; app_norm; auto with dom).
    destruct st. app_norm. reflexivity.
Qed.

Lemma updateAnalytics_run (s : Store.closure) (w : world) (d : gmap string node)
    (a : option string) (p : bool) (l : list (string * string)) (g : list string)
    (ts : list task) :
  contents s w = Some ts →
  has_element d "active-count" → has_element d "done-count" →
  has_element d "done-percent" →
  App.updateAnalytics (App.State s w d a p l g)
  = (Normal (),
     App.State s
       (with_heap ((heap w ++ (ObjTask <$> ts))
                   ++ [ObjArray (seq (length (heap w)) (length ts))]) w)
       (alter (set_textContent (percent_text (Stats.pct (summarize ts)))) "done-percent"
          (alter (set_textContent (count_text (Stats.done (summarize ts)))) "done-count"
             (alter (set_textContent (count_text (Stats.active (summarize ts))))
                "active-count" d)))
       a p l g).
Proof.
  intros H H1 H2 H3. unfold App.updateAnalytics.
  step ltac:(unfold App.store_list; cbn; rewrite (list_spec _ _ _ H); reflexivity).
  step ltac:(unfold App.tasks_of; cbn; rewrite read_tasks_copies; reflexivity).
  cbv zeta.
  step ltac:(apply getElementById_ok; app_norm; auto with dom).
  step ltac:(apply update_ok; app_norm; auto with dom).
  step ltac:(apply getElementById_ok; app_norm; auto with dom).
  step ltac:(apply update_ok; app_norm; auto with dom).
  step ltac:(apply getElementById_ok; app_norm; auto with dom).
  rewrite update_ok by (app_norm; auto with dom). app_norm. reflexivity.
Qed.

(** Lookups through the updates of other elements. *)
Ltac lookups :=
  repeat first [ rewrite lookup_alter_ne by discriminate | rewrite lookup_alter_eq ].

Lemma renderTasks_run (s : Store.closure) (w : world) (d : gmap string node)
    (a : option string) (p : bool) (l : list (string * string)) (g : list string)
    (ts : list task) :
  contents s w = Some ts →
  has_regions d →
  ∃ w' d',
    App.renderTasks (App.State s w d a p l g) = (Normal (), App.State s w' d' a p l g)
    ∧ contents s w' = Some ts
    ∧ heap w `prefix_of` heap w'
    ∧ localStorage w' = localStorage w
    ∧ console w' = console w
    ∧ shows d' ts
    ∧ (∀ i, has_element d i → has_element d' i)
    ∧ (∀ i, i ∉ render_regions → d' !! i = d !! i).
Proof.
  intros H Hreg. unfold has_regions, render_regions in Hreg.
  repeat (apply Forall_cons in Hreg as [? Hreg]).
  pose proof (contents_after_list s w ts H) as H'.
  unfold App.renderTasks.
  step ltac:(unfold App.store_list; cbn; rewrite (list_spec _ _ _ H); reflexivity).
  step ltac:(unfold App.tasks_of; cbn; rewrite read_tasks_copies; reflexivity).
  cbv zeta.
  step ltac:(apply getElementById_ok; app_norm; auto with dom).
  step ltac:(apply getElementById_ok; app_norm; auto with dom).
  step ltac:(apply update_ok; app_norm; auto with dom).
  step ltac:(apply show_or_hide_run; app_norm; auto with dom).
  step ltac:(apply getElementById_ok; app_norm; auto 10 with dom).
  step ltac:(apply getElementById_ok; app_norm; auto 10 with dom).
  step ltac:(apply update_ok; app_norm; auto 10 with dom).
  step ltac:(apply show_or_hide_run; app_norm; auto 10 with dom).
  rewrite (updateAnalytics_run _ _ _ _ _ _ _ ts H') by auto 20 with dom.
  eexists _, _. split; [reflexivity|].
  split; [apply contents_after_list, H'|].
  split; [heap_grows|]. split; [reflexivity|]. split; [reflexivity|].
  split; [|split].
  - destruct H0 as (?&?&?&?&?&E0), H1 as (?&?&?&?&?&E1), H2 as (?&?&?&?&?&E2),
      H3 as (?&?&?&?&?&E3), H4 as (?&?&?&?&?&E4), H5 as (?&?&?&?&?&E5),
      H6 as (?&?&?&?&?&E6).
    unfold shows, region, hidden.
    repeat split; lookups;
      rewrite ?E0, ?E1, ?E2, ?E3, ?E4, ?E5, ?E6; cbn [fmap option_fmap option_map mbind option_bind];
      rewrite ?set_textContent_count, ?set_textContent_percent; try reflexivity.
    all: cbn [set_children set_property property_of];
      rewrite ?children_foldl_appendChild, ?entry_assign; reflexivity.
  - intros i Hi. auto 20 with dom.
  - intros i Hi. unfold render_regions in Hi.
    repeat (apply not_elem_of_cons in Hi as [? Hi]).
    repeat (rewrite lookup_alter_ne by congruence). reflexivity.
Qed.

Lemma try_catch_normal {A : Type} (body : App.M A) (handler : exn → App.M A)
    (st st' : App.state) (a : A) :
  body st = (Normal a, st') → App.try_catch body handler st = (Normal a, st').
Proof. intros H. unfold App.try_catch. rewrite H. reflexivity. Qed.


Lemma read_ok {A : Type} (i : string) (f : node → A) (st : App.state) (n : node) :
  App.document st !! i = Some n → App.read (Some i) f st = (Normal (f n), st).
Proof. intros H. unfold App.read. rewrite H. reflexivity. Qed.

Lemma store_call_ok method (s s' : Store.closure) (w w' : world) (r : loc)
    (d : gmap string node) a p l g :
  method s w = (Normal r, s', w') →
  App.store_call method (App.State s w d a p l g)
  = (Normal r, App.State s' w' d a p l g).
Proof. intros H. unfold App.store_call. cbn. rewrite H. reflexivity. Qed.

Lemma trim_idempotent (s : jsstring) : trim (trim s) = trim s.
Proof.
  destruct (trim_split s) as (pre & post & _ & _ & _ & Hs & He).
  unfold trim at 1. rewrite (trimStart_clean_id _ Hs). unfold trimEnd.
  rewrite (trimStart_clean_id _ He). apply rev_involutive.
Qed.

Lemma has_element_lookup (d : gmap string node) (i : string) :
  has_element d i → ∃ n, d !! i = Some n.
Proof. intros (?&?&?&?&?&H). eauto. Qed.

Ltac in_list := repeat first [ apply list_elem_of_here | apply list_elem_of_further ].

Lemma outside_regions (i : string) :
  i = "task-input" ∨ i = "task-error" ∨ i = "add-task-form" ∨ i = "main-content" →
  i ∉ render_regions.
Proof.
  intros H. unfold render_regions. rewrite !not_elem_of_cons.
  destruct H as [->|[->|[->| ->]]]; repeat split; try discriminate; apply not_elem_of_nil.
Qed.

Lemma shows_ext (d d' : gmap string node) (ts : list task) :
  (∀ i, i ∈ render_regions → d' !! i = d !! i) → shows d ts → shows d' ts.
Proof.
  intros H. unfold shows, region, hidden.
  rewrite !H by (unfold render_regions; in_list). tauto.
Qed.

Lemma handleAddTask_valid (now : Z) (suffix : jsstring) (s : Store.closure) (w : world)
    (d : gmap string node) a p l g (ts : list task) (input : node) (title : jsstring) :
  contents s w = Some ts →
  page_ready d →
  d !! "task-input" = Some input →
  trim (value_of input) = title → title ≠ [] →
  ∃ s' w' d',
    App.handleAddTask now suffix (App.State s w d a p l g)
    = (Normal (), App.State s' w' d' (Some "task-input") true l g)
    ∧ contents s' w' = Some (ts ++ [Task (task_id now suffix) title false])
    ∧ Store.storageKey s' = Store.storageKey s
    ∧ shows d' (ts ++ [Task (task_id now suffix) title false])
    ∧ page_ready d'
    ∧ value_of <$> d' !! "task-input" = Some []
    ∧ region d' "task-error" = Some []
    ∧ localStorage w'
      = localStorage (persisted (Store.storageKey s)
                        (ts ++ [Task (task_id now suffix) title false]) w)
    ∧ console w'
      = console (persisted (Store.storageKey s)
                   (ts ++ [Task (task_id now suffix) title false]) w).
Proof.
  intros H (Hreg & Hin & Herr) Ein Etitle Hne.
  set (c := Candidate (task_id now suffix) (Some title) (Some false)).
  assert (Hok : Store.rejected (arg_title c) = false).
  { apply rejected_valid_title. exists title. split; [reflexivity|].
    subst title. rewrite trim_idempotent. exact Hne. }
  destruct (add_spec s w ts H c Hok) as (r & s' & w' & E & Hc & _ & Hk & _ & Hst & Hco).
  assert (Hnew : newTask c = Task (task_id now suffix) title false).
  { unfold newTask, c. simpl. subst title. rewrite trim_idempotent. reflexivity. }
  rewrite Hnew in Hc, Hst, Hco.
  set (d1 := alter (set_property "value" (VString []))
               "task-input" (alter (set_textContent (Plain [])) "task-error" d)).
  assert (Hreg1 : has_regions d1).
  { unfold has_regions in *. eapply Forall_impl; [exact Hreg|].
    intros i Hi. unfold d1. auto with dom. }
  destruct (renderTasks_run s' w' d1 a true l g _ Hc Hreg1)
    as (w2 & d2 & Er & Hc2 & _ & Hst2 & Hco2 & Hshow & Hkeep & Hsame).
  exists s', w2, d2. split.
  - unfold App.handleAddTask.
    step ltac:(reflexivity).
    step ltac:(apply getElementById_ok; app_norm; auto with dom).
    step ltac:(apply getElementById_ok; app_norm; auto with dom).
    step ltac:(apply read_ok; app_norm; exact Ein).
    step ltac:(apply update_ok; app_norm; auto with dom).
    rewrite Etitle. destruct title as [|ch title']; [congruence|].
    apply try_catch_normal. fold (task_id now suffix). fold c.
    step ltac:(apply store_call_ok; exact E).
    step ltac:(apply update_ok; app_norm; auto with dom).
    fold d1. step ltac:(exact Er).
    reflexivity.
  - split; [exact Hc2|]. split; [exact Hk|]. split; [exact Hshow|].
    assert (E1 : d2 !! "task-input" = d1 !! "task-input")
      by (apply Hsame, outside_regions; auto).
    assert (E2 : d2 !! "task-error" = d1 !! "task-error")
      by (apply Hsame, outside_regions; auto).
    split; [|split; [|split; [|split]]].
    + split; [|split].
      * unfold has_regions in *. eapply Forall_impl; [exact Hreg1|]. auto.
      * apply Hkeep. unfold d1. auto with dom.
      * apply Hkeep. unfold d1. auto with dom.
    + rewrite E1. unfold d1. lookups. rewrite Ein. simpl.
      destruct Hin as (?&?&?&?&?&Hin). rewrite Ein in Hin. injection Hin as ->.
      unfold value_of. cbn [set_property property_of]. rewrite entry_assign. reflexivity.
    + unfold region. rewrite E2. unfold d1. lookups.
      destruct Herr as (?&?&?&?&?&->). reflexivity.
    + rewrite Hst2. exact Hst.
    + rewrite Hco2. exact Hco.
Qed.

Lemma handleAddTask_blank (now : Z) (suffix : jsstring) (s : Store.closure) (w : world)
    (d : gmap string node) a p l g (input : node) :
  has_element d "task-input" → has_element d "task-error" →
  d !! "task-input" = Some input →
  trim (value_of input) = [] →
  App.handleAddTask now suffix (App.State s w d a p l g)
  = (Normal (),
     App.State s w
       (alter (set_textContent (Plain (warning_sign ++ js "Task title cannot be empty")))
          "task-error" d)
       (Some "task-input") true l g).
Proof.
  intros Hin Herr Ein Etitle. unfold App.handleAddTask.
  step ltac:(reflexivity).
  step ltac:(apply getElementById_ok; app_norm; auto with dom).
  step ltac:(apply getElementById_ok; app_norm; auto with dom).
  step ltac:(apply read_ok; app_norm; exact Ein).
  step ltac:(apply update_ok; app_norm; auto with dom).
  rewrite Etitle.
  step ltac:(apply update_ok; app_norm; auto with dom).
  unfold App.focus. cbn. f_equal. f_equal.
  rewrite alter_alter_eq. apply alter_ext. intros n _. unfold compose.
  destruct Herr as (?&?&?&?&?&_). destruct n; reflexivity.
Qed.
(** [store.toggle(undefined)] leaves the list as it is, and persists it. *)
Lemma toggle_undefined_spec (s : Store.closure) (w : world) (ts : list task) :
  contents s w = Some ts → mutates_to s w ts (toggle_undefined s w).
Proof.
  intros Hwf. unfold toggle_undefined.
  pose proof Hwf as H. unfold contents, read_tasks in H.
  destruct (read_array (heap w) (Store.tasks s)) as [els|] eqn:E; [|discriminate].
  assert (Hid : maps_to (λ l _ h, (l, h)) (λ t, t)).
  { intros l t h Hl. split; [reflexivity|exact Hl]. }
  destruct (array_map_spec _ _ els Hid _ _ H) as (ls & h1 & -> & Hp1 & Hls).
  rewrite list_fmap_id in Hls.
  cbn [alloc]. apply (reassign_persist_list s w h1 ls); assumption.
Qed.

(** A method of the store called from a listener, then the rendering. *)
Lemma method_render_run
    (method : Store.closure → world → completion loc * Store.closure * world)
    (s : Store.closure) (w : world) (d : gmap string node) a p l g (ts' : list task) :
  mutates_to s w ts' (method s w) → has_regions d →
  ∃ s' w' d',
    (App.store_call method;; App.renderTasks) (App.State s w d a p l g)
    = (Normal (), App.State s' w' d' a p l g)
    ∧ contents s' w' = Some ts'
    ∧ Store.storageKey s' = Store.storageKey s
    ∧ shows d' ts'
    ∧ (∀ i, has_element d i → has_element d' i)
    ∧ (∀ i, i ∉ render_regions → d' !! i = d !! i)
    ∧ localStorage w' = localStorage (persisted (Store.storageKey s) ts' w)
    ∧ console w' = console (persisted (Store.storageKey s) ts' w).
Proof.
  intros (r & s' & w' & E & Hc & _ & Hk & _ & Hst & Hco) Hreg.
  destruct (renderTasks_run s' w' d a p l g _ Hc Hreg)
    as (w2 & d2 & Er & Hc2 & _ & Hst2 & Hco2 & Hshow & Hkeep & Hsame).
  exists s', w2, d2. split; [|split; [|split; [|split; [|split; [|split; [|split]]]]];
    try assumption; congruence].
  step ltac:(apply store_call_ok; exact E). exact Er.
Qed.

(** A mutator called from a listener, then the rendering. *)
Lemma mutate_render_run (m : mutation) (s : Store.closure) (w : world)
    (d : gmap string node) a p l g (ts : list task) :
  contents s w = Some ts → accepted m → has_regions d →
  ∃ s' w' d',
    (App.store_call (run m);; App.renderTasks) (App.State s w d a p l g)
    = (Normal (), App.State s' w' d' a p l g)
    ∧ contents s' w' = Some (effect m ts)
    ∧ Store.storageKey s' = Store.storageKey s
    ∧ shows d' (effect m ts)
    ∧ (∀ i, has_element d i → has_element d' i)
    ∧ (∀ i, i ∉ render_regions → d' !! i = d !! i)
    ∧ localStorage w' = localStorage (persisted (Store.storageKey s) (effect m ts) w)
    ∧ console w' = console (persisted (Store.storageKey s) (effect m ts) w).
Proof.
  intros H Ha Hreg. apply method_render_run; [|exact Hreg].
  apply run_spec; assumption.
Qed.

Lemma on_click_toggle (target : node) (confirmed : bool) (i : jsstring) :
  dataset_of "action" target = Some (js "toggle") →
  dataset_of "id" target = Some i → i ≠ [] →
  App.on_click target confirmed = (App.store_call (run (Toggle i));; App.renderTasks).
Proof.
  intros Ea Ei Hi. unfold App.on_click. rewrite Ea, Ei.
  destruct i; [congruence|]. reflexivity.
Qed.

Lemma on_click_delete (target : node) (confirmed : bool) (i : jsstring) :
  dataset_of "action" target = Some (js "delete") →
  dataset_of "id" target = Some i → i ≠ [] →
  App.on_click target confirmed
  = if confirmed then (App.store_call (run (Remove i));; App.renderTasks) else mret ().
Proof.
  intros Ea Ei Hi. unfold App.on_click. rewrite Ea, Ei.
  destruct i; [congruence|]. reflexivity.
Qed.

(** Every other click: no action, no id, or an action that is neither. *)
Lemma on_click_other (target : node) (confirmed : bool) :
  App.falsy (dataset_of "action" target) = true
  ∨ App.falsy (dataset_of "id" target) = true
  ∨ (dataset_of "action" target ≠ Some (js "toggle")
     ∧ dataset_of "action" target ≠ Some (js "delete")) →
  App.on_click target confirmed = mret ().
Proof.
  intros H. unfold App.on_click.
  destruct (App.falsy (dataset_of "action" target)) eqn:Fa; [reflexivity|].
  destruct (App.falsy (dataset_of "id" target)) eqn:Fi; [reflexivity|].
  destruct H as [H|[H|[H1 H2]]]; try discriminate.
  simpl. rewrite !decide_False by assumption. reflexivity.
Qed.

Lemma on_click_cases (target : node) (confirmed : bool) :
  App.on_click target confirmed = mret ()
  ∨ ∃ m, accepted m
         ∧ App.on_click target confirmed = (App.store_call (run m);; App.renderTasks).
Proof.
  destruct (App.falsy (dataset_of "action" target)) eqn:Fa;
    [left; apply on_click_other; auto|].
  destruct (App.falsy (dataset_of "id" target)) eqn:Fi;
    [left; apply on_click_other; auto|].
  destruct (dataset_of "id" target) as [i|] eqn:Ei; [|discriminate].
  assert (Hi : i ≠ []) by (intros ->; discriminate).
  destruct (decide (dataset_of "action" target = Some (js "toggle"))) as [Ea|Na].
  { right. exists (Toggle i). split; [exact I|]. apply on_click_toggle; assumption. }
  destruct (decide (dataset_of "action" target = Some (js "delete"))) as [Ed|Nd].
  - destruct confirmed.
    + right. exists (Remove i). split; [exact I|].
      rewrite (on_click_delete _ _ i) by assumption. reflexivity.
    + left. rewrite (on_click_delete _ _ i) by assumption. reflexivity.
  - left. apply on_click_other. rewrite Ei. auto.
Qed.

Lemma on_change_cases (target : node) :
  App.on_change target = mret ()
  ∨ (∃ i, dataset_of "id" target = Some i
          ∧ App.on_change target = (App.store_call (run (Toggle i));; App.renderTasks))
  ∨ (dataset_of "id" target = None
     ∧ App.on_change target = (App.store_call toggle_undefined;; App.renderTasks)).
Proof.
  unfold App.on_change. destruct (classList_contains _ _); [|left; reflexivity].
  right. destruct (dataset_of "id" target) as [i|].
  - left. exists i. split; reflexivity.
  - right. split; reflexivity.
Qed.

(** The three controls of a rendered item. *)
Lemma renderTask_children (t : task) :
  ∃ checkbox title_ deleteBtn,
    children_of (renderTask t) = [checkbox; title_; deleteBtn]
    ∧ dataset_of "action" checkbox = Some (js "toggle")
    ∧ dataset_of "id" checkbox = Some (id t)
    ∧ classList_contains (js "task-checkbox") checkbox = true
    ∧ property_of "checked" checkbox = Some (VBoolean (done t))
    ∧ dataset_of "action" title_ = None
    ∧ children_of title_ = (match title t with [] => [] | _ => [TextNode (Plain (title t))] end)
    ∧ dataset_of "action" deleteBtn = Some (js "delete")
    ∧ dataset_of "id" deleteBtn = Some (id t)
    ∧ classList_contains (js "task-checkbox") deleteBtn = false
    ∧ dataset_of "action" (renderTask t) = None.
Proof.
  do 3 eexists. split; [reflexivity|].
  repeat split; reflexivity.
Qed.

Lemma entered_lookup (d : gmap string node) (title : jsstring) :
  entered d = Some title →
  has_element d "task-input"
  ∧ ∃ input, d !! "task-input" = Some input ∧ trim (value_of input) = title.
Proof.
  unfold entered. destruct (d !! "task-input") as [[|tag ps ats ds cs]|] eqn:E;
    try discriminate.
  intros [= <-]. split; [do 5 eexists; exact E|]. eexists. split; reflexivity.
Qed.

Lemma has_element_entered (d : gmap string node) :
  has_element d "task-input" → ∃ title, entered d = Some title.
Proof. intros (?&?&?&?&?&E). unfold entered. rewrite E. eauto. Qed.

Lemma blank_document_elements (i : string) :
  i ∈ render_regions
      ++ ["task-input"; "task-error"; "add-task-form"; "main-content"]%string →
  has_element blank_document i.
Proof.
  intros H. unfold render_regions in H. cbn [app] in H.
  repeat (apply elem_of_cons in H as [->|H]; [do 5 eexists; reflexivity|]).
  apply elem_of_nil in H as [].
Qed.

Lemma blank_document_regions : has_regions blank_document.
Proof.
  apply Forall_forall. intros i Hi. apply blank_document_elements.
  apply elem_of_app. left. exact Hi.
Qed.


Lemma blank_document_ready : page_ready blank_document.
Proof.
  split; [exact blank_document_regions|].
  split; apply blank_document_elements; in_list.
Qed.

(** X13: [renderTasks] returns normally on a page that has the seven rendered
    elements, and afterwards the page shows the store's list: the two lists
    together hold exactly one item per task, the active list the items of the
    tasks that are not done and the done list the others, each in the order
    of the store. The store, the backend, the error console and every other
    element of the page are left as they were. *)
Theorem renderTasks_shows_every_task_once (st : App.state) (ts : list task) :
  contents (App.store st) (App.env st) = Some ts →
  has_regions (App.document st) →
  ∃ st' active_items done_items,
    App.renderTasks st = (Normal (), st')
    ∧ shows (App.document st') ts
    ∧ region (App.document st') "active-list" = Some active_items
    ∧ region (App.document st') "done-list" = Some done_items
    ∧ active_items ++ done_items ≡ₚ renderTask <$> ts
    ∧ active_items `sublist_of` (renderTask <$> ts)
    ∧ done_items `sublist_of` (renderTask <$> ts)
    ∧ App.store st' = App.store st
    ∧ contents (App.store st') (App.env st') = Some ts
    ∧ localStorage (App.env st') = localStorage (App.env st)
    ∧ console (App.env st') = console (App.env st)
    ∧ (∀ i, i ∉ render_regions → App.document st' !! i = App.document st !! i)
    ∧ App.activeElement st' = App.activeElement st
    ∧ App.listeners st' = App.listeners st.
Proof.
  destruct st as [s w d a p l g]. cbn. intros H Hreg.
  destruct (renderTasks_run s w d a p l g ts H Hreg)
    as (w' & d' & E & Hc & _ & Hst & Hco & Hshow & _ & Hsame).
  exists (App.State s w' d' a p l g),
    (renderTask <$> filter (λ t, done t = false) ts),
    (renderTask <$> filter (λ t, done t = true) ts).
  cbn. destruct Hshow as (Ha & Hd & Hrest).
  split; [exact E|]. split; [exact (conj Ha (conj Hd Hrest))|].
  split; [exact Ha|]. split; [exact Hd|].
  split; [|split; [|split; [|repeat split; assumption]]].
  - rewrite <- fmap_app. apply fmap_Permutation.
    rewrite (list_filter_iff (λ t, done t = true) (λ t, ¬ done t = false)).
    + apply filter_app_complement.
    + intros t. destruct (done t); split; congruence.
  - apply fmap_sublist, sublist_filter.
  - apply fmap_sublist, sublist_filter.
Qed.

Lemma renderTasks_shows_every_task_once_witness :
  ∃ st' active_items done_items,
    App.renderTasks (app_with twin_store) = (Normal (), st')
    ∧ shows (App.document st')
        [Task (js "a") (js "first") false; Task (js "a") (js "second") false]
    ∧ region (App.document st') "active-list" = Some active_items
    ∧ region (App.document st') "done-list" = Some done_items
    ∧ active_items ++ done_items
      ≡ₚ renderTask <$>
           [Task (js "a") (js "first") false; Task (js "a") (js "second") false]
    ∧ active_items `sublist_of`
        (renderTask <$>
           [Task (js "a") (js "first") false; Task (js "a") (js "second") false])
    ∧ done_items `sublist_of`
        (renderTask <$>
           [Task (js "a") (js "first") false; Task (js "a") (js "second") false])
    ∧ App.store st' = App.store (app_with twin_store)
    ∧ contents (App.store st') (App.env st')
      = Some [Task (js "a") (js "first") false; Task (js "a") (js "second") false]
    ∧ localStorage (App.env st') = localStorage (App.env (app_with twin_store))
    ∧ console (App.env st') = console (App.env (app_with twin_store))
    ∧ (∀ i, i ∉ render_regions
            → App.document st' !! i = App.document (app_with twin_store) !! i)
    ∧ App.activeElement st' = App.activeElement (app_with twin_store)
    ∧ App.listeners st' = App.listeners (app_with twin_store).
Proof.
  apply (renderTasks_shows_every_task_once (app_with twin_store)).
  - vm_compute. reflexivity.
  - exact blank_document_regions.
Defined.

(** X14: a submission whose title is empty or only white space is refused by
    [handleAddTask] itself: the default action is prevented, the error
    element gets the one text node with the warning, the focus goes to the
    title input, and nothing else happens: the store is not called, the
    backend and the console are as before, and every element other than the
    error element is untouched, so the lists are not rendered again. *)
Theorem blank_submission_is_refused (now : Z) (suffix : jsstring) (st : App.state) :
  entered (App.document st) = Some [] →
  has_element (App.document st) "task-error" →
  ∃ st',
    App.handleAddTask now suffix st = (Normal (), st')
    ∧ App.store st' = App.store st
    ∧ App.env st' = App.env st
    ∧ region (App.document st') "task-error"
      = Some [TextNode (Plain (warning_sign ++ js "Task title cannot be empty"))]
    ∧ (∀ i, i ≠ "task-error" → App.document st' !! i = App.document st !! i)
    ∧ App.activeElement st' = Some "task-input"
    ∧ App.defaultPrevented st' = true
    ∧ App.listeners st' = App.listeners st
    ∧ App.log st' = App.log st.
Proof.
  destruct st as [s w d a p l g]. cbn. intros He Herr.
  destruct (entered_lookup _ _ He) as (Hin & input & Ein & Et).
  eexists. split; [exact (handleAddTask_blank now suffix s w d a p l g input Hin Herr Ein Et)|].
  cbn. repeat split.
  - unfold region. rewrite lookup_alter_eq.
    destruct Herr as (?&?&?&?&?&->). reflexivity.
  - intros i Hi. apply lookup_alter_ne. congruence.
Qed.

Lemma blank_submission_is_refused_witness :
  ∃ st',
    App.handleAddTask 1700000000000 (js "k3x9q2m1a") (typed (js "   ") blank_app)
    = (Normal (), st')
    ∧ App.store st' = App.store (typed (js "   ") blank_app)
    ∧ App.env st' = App.env (typed (js "   ") blank_app)
    ∧ region (App.document st') "task-error"
      = Some [TextNode (Plain (warning_sign ++ js "Task title cannot be empty"))]
    ∧ (∀ i, i ≠ "task-error"
            → App.document st' !! i = App.document (typed (js "   ") blank_app) !! i)
    ∧ App.activeElement st' = Some "task-input"
    ∧ App.defaultPrevented st' = true
    ∧ App.listeners st' = App.listeners (typed (js "   ") blank_app)
    ∧ App.log st' = App.log (typed (js "   ") blank_app).
Proof.
  apply (blank_submission_is_refused 1700000000000 (js "k3x9q2m1a")
           (typed (js "   ") blank_app)).
  - vm_compute. reflexivity.
  - do 5 eexists. vm_compute. reflexivity.
Defined.







(** X18: the click listener ignores every click that is not on a control of
    a task with a non-empty id: a click on a rendered item itself or on its
    title, and a click on the checkbox or the delete button of a task whose
    id is the empty string, leave the whole application as it is. *)
Theorem other_clicks_change_nothing (t : task) (target : node) (confirmed : bool)
    (st : App.state) :
  target = renderTask t
  ∨ children_of (renderTask t) !! 1%nat = Some target
  ∨ (id t = [] ∧ target ∈ children_of (renderTask t)) →
  App.on_click target confirmed st = (Normal (), st).
Proof.
  intros H. rewrite on_click_other; [reflexivity|].
  destruct (renderTask_children t)
    as (c & x & b & E & Hca & Hci & _ & _ & Hxa & _ & Hba & Hbi & _ & Hli).
  destruct H as [->|[H|[Hid H]]].
  - left. rewrite Hli. reflexivity.
  - rewrite E in H. injection H as <-. left. rewrite Hxa. reflexivity.
  - rewrite E in H. rewrite Hid in *.
    apply elem_of_cons in H as [->|H]; [right; left; rewrite Hci; reflexivity|].
    apply elem_of_cons in H as [->|H]; [left; rewrite Hxa; reflexivity|].
    apply elem_of_cons in H as [->|H]; [right; left; rewrite Hbi; reflexivity|].
    apply elem_of_nil in H as [].
Qed.

Lemma other_clicks_change_nothing_witness :
  ∃ deleteBtn,
    children_of (renderTask (Task [] (js "no id") false)) !! 2%nat = Some deleteBtn
    ∧ App.on_click deleteBtn true (app_with twin_store)
      = (Normal (), app_with twin_store).
Proof.
  eexists. split; [reflexivity|].
  apply (other_clicks_change_nothing (Task [] (js "no id") false)).
  right. right. split; [reflexivity|]. in_list.
Defined.

Lemma renderTask_classes (t : task) (target : node) :
  target = renderTask t
  ∨ children_of (renderTask t) !! 1%nat = Some target
  ∨ children_of (renderTask t) !! 2%nat = Some target →
  classList_contains (js "task-checkbox") target = false.
Proof.
  intros [->|[H|H]].
  - destruct t as [i ti []]; reflexivity.
  - injection H as <-. reflexivity.
  - injection H as <-. reflexivity.
Qed.

(** X19: the change listener toggles the task of a rendered checkbox and
    renders, like the click listener, but without the test for an empty id:
    it toggles the tasks whose id is the empty string too. A change event
    from the item, its title or its delete button is ignored. *)
Theorem change_on_checkbox_toggles_task (t : task) (checkbox : node) (st : App.state)
    (ts : list task) :
  children_of (renderTask t) !! 0%nat = Some checkbox →
  contents (App.store st) (App.env st) = Some ts →
  has_regions (App.document st) →
  (∃ st',
     App.on_change checkbox st = (Normal (), st')
     ∧ contents (App.store st') (App.env st')
       = Some ((λ u, if decide (id u = id t) then flipped u else u) <$> ts)
     ∧ shows (App.document st')
         ((λ u, if decide (id u = id t) then flipped u else u) <$> ts)
     ∧ localStorage (App.env st')
       = localStorage
           (persisted (Store.storageKey (App.store st))
              ((λ u, if decide (id u = id t) then flipped u else u) <$> ts)
              (App.env st)))
  ∧ ∀ target,
      target = renderTask t
      ∨ children_of (renderTask t) !! 1%nat = Some target
      ∨ children_of (renderTask t) !! 2%nat = Some target →
      App.on_change target st = (Normal (), st).
Proof.
  destruct st as [s w d a p l g]. app_norm. intros Hc H Hreg. split.
  - destruct (renderTask_children t) as (c & x & b & E & _ & Hi & Hcl & _).
    rewrite E in Hc. injection Hc as <-.
    destruct (mutate_render_run (Toggle (id t)) s w d a p l g ts H I Hreg)
      as (s' & w' & d' & Er & Hc' & _ & Hshow & _ & _ & Hst & _).
    eexists. split; [unfold App.on_change; rewrite Hcl, Hi; exact Er|].
    app_norm. split; [exact Hc'|]. split; [exact Hshow|exact Hst].
  - intros target Ht.
    unfold App.on_change. rewrite (renderTask_classes t target Ht). reflexivity.
Qed.

Lemma change_on_checkbox_toggles_task_witness :
  ∃ checkbox,
    children_of (renderTask (Task [] (js "no id") false)) !! 0%nat = Some checkbox
    ∧ ((∃ st',
          App.on_change checkbox (app_with twin_store) = (Normal (), st')
          ∧ contents (App.store st') (App.env st')
            = Some ((λ u, if decide (id u = []) then flipped u else u) <$>
                      [Task (js "a") (js "first") false;
                       Task (js "a") (js "second") false])
          ∧ shows (App.document st')
              ((λ u, if decide (id u = []) then flipped u else u) <$>
                 [Task (js "a") (js "first") false;
                  Task (js "a") (js "second") false])
          ∧ localStorage (App.env st')
            = localStorage
                (persisted (Store.storageKey (App.store (app_with twin_store)))
                   ((λ u, if decide (id u = []) then flipped u else u) <$>
                      [Task (js "a") (js "first") false;
                       Task (js "a") (js "second") false])
                   (App.env (app_with twin_store))))
       ∧ ∀ target,
           target = renderTask (Task [] (js "no id") false)
           ∨ children_of (renderTask (Task [] (js "no id") false)) !! 1%nat = Some target
           ∨ children_of (renderTask (Task [] (js "no id") false)) !! 2%nat = Some target →
           App.on_change target (app_with twin_store)
           = (Normal (), app_with twin_store)).
Proof.
  eexists. split; [reflexivity|].
  apply (change_on_checkbox_toggles_task (Task [] (js "no id") false) _
           (app_with twin_store)
           [Task (js "a") (js "first") false; Task (js "a") (js "second") false]).
  - reflexivity.
  - vm_compute. reflexivity.
  - exact blank_document_regions.
Defined.

(** X20: the two listeners of a rendered checkbox undo each other: when the
    click listener and then the change listener run for the same checkbox
    of a task with a non-empty id, both return normally and the store's
    list and what the page shows are what they were before the click. *)
Theorem click_then_change_restores_list (t : task) (checkbox : node) (confirmed : bool)
    (st : App.state) (ts : list task) :
  children_of (renderTask t) !! 0%nat = Some checkbox →
  id t ≠ [] →
  contents (App.store st) (App.env st) = Some ts →
  has_regions (App.document st) →
  ∃ st1 st2,
    App.on_click checkbox confirmed st = (Normal (), st1)
    ∧ App.on_change checkbox st1 = (Normal (), st2)
    ∧ contents (App.store st2) (App.env st2) = Some ts
    ∧ shows (App.document st2) ts.
Proof.
  destruct st as [s w d a p l g]. app_norm. intros Hc Hid H Hreg.
  destruct (renderTask_children t) as (c & x & b & E & Ha & Hi & Hcl & _).
  rewrite E in Hc. injection Hc as <-.
  rewrite (on_click_toggle c confirmed (id t) Ha Hi Hid).
  destruct (mutate_render_run (Toggle (id t)) s w d a p l g ts H I Hreg)
    as (s1 & w1 & d1 & E1 & Hc1 & _ & _ & Hkeep & _).
  assert (Hreg1 : has_regions d1).
  { unfold has_regions in *. eapply Forall_impl; [exact Hreg|]. exact Hkeep. }
  destruct (mutate_render_run (Toggle (id t)) s1 w1 d1 a p l g _ Hc1 I Hreg1)
    as (s2 & w2 & d2 & E2 & Hc2 & _ & Hshow2 & _).
  cbn [effect] in Hc2, Hshow2. rewrite toggle_twice in Hc2, Hshow2.
  eexists _, _. split; [exact E1|].
  split; [unfold App.on_change; rewrite Hcl, Hi; exact E2|].
  app_norm. split; assumption.
Qed.

Lemma click_then_change_restores_list_witness :
  ∃ checkbox,
    children_of (renderTask (Task (js "a") (js "first") false)) !! 0%nat = Some checkbox
    ∧ ∃ st1 st2,
        App.on_click checkbox false (app_with twin_store) = (Normal (), st1)
        ∧ App.on_change checkbox st1 = (Normal (), st2)
        ∧ contents (App.store st2) (App.env st2)
          = Some [Task (js "a") (js "first") false; Task (js "a") (js "second") false]
        ∧ shows (App.document st2)
            [Task (js "a") (js "first") false; Task (js "a") (js "second") false].
Proof.
  eexists. split; [reflexivity|].
  apply (click_then_change_restores_list (Task (js "a") (js "first") false) _ false
           (app_with twin_store)
           [Task (js "a") (js "first") false; Task (js "a") (js "second") false]).
  - reflexivity.
  - discriminate.
  - vm_compute. reflexivity.
  - exact blank_document_regions.
Defined.

Lemma init_run (s : Store.closure) (w : world) (d : gmap string node) a p l g
    (ts : list task) :
  contents s w = Some ts → has_regions d →
  has_element d "add-task-form" → has_element d "main-content" →
  ∃ w' d',
    App.init (App.State s w d a p l g)
    = (Normal (),
       App.State s w' d' a p
         (l ++ [("add-task-form", "submit"); ("main-content", "click");
                ("main-content", "change")]%string)
         (g ++ ["FocusTasks 9889 initialized"%string]))
    ∧ contents s w' = Some ts
    ∧ shows d' ts
    ∧ localStorage w' = localStorage w
    ∧ console w' = console w
    ∧ (∀ i, has_element d i → has_element d' i)
    ∧ (∀ i, i ∉ render_regions → d' !! i = d !! i).
Proof.
  intros H Hreg Hform Hmain.
  pose proof (contents_after_list s w ts H) as H1.
  set (w1 := with_heap ((heap w ++ (ObjTask <$> ts))
                        ++ [ObjArray (seq (length (heap w)) (length ts))]) w) in *.
  destruct (renderTasks_run s w1 d a p
              (l ++ [("add-task-form", "submit"); ("main-content", "click");
                     ("main-content", "change")]%string) g ts H1 Hreg)
    as (w2 & d2 & Er & Hc2 & _ & Hst2 & Hco2 & Hshow & Hkeep & Hsame).
  exists w2, d2. split; [|repeat first [assumption | split]].
  unfold App.init.
  step ltac:(unfold App.store_list; cbn; rewrite (list_spec _ _ _ H); reflexivity).
  fold w1.
  step ltac:(unfold App.setupEventDelegation;
             erewrite bind_normal; [| apply getElementById_ok; app_norm; exact Hform ];
             erewrite bind_normal; [| reflexivity ]; app_norm;
             erewrite bind_normal; [| apply getElementById_ok; app_norm; exact Hmain ];
             erewrite bind_normal; [| reflexivity ]; app_norm;
             reflexivity).
  cbn [App.addEventListener].
  rewrite <- !(assoc_L app l). cbn [app].
  step ltac:(exact Er). reflexivity.
Qed.

(** X21: [init], run on the store the script has just created, returns
    normally and leaves an empty page whatever the backend holds: both
    lists are empty, both empty-state indicators are visible, the counters
    read 0, 0 and 0%, and the store's list is empty. The backend is not
    read and not written, nothing goes to the error console, the three
    listeners are attached in the order submit, click, change, and the one
    line is logged. From then on the page and the store agree. *)
Theorem init_shows_empty_page (w : world) (d : gmap string node) :
  page_ready d →
  has_element d "add-task-form" →
  has_element d "main-content" →
  ∃ st',
    App.init (started w d) = (Normal (), st')
    ∧ contents (App.store st') (App.env st') = Some []
    ∧ shows (App.document st') []
    ∧ region (App.document st') "active-list" = Some []
    ∧ region (App.document st') "done-list" = Some []
    ∧ hidden (App.document st') "active-empty" = Some (VBoolean false)
    ∧ hidden (App.document st') "done-empty" = Some (VBoolean false)
    ∧ region (App.document st') "active-count" = Some [TextNode (Plain (js "0"))]
    ∧ region (App.document st') "done-count" = Some [TextNode (Plain (js "0"))]
    ∧ region (App.document st') "done-percent" = Some [TextNode (Plain (js "0%"))]
    ∧ in_sync st'
    ∧ localStorage (App.env st') = localStorage w
    ∧ console (App.env st') = console w
    ∧ App.listeners st'
      = [("add-task-form", "submit"); ("main-content", "click");
         ("main-content", "change")]%string
    ∧ App.log st' = ["FocusTasks 9889 initialized"%string]
    ∧ App.activeElement st' = None.
Proof.
  intros (Hreg & Hin & Herr) Hform Hmain. unfold started.
  destruct (init_run _ _ d None false [] [] [] (createStore_contents (js "focustasks_9889") w) Hreg Hform Hmain)
    as (w' & d' & E & Hc & Hshow & Hst & Hco & Hkeep & _).
  eexists. split; [exact E|]. app_norm.
  split; [exact Hc|]. split; [exact Hshow|].
  pose proof Hshow as (S1 & S2 & S3 & S4 & S5 & S6 & S7).
  split; [exact S1|]. split; [exact S2|]. split; [exact S3|]. split; [exact S4|].
  split; [exact S5|]. split; [exact S6|]. split; [exact S7|].
  split; [|repeat split; assumption].
  split; [|exists []; split; assumption].
  split; [|split; auto].
  unfold has_regions in *. eapply Forall_impl; [exact Hreg|]. exact Hkeep.
Qed.

Lemma init_shows_empty_page_witness :
  ∃ st',
    App.init (started (snd milk_store) blank_document) = (Normal (), st')
    ∧ contents (App.store st') (App.env st') = Some []
    ∧ shows (App.document st') []
    ∧ region (App.document st') "active-list" = Some []
    ∧ region (App.document st') "done-list" = Some []
    ∧ hidden (App.document st') "active-empty" = Some (VBoolean false)
    ∧ hidden (App.document st') "done-empty" = Some (VBoolean false)
    ∧ region (App.document st') "active-count" = Some [TextNode (Plain (js "0"))]
    ∧ region (App.document st') "done-count" = Some [TextNode (Plain (js "0"))]
    ∧ region (App.document st') "done-percent" = Some [TextNode (Plain (js "0%"))]
    ∧ in_sync st'
    ∧ localStorage (App.env st') = localStorage (snd milk_store)
    ∧ console (App.env st') = console (snd milk_store)
    ∧ App.listeners st'
      = [("add-task-form", "submit"); ("main-content", "click");
         ("main-content", "change")]%string
    ∧ App.log st' = ["FocusTasks 9889 initialized"%string]
    ∧ App.activeElement st' = None.
Proof.
  apply (init_shows_empty_page (snd milk_store) blank_document).
  - exact blank_document_ready.
  - apply blank_document_elements. in_list.
  - apply blank_document_elements. in_list.
Defined.

Lemma regions_kept (d d' : gmap string node) :
  (∀ i, has_element d i → has_element d' i) → page_ready d → page_ready d'.
Proof.
  intros Hkeep (Hreg & Hin & Herr). split; [|split; auto].
  unfold has_regions in *. eapply Forall_impl; [exact Hreg|]. exact Hkeep.
Qed.

Lemma method_render_sync
    (method : Store.closure → world → completion loc * Store.closure * world)
    (st : App.state) :
  in_sync st →
  (∀ ts, contents (App.store st) (App.env st) = Some ts →
     ∃ ts', mutates_to (App.store st) (App.env st) ts'
              (method (App.store st) (App.env st))) →
  ∃ st', (App.store_call method;; App.renderTasks) st = (Normal (), st') ∧ in_sync st'.
Proof.
  destruct st as [s w d a p l g]. intros (Hready & ts & H & _) Hm. cbn in *.
  destruct (Hm ts H) as (ts' & Hmut).
  destruct (method_render_run method s w d a p l g ts' Hmut (proj1 Hready))
    as (s' & w' & d' & E & Hc & _ & Hshow & Hkeep & _).
  eexists. split; [exact E|]. split; [exact (regions_kept _ _ Hkeep Hready)|].
  exists ts'. split; assumption.
Qed.

Lemma mutate_render_sync (m : mutation) (st : App.state) :
  accepted m → in_sync st →
  ∃ st', (App.store_call (run m);; App.renderTasks) st = (Normal (), st') ∧ in_sync st'.
Proof.
  intros Ha Hsync. apply method_render_sync; [exact Hsync|].
  intros ts H. exists (effect m ts). apply run_spec; assumption.
Qed.

(** X22: the page follows the store. When the page shows the store's list,
    each of the three listeners returns normally, whatever the title typed
    in, the time value, the random suffix, the element the event comes
    from (a check box without [data-id] included) and the user's answer
    are, and afterwards the page again shows the store's list. No listener
    lets an exception escape. *)
Theorem listeners_keep_page_in_sync (st : App.state) :
  in_sync st →
  (∀ now suffix, time_value now → ∃ st',
     App.handleAddTask now suffix st = (Normal (), st') ∧ in_sync st')
  ∧ (∀ target confirmed, ∃ st',
       App.on_click target confirmed st = (Normal (), st') ∧ in_sync st')
  ∧ (∀ target, ∃ st',
       App.on_change target st = (Normal (), st') ∧ in_sync st').
Proof.
  intros Hsync. split; [|split].
  - intros now suffix _. destruct st as [s w d a p l g].
    destruct Hsync as (Hready & ts & H & Hshow). cbn in *.
    pose proof Hready as (Hreg & Hin & Herr).
    destruct (has_element_entered d Hin) as (title & He).
    destruct (entered_lookup _ _ He) as (_ & input & Ein & Et).
    destruct title as [|c title].
    + eexists. split; [exact (handleAddTask_blank now suffix s w d a p l g input
                                Hin Herr Ein Et)|].
      split; cbn.
      * apply (regions_kept d); [|exact Hready]. intros i Hi. auto with dom.
      * exists ts. split; [exact H|]. apply (shows_ext d); [|exact Hshow].
        intros i Hi. apply lookup_alter_ne. intros <-.
        revert Hi. apply outside_regions. auto.
    + destruct (handleAddTask_valid now suffix s w d a p l g ts input (c :: title)
                  H Hready Ein Et)
        as (s' & w' & d' & E & Hc & _ & Hshow' & Hready' & _); [discriminate|].
      eexists. split; [exact E|]. split; [exact Hready'|].
      eexists. split; [exact Hc|exact Hshow'].
  - intros target confirmed.
    destruct (on_click_cases target confirmed) as [->|(m & Ha & ->)].
    + exists st. split; [reflexivity|exact Hsync].
    + apply mutate_render_sync; assumption.
  - intros target.
    destruct (on_change_cases target) as [->|[(i & _ & ->)|(_ & ->)]].
    + exists st. split; [reflexivity|exact Hsync].
    + apply mutate_render_sync; [exact I|exact Hsync].
    + apply method_render_sync; [exact Hsync|].
      intros ts H. exists ts. apply toggle_undefined_spec, H.
Qed.

Ltac element := do 5 eexists; vm_compute; reflexivity.

Lemma listeners_keep_page_in_sync_witness :
  (∀ now suffix, time_value now → ∃ st',
     App.handleAddTask now suffix busy_app = (Normal (), st') ∧ in_sync st')
  ∧ (∀ target confirmed, ∃ st',
       App.on_click target confirmed busy_app = (Normal (), st') ∧ in_sync st')
  ∧ (∀ target, ∃ st',
       App.on_change target busy_app = (Normal (), st') ∧ in_sync st').
Proof.
  apply (listeners_keep_page_in_sync busy_app).
  split; [split; [|split]|].
  - unfold has_regions, render_regions.
    repeat (apply List.Forall_cons; [element|]). apply List.Forall_nil.
  - element.
  - element.
  - exists [Task (task_id 1700000000000 (js "k3x9q2m1a")) (js "Buy milk") false].
    split; [vm_compute; reflexivity|].
    unfold shows. vm_compute. repeat split; reflexivity.
Defined.




Lemma renderTask_inj (t t' : task) : renderTask t = renderTask t' → t = t'.
Proof.
  intros H.
  pose (label := λ n, match children_of n with
                      | [_; _; Element _ _ attrs _ _] => entry "aria-label" attrs
                      | _ => None
                      end).
  assert (L : ∀ u, label (renderTask u)
                   = Some (js "Delete task " ++ [34%N] ++ title u ++ [34%N]))
    by reflexivity.
  assert (I : ∀ u, dataset_of "taskId" (renderTask u) = Some (id u)) by reflexivity.
  assert (D : ∀ u, children_of (renderTask u) !! 0%nat ≫= property_of "checked"
                   = Some (VBoolean (done u))) by reflexivity.
  pose proof (f_equal label H) as Hl. rewrite !L in Hl.
  pose proof (f_equal (dataset_of "taskId") H) as Hi. rewrite !I in Hi.
  pose proof (f_equal (λ n, children_of n !! 0%nat ≫= property_of "checked") H) as Hd.
  cbv beta in Hd. rewrite !D in Hd.
  apply (inj Some) in Hl, Hi, Hd.
  do 2 apply app_inv_head in Hl. apply app_inj_tail in Hl as [Hl _].
  destruct t, t'. simpl in *. congruence.
Qed.

(** X24: [renderTask] loses nothing of a task: two tasks that differ in id,
    title or done flag get different list items, so the items of a list of
    tasks determine the list. *)
Theorem rendered_items_determine_tasks (ts ts' : list task) :
  renderTask <$> ts = renderTask <$> ts' → ts = ts'.
Proof.
  revert ts'. induction ts as [|t ts IH]; intros [|t' ts'] H; try discriminate.
  - reflexivity.
  - rewrite !fmap_cons in H.
    assert (Ht : renderTask t = renderTask t') by congruence.
    assert (Hts : renderTask <$> ts = renderTask <$> ts') by congruence.
    f_equal; [exact (renderTask_inj _ _ Ht)|exact (IH _ Hts)].
Qed.

Lemma rendered_items_determine_tasks_witness :
  [Task (js "a") (js "first") false; Task (js "a") (js "second") true]
  = [Task (js "a") (js "first") false; Task (js "a") (js "second") true].
Proof.
  apply (rendered_items_determine_tasks
           [Task (js "a") (js "first") false; Task (js "a") (js "second") true]
           [Task (js "a") (js "first") false; Task (js "a") (js "second") true]).
  reflexivity.
Defined.
